(** * wavesurfer.js: the MultiCanvas renderer and its CanvasEntry surfaces

    A shallow embedding of [src/drawer.canvasentry.js] (class [CanvasEntry])
    and of the MultiCanvas drawer (class [MultiCanvas]), followed by the
    properties of the renderer that the specification states.

    Conventions of the embedding.
    - JavaScript numbers are exact rationals ([Q]); [Math.round], [Math.floor],
      [Math.ceil] and [~~] are written out on them.  Non-finite values
      ([NaN], [Infinity]) are not represented: a division by zero, which
      gives one of them in the source, follows [Qdiv] in the model.
    - A canvas element and its 2d context are one record; the context is
      modelled by the list of calls made on it, oldest first.
    - [null] object references are [option]; dereferencing [None] raises
      [TypeError], as the property access on [null] does in the source. *)

From Stdlib Require Import ZArith QArith Qround Qminmax Qabs.
From Stdlib Require Import Bool String Lia Lqa.
From Stdlib Require Import List.
Import ListNotations.

Set Implicit Arguments.

(** ** JavaScript numbers *)

Module JS.

Local Open Scope Q_scope.

Definition ltb (x y : Q) : bool := negb (Qle_bool y x).
Definition gtb (x y : Q) : bool := ltb y x.
Definition eqb (x y : Q) : bool := Qeq_bool x y.

(** A number is truthy when it is not zero. *)
Definition truthy (x : Q) : bool := negb (Qeq_bool x 0).

(** [Math.floor], [Math.ceil]; [Math.round] rounds halves up. *)
Definition floor (x : Q) : Z := Qfloor x.
Definition ceil (x : Q) : Z := Qceiling x.
Definition round (x : Q) : Z := Qfloor (x + (1 # 2)).

(** [~~x]: truncation toward zero, then the 32-bit signed wrap-around. *)
Definition trunc (x : Q) : Z :=
  if Qle_bool 0 x then Qfloor x else Qceiling x.
Definition to_int32 (x : Q) : Z :=
  ((trunc x + 2 ^ 31) mod 2 ^ 32 - 2 ^ 31)%Z.

Definition max (x y : Q) : Q := Qmax x y.
Definition min (x y : Q) : Q := Qmin x y.
Definition abs (x : Q) : Q := Qabs x.

(** [xs[i]] on an array of numbers: [undefined] out of range. *)
Definition index (xs : list Q) (i : Z) : option Q :=
  if (i <? 0)%Z then None else nth_error xs (Z.to_nat i).

(** [xs[i] || 0]. *)
Definition index_or0 (xs : list Q) (i : Z) : Q :=
  match index xs i with Some v => v | None => 0 end.

End JS.

(** ** Results of operations that may raise *)

Inductive result (A : Type) : Type :=
| Ok (a : A)
| TypeError
| OutOfFuel.

Arguments Ok {A} a.
Arguments TypeError {A}.
Arguments OutOfFuel {A}.

Definition bind {A B} (r : result A) (k : A -> result B) : result B :=
  match r with
  | Ok a => k a
  | TypeError => TypeError
  | OutOfFuel => OutOfFuel
  end.

Notation "x <- r ;; k" := (bind r (fun x => k))
  (at level 61, r at next level, right associativity).
Notation "' pat <- r ;; k" := (bind r (fun x => match x with pat => k end))
  (at level 61, pat pattern, r at next level, right associativity).

(** Dereferencing an object reference. *)
Definition deref {A} (o : option A) : result A :=
  match o with Some a => Ok a | None => TypeError end.

(** [arr.forEach(f)] where [f] updates the element it is given and may raise. *)
Fixpoint forEach {A} (f : A -> result A) (xs : list A) : result (list A) :=
  match xs with
  | [] => Ok []
  | x :: rest =>
      x' <- f x ;;
      rest' <- forEach f rest ;;
      Ok (x' :: rest')
  end.

(** ** Canvas elements and their 2d contexts *)

Local Open Scope Q_scope.

(** A colour parameter: a CSS colour string, an existing [CanvasGradient]
    object, or an array of colour strings to turn into a gradient.  Objects
    and arrays carry the identity of the JavaScript object. *)
Inductive color : Type :=
| Flat (css : string)
| GradientObj (ref : nat)
| Stops (ref : nat) (stops : list string).

Inductive fillstyle : Type :=
| FillColor (css : string)
| FillGradientObj (ref : nat)
| FillLinear (x0 y0 x1 y1 : Q) (stops : list (Q * string)).

(** The image a [drawImage] call reads from. *)
Inductive imgsrc : Type :=
| SrcBackimage            (* the canvas' own [.backimage] child *)
| SrcProgBackimage        (* the canvas' own [.progbackimage] child *)
| SrcBackup (i : nat)     (* [backupImg[i]] *)
| SrcBackupSingle.        (* [backupImg] itself *)

(** The calls of [CanvasRenderingContext2D] the source uses. *)
Inductive ctxop : Type :=
| Save
| Restore
| SetTransform (a b c d e f : Q)
| ClearRect (x y w h : Q)
| FillRect (x y w h : Q)
| SetFillStyle (fs : fillstyle)
| BeginPath
| MoveTo (x y : Q)
| LineTo (x y : Q)
| QuadraticCurveTo (cpx cpy x y : Q)
| ClosePath
| Fill
| DrawImage5 (src : imgsrc) (dx dy dw dh : Q)
| DrawImage9 (src : imgsrc) (sx sy sw sh dx dy dw dh : Q).

(** What [toDataURL] returns; [EmptyURL] is the empty string. *)
Inductive dataURL : Type :=
| EmptyURL
| Encoded (format : string) (quality : Q) (w h : Q) (content : list ctxop).

(** An [img] element; its size is that of the picture its [src] encodes. *)
Record image : Type := { img_src : dataURL }.

Definition img_width (i : image) : Q :=
  match img_src i with EmptyURL => 0 | Encoded _ _ w _ _ => w end.
Definition img_height (i : image) : Q :=
  match img_src i with EmptyURL => 0 | Encoded _ _ _ h _ => h end.

Definition src_is_empty (i : image) : bool :=
  match img_src i with EmptyURL => true | _ => false end.

(** A [canvas] element with its context, its inline style and the back image
    appended to it as a child. *)
Record canvas : Type := {
  cv_width : Q;                    (* bitmap width *)
  cv_height : Q;                   (* bitmap height *)
  cv_left : Q;                     (* style.left, in px *)
  cv_style_width : option Q;       (* style.width, in px *)
  cv_backimage : option image;     (* the child found by querySelector *)
  cv_calls : list ctxop            (* calls made on the context *)
}.

(** [document.createElement('canvas')], styled with [left]. *)
Definition new_canvas (left : Q) : canvas :=
  {| cv_width := 300; cv_height := 150; cv_left := left;
     cv_style_width := None; cv_backimage := None; cv_calls := [] |}.

Definition call (c : canvas) (ops : list ctxop) : canvas :=
  {| cv_width := cv_width c; cv_height := cv_height c; cv_left := cv_left c;
     cv_style_width := cv_style_width c; cv_backimage := cv_backimage c;
     cv_calls := cv_calls c ++ ops |}.

Definition set_size (c : canvas) (w h : Q) : canvas :=
  {| cv_width := w; cv_height := h; cv_left := cv_left c;
     cv_style_width := cv_style_width c; cv_backimage := cv_backimage c;
     cv_calls := cv_calls c |}.

Definition set_style_width (c : canvas) (w : Q) : canvas :=
  {| cv_width := cv_width c; cv_height := cv_height c; cv_left := cv_left c;
     cv_style_width := Some w; cv_backimage := cv_backimage c;
     cv_calls := cv_calls c |}.

Definition set_style_left (c : canvas) (l : Q) : canvas :=
  {| cv_width := cv_width c; cv_height := cv_height c; cv_left := l;
     cv_style_width := cv_style_width c; cv_backimage := cv_backimage c;
     cv_calls := cv_calls c |}.

(** Both branches of [setBackimage] leave one child whose [src] is [u]. *)
Definition set_backimage_src (c : canvas) (u : dataURL) : canvas :=
  {| cv_width := cv_width c; cv_height := cv_height c; cv_left := cv_left c;
     cv_style_width := cv_style_width c;
     cv_backimage := Some {| img_src := u |};
     cv_calls := cv_calls c |}.

(** Browser layout: the element sits at its [style.left]; [offsetLeft] is
    that position as an integer number of pixels. *)
Definition offsetLeft (c : canvas) : Q := inject_Z (JS.round (cv_left c)).

Definition toDataURL (c : canvas) (format : string) (quality : Q) : dataURL :=
  Encoded format quality (cv_width c) (cv_height c) (cv_calls c).

(** The arguments of a deferred [drawLines] call held by [drawTimeout]. *)
Record deferred : Type := {
  d_peaks : list Q;
  d_absmax : Q;
  d_halfH : Q;
  d_offsetY : Q;
  d_start : Q;
  d_end : option Q;
  d_delay : Q
}.

(** ** CanvasEntry *)

Module CanvasEntry.

Record t : Type := {
  wave : option canvas;            (* [wave] and [waveCtx] *)
  progress : option canvas;        (* [progress] and [progressCtx] *)
  start : Q;
  end_ : Q;
  hasProgressCanvas : bool;
  halfPixel : Q;
  drawTimeout : option deferred;
  drawn : bool
}.

(** The constructor; the two fields MultiCanvas assigns right after it are
    left at their falsy defaults. *)
Definition new : t :=
  {| wave := None; progress := None; start := 0; end_ := 1;
     hasProgressCanvas := false; halfPixel := 0;
     drawTimeout := None; drawn := false |}.

Definition set_wave (e : t) (w : option canvas) : t :=
  {| wave := w; progress := progress e; start := start e; end_ := end_ e;
     hasProgressCanvas := hasProgressCanvas e; halfPixel := halfPixel e;
     drawTimeout := drawTimeout e; drawn := drawn e |}.

Definition set_progress (e : t) (p : option canvas) : t :=
  {| wave := wave e; progress := p; start := start e; end_ := end_ e;
     hasProgressCanvas := hasProgressCanvas e; halfPixel := halfPixel e;
     drawTimeout := drawTimeout e; drawn := drawn e |}.

Definition set_range (e : t) (s f : Q) : t :=
  {| wave := wave e; progress := progress e; start := s; end_ := f;
     hasProgressCanvas := hasProgressCanvas e; halfPixel := halfPixel e;
     drawTimeout := drawTimeout e; drawn := drawn e |}.

Definition set_flags (e : t) (hp : bool) (half : Q) : t :=
  {| wave := wave e; progress := progress e; start := start e; end_ := end_ e;
     hasProgressCanvas := hp; halfPixel := half;
     drawTimeout := drawTimeout e; drawn := drawn e |}.

Definition set_drawTimeout (e : t) (d : option deferred) : t :=
  {| wave := wave e; progress := progress e; start := start e; end_ := end_ e;
     hasProgressCanvas := hasProgressCanvas e; halfPixel := halfPixel e;
     drawTimeout := d; drawn := drawn e |}.

Definition set_drawn (e : t) (b : bool) : t :=
  {| wave := wave e; progress := progress e; start := start e; end_ := end_ e;
     hasProgressCanvas := hasProgressCanvas e; halfPixel := halfPixel e;
     drawTimeout := drawTimeout e; drawn := b |}.

Definition initWave (e : t) (element : canvas) : t := set_wave e (Some element).

Definition initProgress (e : t) (element : canvas) : t :=
  set_progress e (Some element).

(** [a / b || 0]: the quotient, or 0 when it is zero or not a number (0/0).
    A non-zero numerator over zero is [Infinity] in the source and is not
    represented. *)
Definition div_or0 (a b : Q) : Q := a / b.

Definition updateDimensions (e : t) (elementWidth totalWidth width height : Q)
  : result t :=
  w <- deref (wave e) ;;
  let s := div_or0 (offsetLeft w) totalWidth in
  let e := set_range e s (s + elementWidth / totalWidth) in
  let e := set_wave e (Some (set_style_width (set_size w width height) elementWidth)) in
  if hasProgressCanvas e then
    p <- deref (progress e) ;;
    Ok (set_progress e
          (Some (set_style_width (set_size p width height) elementWidth)))
  else Ok e.

Definition setBackimage (e : t) (backImage : dataURL)
  (progBackImage : option dataURL) : result t :=
  w <- deref (wave e) ;;
  let e := set_wave e (Some (set_backimage_src w backImage)) in
  match progBackImage with
  | Some u =>
      p <- deref (progress e) ;;
      Ok (set_progress e (Some (set_backimage_src p u)))
  | None => Ok e
  end.

Definition clear_ops (c : canvas) : list ctxop :=
  [Save; SetTransform 1 0 0 1 0 0; ClearRect 0 0 (cv_width c) (cv_height c);
   Restore].

Definition clearWave (e : t) : result t :=
  w <- deref (wave e) ;;
  let e := set_wave e (Some (call w (clear_ops w))) in
  e <- (if hasProgressCanvas e then
          p <- deref (progress e) ;;
          setBackimage (set_progress e (Some (call p (clear_ops p))))
            EmptyURL (Some EmptyURL)
        else setBackimage e EmptyURL None) ;;
  Ok (set_drawn e false).

(** [color.forEach((value, index) => addColorStop(index / color.length, value))]. *)
Definition gradient_stops (stops : list string) : list (Q * string) :=
  combine
    (map (fun i => inject_Z (Z.of_nat i) / inject_Z (Z.of_nat (length stops)))
       (seq 0 (length stops)))
    stops.

Definition getFillStyle (ctx : canvas) (c : color) : fillstyle :=
  match c with
  | Flat s => FillColor s
  | GradientObj r => FillGradientObj r
  | Stops _ l => FillLinear 0 0 0 (cv_height ctx) (gradient_stops l)
  end.

Definition setFillStyles (e : t) (waveColor progressColor : color) : result t :=
  w <- deref (wave e) ;;
  let e := set_wave e (Some (call w [SetFillStyle (getFillStyle w waveColor)])) in
  if hasProgressCanvas e then
    p <- deref (progress e) ;;
    Ok (set_progress e
          (Some (call p [SetFillStyle (getFillStyle p progressColor)])))
  else Ok e.

Definition applyCanvasTransforms (e : t) (vertical : bool) : result t :=
  if vertical then
    w <- deref (wave e) ;;
    let e := set_wave e (Some (call w [SetTransform 0 1 1 0 0 0])) in
    if hasProgressCanvas e then
      p <- deref (progress e) ;;
      Ok (set_progress e (Some (call p [SetTransform 0 1 1 0 0 0])))
    else Ok e
  else Ok e.

(** The calls [drawRoundedRect] makes on the context it is given. *)
Definition drawRoundedRect (x y width height radius : Q) : list ctxop :=
  if JS.eqb height 0 then []
  else
    let '(height, y) :=
      if JS.ltb height 0 then (height * -1, y - height * -1) else (height, y) in
    [BeginPath;
     MoveTo (x + radius) y;
     LineTo (x + width - radius) y;
     QuadraticCurveTo (x + width) y (x + width) (y + radius);
     LineTo (x + width) (y + height - radius);
     QuadraticCurveTo (x + width) (y + height) (x + width - radius) (y + height);
     LineTo (x + radius) (y + height);
     QuadraticCurveTo x (y + height) x (y + height - radius);
     LineTo x (y + radius);
     QuadraticCurveTo x y (x + radius) y;
     ClosePath;
     Fill].

(** [fillRectToContext]: nothing on a missing context, the rounded path when
    [radius] is truthy, the context's own [fillRect] otherwise. *)
Definition fillRectToContext (ctx : option canvas) (x y width height radius : Q)
  : option canvas :=
  match ctx with
  | None => None
  | Some c =>
      if JS.truthy radius
      then Some (call c (drawRoundedRect x y width height radius))
      else Some (call c [FillRect x y width height])
  end.

Definition fillRects (e : t) (x y width height radius : Q) : t :=
  let e := set_wave e (fillRectToContext (wave e) x y width height radius) in
  if hasProgressCanvas e then
    set_progress e (fillRectToContext (progress e) x y width height radius)
  else e.

(** The integers [lo, lo+1, ..., hi-1], the values a counting loop takes. *)
Definition zrange (lo hi : Z) : list Z :=
  map (fun k => (lo + Z.of_nat k)%Z) (seq 0 (Z.to_nat (hi - lo))).

(** The bounds of the slice of peak pairs an entry draws. *)
Definition slice_first (e : t) (peaks : list Q) : Z :=
  JS.round (inject_Z (Z.of_nat (length peaks)) / 2 * start e).

Definition slice_last (e : t) (peaks : list Q) : Z :=
  (JS.round (inject_Z (Z.of_nat (length peaks)) / 2 * end_ e) + 1)%Z.

(** The calls [drawLineToContext] makes on a context, [waveWidth] being
    [this.wave.width]. *)
Definition line_path (e : t) (waveWidth : Q) (peaks : list Q)
  (absmax halfH offsetY : Q) : list ctxop :=
  let first := slice_first e peaks in
  let last := slice_last e peaks in
  let canvasStart := first in
  let canvasEnd := last in
  let scale := waveWidth / inject_Z (canvasEnd - canvasStart - 1) in
  let halfOffset := halfH + offsetY in
  let absmaxHalf := absmax / halfH in
  let h (k : Z) := inject_Z (JS.round (JS.index_or0 peaks k / absmaxHalf)) in
  let x (i : Z) := inject_Z (i - first) * scale in
  [BeginPath;
   MoveTo (x canvasStart) halfOffset;
   LineTo (x canvasStart) (halfOffset - h (2 * canvasStart)%Z)]
  ++ map (fun i => LineTo (x i + halfPixel e) (halfOffset - h (2 * i)%Z))
       (zrange canvasStart canvasEnd)
  ++ map (fun j => LineTo (x j + halfPixel e) (halfOffset - h (2 * j + 1)%Z))
       (rev (zrange canvasStart canvasEnd))
  ++ [LineTo (x canvasStart) (halfOffset - h (2 * canvasStart + 1)%Z);
      ClosePath;
      Fill].

Definition drawLineToContext (e : t) (ctx : option canvas) (peaks : list Q)
  (absmax halfH offsetY : Q) (start : Q) (end_ : option Q)
  : result (option canvas) :=
  match ctx with
  | None => Ok None
  | Some c =>
      w <- deref (wave e) ;;
      Ok (Some (call c (line_path e (cv_width w) peaks absmax halfH offsetY)))
  end.

Definition drawLines (e : t) (peaks : list Q) (absmax halfH offsetY : Q)
  (start : Q) (end_ : option Q) : result t :=
  w <- drawLineToContext e (wave e) peaks absmax halfH offsetY start end_ ;;
  let e := set_wave e w in
  e <- (if hasProgressCanvas e then
          p <- drawLineToContext e (progress e) peaks absmax halfH offsetY
                 start end_ ;;
          Ok (set_progress e p)
        else Ok e) ;;
  Ok (set_drawn e true).

Definition destroy (e : t) : t := set_progress (set_wave e None) None.

(** A [Blob] holding an encoded picture, and a settled [Promise]. *)
Inductive blob : Type :=
| Blob (format : option string) (quality : option Q) (w h : Q)
    (content : list ctxop).

Inductive promise (A : Type) : Type :=
| Resolved (a : A)
| Rejected.

Arguments Resolved {A} a.
Arguments Rejected {A}.

(** What [getImage] returns: a data URL, a promise of a blob, or nothing. *)
Inductive snapshot : Type :=
| SnapURL (u : dataURL)
| SnapBlob (p : promise blob)
| SnapUndefined.

Definition format_or_default (format : option string) : string :=
  match format with Some f => f | None => "image/png"%string end.

Definition quality_or_default (quality : option Q) : Q :=
  match quality with Some q => q | None => 92 # 100 end.

Definition canvas_image (c : option canvas) (format : option string)
  (quality : option Q) (type : string) : result snapshot :=
  if String.eqb type "blob" then
    (* an exception in the executor rejects the promise *)
    match c with
    | Some c =>
        Ok (SnapBlob (Resolved
              (Blob format quality (cv_width c) (cv_height c) (cv_calls c))))
    | None => Ok (SnapBlob Rejected)
    end
  else if String.eqb type "dataURL" then
    c <- deref c ;;
    Ok (SnapURL (toDataURL c (format_or_default format)
                   (quality_or_default quality)))
  else Ok SnapUndefined.

Definition getImage (e : t) (format : option string) (quality : option Q)
  (type : string) : result snapshot :=
  canvas_image (wave e) format quality type.

Definition getProgressImage (e : t) (format : option string)
  (quality : option Q) (type : string) : result snapshot :=
  canvas_image (progress e) format quality type.

(** The backup handed to [stretchBackimage]: [null], one image, or an array. *)
Inductive backup : Type :=
| BackupNull
| BackupOne (i : image)
| BackupMany (imgs : list image).

(** The loop over [backupImg]: one scaled [drawImage] per image, the running
    [backupOffset] growing by each drawn width. *)
Fixpoint draw_backups (imgs : list image) (i : nat)
  (backupScale backupOffset left viewOffset : Q) : list ctxop :=
  match imgs with
  | [] => []
  | b :: rest =>
      let dWidth := inject_Z (JS.ceil (img_width b * backupScale)) in
      let dx := inject_Z (JS.floor (backupOffset - left + viewOffset)) in
      DrawImage9 (SrcBackup i) 0 0 (img_width b) (img_height b)
        dx 0 dWidth (img_height b)
      :: draw_backups rest (S i) backupScale (backupOffset + dWidth)
           left viewOffset
  end.

Definition sum_widths (imgs : list image) : Q :=
  fold_left (fun acc b => acc + img_width b) imgs 0.

(** [stretchBackimage]: the entry afterwards and the returned end position. *)
Definition stretchBackimage (e : t) (start totalWidth pixelRatio : Q)
  (viewBounds : Q * Q) (backupImg : backup) : result (t * Q) :=
  let end_ := end_ e * totalWidth in
  if JS.gtb start (snd viewBounds) || JS.ltb end_ (fst viewBounds) then
    (* canvas is not in frame *)
    w <- deref (wave e) ;;
    let e := set_wave e
               (Some (call w [ClearRect 0 0 (cv_width w) (cv_height w)])) in
    p <- deref (progress e) ;;
    let e := set_progress e
               (Some (call p [ClearRect 0 0 (cv_width p) (cv_height p)])) in
    Ok (e, end_)
  else
    let viewStart := JS.max start (fst viewBounds) in
    let viewEnd := JS.min end_ (snd viewBounds) in
    let viewOffset := (start - viewStart) * pixelRatio in
    let newWidth := viewEnd - viewStart in
    let waveWidth := inject_Z (JS.round newWidth) in
    let canvasWidth := inject_Z (JS.round (newWidth * pixelRatio)) in
    let imageWidth := inject_Z (JS.round ((end_ - start) * pixelRatio)) in
    let stretch (c : canvas) :=
      set_style_left
        (set_style_width (set_size c canvasWidth (cv_height c)) waveWidth)
        viewStart in
    w <- deref (wave e) ;;
    let w := stretch w in
    let e := set_wave e (Some w) in
    e <- (if hasProgressCanvas e then
            p <- deref (progress e) ;;
            Ok (set_progress e (Some (stretch p)))
          else Ok e) ;;
    (* wave *)
    image <- deref (cv_backimage w) ;;
    let w := call w [ClearRect 0 0 canvasWidth (cv_height w)] in
    w <- (if src_is_empty image then
            match backupImg with
            | BackupMany imgs =>
                let newWidth := totalWidth * pixelRatio in
                let backupScale := newWidth / sum_widths imgs in
                Ok (call w (draw_backups imgs 0 backupScale 0
                              (offsetLeft w * pixelRatio) viewOffset))
            | BackupOne _ =>
                Ok (call w
                      [DrawImage9 SrcBackupSingle
                         (img_width image * CanvasEntry.start e) 0
                         (img_width image * CanvasEntry.end_ e
                          - img_width image * CanvasEntry.start e)
                         (img_height image)
                         viewOffset 0 imageWidth (img_height image)])
            | BackupNull => TypeError   (* drawImage rejects null *)
            end
          else
            Ok (call w [DrawImage5 SrcBackimage viewOffset 0 imageWidth
                          (img_height image)])) ;;
    let e := set_wave e (Some w) in
    (* progress *)
    p <- deref (progress e) ;;
    match cv_backimage p with
    | Some progImage =>
        Ok (set_progress e
              (Some (call p [ClearRect 0 0 canvasWidth (cv_height p);
                             DrawImage5 SrcProgBackimage viewOffset 0
                               imageWidth (img_height progImage)])),
            end_)
    | None => Ok (e, end_)
    end.

Definition setLeft (e : t) (position : Q) : result t :=
  w <- deref (wave e) ;;
  let e := set_wave e (Some (set_style_left w position)) in
  if hasProgressCanvas e then
    p <- deref (progress e) ;;
    Ok (set_progress e (Some (set_style_left p position)))
  else Ok e.

End CanvasEntry.

(** ** MultiCanvas *)

(** The per-channel colours of [splitChannelsOptions.channelColors]. *)
Record channelColor : Type := {
  cc_waveColor : option color;
  cc_progressColor : option color
}.

Record splitChannelsOptions : Type := {
  overlay : bool;
  relativeNormalization : bool;
  filterChannels : list Z;
  channelColors : list (Z * channelColor)
}.

(** The initialisation options the drawer reads. *)
Record params : Type := {
  pixelRatio : Q;
  p_maxCanvasWidth : Q;
  waveColor : color;
  progressColor : color;
  p_barRadius : Q;                  (* 0 when not given *)
  p_vertical : bool;
  barWidth : Q;
  barGap : option Q;                (* [None] is [null] *)
  barMinHeight : Q;                 (* 0 when not given *)
  barHeight : Q;
  p_height : Q;
  normalize : bool;
  splitChannels : bool;
  splitChannelsOpts : splitChannelsOptions;
  cursorWidth : Q;
  cursorColor : string
}.

(** The [wave] element that clips the progress canvases. *)
Record progressWaveEl : Type := {
  pw_display : bool;                (* [true] is 'block', [false] is 'none' *)
  pw_width : Q;                     (* style.width, in px *)
  pw_borderRightWidth : Q;
  pw_borderRightColor : string
}.

(** What the drawer reads of its wrapper element: its client width, its
    bounding rectangle and its horizontal scroll position. *)
Record wrapperEl : Type := {
  wr_clientWidth : Q;
  wr_left : Q;
  wr_width : Q;
  wr_scrollLeft : Q
}.

(** The loose inequality [a != b] of two colour parameters: strings compare
    by value, objects by identity, and an array against a string through the
    array's string form. *)
Definition join_commas (l : list string) : string := String.concat "," l.

Definition color_neq (a b : color) : bool :=
  match a, b with
  | Flat s, Flat s' => negb (String.eqb s s')
  | GradientObj r, GradientObj r' => negb (Nat.eqb r r')
  | Stops r _, Stops r' _ => negb (Nat.eqb r r')
  | GradientObj _, Stops _ _ | Stops _ _, GradientObj _ => true
  | Flat s, Stops _ l | Stops _ l, Flat s => negb (String.eqb s (join_commas l))
  | Flat s, GradientObj _ | GradientObj _, Flat s =>
      negb (String.eqb s "[object CanvasGradient]")
  end.

(** A [while] loop; the fuel bounds the number of iterations. *)
Fixpoint while (S : Type) (fuel : nat) (cond : S -> bool)
  (body : S -> result S) (s : S) : result S :=
  match fuel with
  | O => if cond s then OutOfFuel else Ok s
  | Datatypes.S fuel' =>
      if cond s then s' <- body s ;; while fuel' cond body s' else Ok s
  end.

Module MultiCanvas.

Record t : Type := {
  prm : params;                     (* [this.params] *)
  width : Q;                        (* [this.width], from Drawer *)
  height : Q;                       (* [this.height], from Drawer *)
  wrapper : wrapperEl;              (* [this.wrapper], from Drawer *)
  maxCanvasWidth : Q;
  maxCanvasElementWidth : Q;
  hasProgressCanvas : bool;
  halfPixel : Q;
  canvases : list CanvasEntry.t;
  progressWave : option progressWaveEl;
  overlap : Q;
  barRadius : Q;
  vertical : bool;
  backupImage : option (list image)
}.

(** The constructor.  The fields the Drawer base class owns ([width],
    [height], [wrapper]) are taken as they are after [super(...)] and
    [createWrapper()]. *)
Definition new (p : params) (width0 height0 : Q) (wr : wrapperEl) : t :=
  {| prm := p; width := width0; height := height0; wrapper := wr;
     maxCanvasWidth := p_maxCanvasWidth p;
     maxCanvasElementWidth :=
       inject_Z (JS.round (p_maxCanvasWidth p / pixelRatio p));
     hasProgressCanvas := color_neq (waveColor p) (progressColor p);
     halfPixel := (1 # 2) / pixelRatio p;
     canvases := [];
     progressWave := None;
     overlap := 2 * inject_Z (JS.ceil (pixelRatio p / 2));
     barRadius := p_barRadius p;
     vertical := p_vertical p;
     backupImage := None |}.

Definition set_canvases (m : t) (cs : list CanvasEntry.t) : t :=
  {| prm := prm m; width := width m; height := height m; wrapper := wrapper m;
     maxCanvasWidth := maxCanvasWidth m;
     maxCanvasElementWidth := maxCanvasElementWidth m;
     hasProgressCanvas := hasProgressCanvas m; halfPixel := halfPixel m;
     canvases := cs; progressWave := progressWave m; overlap := overlap m;
     barRadius := barRadius m; vertical := vertical m;
     backupImage := backupImage m |}.

Definition set_progressWave (m : t) (pw : option progressWaveEl) : t :=
  {| prm := prm m; width := width m; height := height m; wrapper := wrapper m;
     maxCanvasWidth := maxCanvasWidth m;
     maxCanvasElementWidth := maxCanvasElementWidth m;
     hasProgressCanvas := hasProgressCanvas m; halfPixel := halfPixel m;
     canvases := canvases m; progressWave := pw; overlap := overlap m;
     barRadius := barRadius m; vertical := vertical m;
     backupImage := backupImage m |}.

Definition set_dims (m : t) (w h : Q) : t :=
  {| prm := prm m; width := w; height := h; wrapper := wrapper m;
     maxCanvasWidth := maxCanvasWidth m;
     maxCanvasElementWidth := maxCanvasElementWidth m;
     hasProgressCanvas := hasProgressCanvas m; halfPixel := halfPixel m;
     canvases := canvases m; progressWave := progressWave m;
     overlap := overlap m; barRadius := barRadius m; vertical := vertical m;
     backupImage := backupImage m |}.

Definition set_backupImage (m : t) (b : option (list image)) : t :=
  {| prm := prm m; width := width m; height := height m; wrapper := wrapper m;
     maxCanvasWidth := maxCanvasWidth m;
     maxCanvasElementWidth := maxCanvasElementWidth m;
     hasProgressCanvas := hasProgressCanvas m; halfPixel := halfPixel m;
     canvases := canvases m; progressWave := progressWave m;
     overlap := overlap m; barRadius := barRadius m; vertical := vertical m;
     backupImage := b |}.

(** [addCanvas]: a new entry with a wave canvas and, when the drawer has a
    progress wave, a progress canvas, both placed at [leftOffset]. *)
Definition addCanvas (m : t) : result t :=
  let entry := CanvasEntry.set_flags CanvasEntry.new
                 (hasProgressCanvas m) (halfPixel m) in
  let leftOffset :=
    maxCanvasElementWidth m * inject_Z (Z.of_nat (length (canvases m))) in
  let entry := CanvasEntry.initWave entry (new_canvas leftOffset) in
  entry <- (if hasProgressCanvas m then
              _ <- deref (progressWave m) ;;
              Ok (CanvasEntry.initProgress entry (new_canvas leftOffset))
            else Ok entry) ;;
  Ok (set_canvases m (canvases m ++ [entry])).

(** [updateCursor]. *)
Definition updateCursor (m : t) : result t :=
  pw <- deref (progressWave m) ;;
  Ok (set_progressWave m
        (Some {| pw_display := pw_display pw; pw_width := pw_width pw;
                 pw_borderRightWidth := cursorWidth (prm m);
                 pw_borderRightColor := cursorColor (prm m) |})).

(** [createElements], which is all [init] does after the wrapper exists. *)
Definition createElements (m : t) : result t :=
  let m := set_progressWave m
             (Some {| pw_display := false; pw_width := 0;
                      pw_borderRightWidth := 0;
                      pw_borderRightColor := EmptyString |}) in
  m <- addCanvas m ;;
  updateCursor m.

Definition init (m : t) : result t := createElements m.

(** [removeCanvas]: detach the canvases of the last entry, destroy it and
    pop it; the destroyed entry is not referenced any more. *)
Definition removeCanvas (m : t) : result t :=
  lastEntry <- deref (last (map Some (canvases m)) None) ;;
  _ <- deref (CanvasEntry.wave lastEntry) ;;
  _ <- (if hasProgressCanvas m
        then deref (CanvasEntry.progress lastEntry)
        else Ok (new_canvas 0)) ;;
  Ok (set_canvases m (removelast (canvases m))).

(** [updateDimensions(entry, width, height)]: the entry afterwards and the
    drawer with its progress wave displayed. *)
Definition updateDimensions (m : t) (entry : CanvasEntry.t) (width height : Q)
  : result (t * CanvasEntry.t) :=
  let elementWidth := inject_Z (JS.round (width / pixelRatio (prm m))) in
  let totalWidth :=
    inject_Z (JS.round (MultiCanvas.width m / pixelRatio (prm m))) in
  entry <- CanvasEntry.updateDimensions entry elementWidth totalWidth
             width height ;;
  pw <- deref (progressWave m) ;;
  Ok (set_progressWave m
        (Some {| pw_display := true; pw_width := pw_width pw;
                 pw_borderRightWidth := pw_borderRightWidth pw;
                 pw_borderRightColor := pw_borderRightColor pw |}),
      entry).

(** The number of canvases [updateSize] asks for. *)
Definition requiredCanvases (m : t) : Z :=
  let totalWidth := inject_Z (JS.round (width m / pixelRatio (prm m))) in
  JS.ceil (totalWidth / (maxCanvasElementWidth m + overlap m)).

(** The callback of the [forEach] of [updateSize], for the entry of index
    [i]; [canvasWidth] and [leftOffset] are the variables it updates. *)
Definition layout_entry (m : t) (lastCanvas i : Z) (canvasWidth leftOffset : Q)
  (entry : CanvasEntry.t) : result (t * CanvasEntry.t * Q * Q) :=
  (* last canvas gets custom width, all others are max *)
  let canvasWidth :=
    if (i =? lastCanvas)%Z
    then width m - maxCanvasWidth m * inject_Z lastCanvas
    else canvasWidth in
  (* set left offset and add to next entry *)
  entry <- CanvasEntry.setLeft entry leftOffset ;;
  let leftOffset := leftOffset + canvasWidth / pixelRatio (prm m) in
  '(m, entry) <- updateDimensions m entry canvasWidth (height m) ;;
  entry <- CanvasEntry.clearWave entry ;;
  Ok (m, entry, canvasWidth, leftOffset).

Fixpoint layout_entries (m : t) (lastCanvas : Z) (i : Z)
  (canvasWidth leftOffset : Q) (es : list CanvasEntry.t)
  : result (t * list CanvasEntry.t) :=
  match es with
  | [] => Ok (m, [])
  | entry :: rest =>
      '(m, entry, canvasWidth, leftOffset) <-
        layout_entry m lastCanvas i canvasWidth leftOffset entry ;;
      '(m, rest) <- layout_entries m lastCanvas (i + 1) canvasWidth
                      leftOffset rest ;;
      Ok (m, entry :: rest)
  end.

Definition updateSize (fuel : nat) (m : t) : result t :=
  let requiredCanvases := requiredCanvases m in
  (* add required canvases *)
  m <- while fuel
         (fun m => (Z.of_nat (length (canvases m)) <? requiredCanvases)%Z)
         addCanvas m ;;
  (* remove older existing canvases, if any *)
  m <- while fuel
         (fun m => (Z.of_nat (length (canvases m)) >? requiredCanvases)%Z)
         removeCanvas m ;;
  let canvasWidth := maxCanvasWidth m + overlap m in
  let lastCanvas := (Z.of_nat (length (canvases m)) - 1)%Z in
  '(m', es) <- layout_entries m lastCanvas 0 canvasWidth 0 (canvases m) ;;
  Ok (set_canvases m' es).

(** The spec's [resize]: the Drawer stores the new size and calls
    [updateSize]. *)
Definition resize (fuel : nat) (w h : Q) (m : t) : result t :=
  updateSize fuel (set_dims m w h).

(** [clearWave], the frame callback run at once. *)
Definition clearWave (m : t) : result t :=
  es <- forEach CanvasEntry.clearWave (canvases m) ;;
  Ok (set_canvases m es).

(** [arr[i]] on the array of entries. *)
Definition entry_at (m : t) (i : Z) : option CanvasEntry.t :=
  if (i <? 0)%Z then None else nth_error (canvases m) (Z.to_nat i).

Fixpoint replace_nth (A : Type) (n : nat) (x : A) (xs : list A) : list A :=
  match xs, n with
  | [], _ => []
  | _ :: rest, O => x :: rest
  | y :: rest, S n' => y :: replace_nth n' x rest
  end.

(** [hideChannel]. *)
Definition hideChannel (m : t) (channelIndex : Z) : bool :=
  splitChannels (prm m)
  && existsb (Z.eqb channelIndex) (filterChannels (splitChannelsOpts (prm m))).

(** [channelColors[channelIndex] || {}]. *)
Definition channel_colors (m : t) (channelIndex : Z) : channelColor :=
  match find (fun kv => Z.eqb (fst kv) channelIndex)
          (channelColors (splitChannelsOpts (prm m))) with
  | Some (_, c) => c
  | None => {| cc_waveColor := None; cc_progressColor := None |}
  end.

(** [setFillStyles], with its default arguments. *)
Definition setFillStyles (m : t) (entry : CanvasEntry.t)
  (wColor pColor : option color) : result CanvasEntry.t :=
  CanvasEntry.setFillStyles entry
    (match wColor with Some c => c | None => waveColor (prm m) end)
    (match pColor with Some c => c | None => progressColor (prm m) end).

Definition applyCanvasTransforms (entry : CanvasEntry.t) (vertical : bool)
  : result CanvasEntry.t :=
  CanvasEntry.applyCanvasTransforms entry vertical.

(** One turn of the loop of [fillRect], for the canvas of index [i]. *)
Definition fillRect_at (x y width height radius : Q) (channelIndex : Z)
  (m : t) (i : Z) : result t :=
  entry <- deref (entry_at m i) ;;
  let leftOffset := inject_Z i * maxCanvasWidth m in
  w <- deref (CanvasEntry.wave entry) ;;
  let x1 := JS.max x (inject_Z i * maxCanvasWidth m) in
  let y1 := y in
  let x2 := JS.min (x + width) (inject_Z i * maxCanvasWidth m + cv_width w) in
  let y2 := y + height in
  if JS.ltb x1 x2 then
    let cc := channel_colors m channelIndex in
    entry <- setFillStyles m entry (cc_waveColor cc) (cc_progressColor cc) ;;
    entry <- applyCanvasTransforms entry (p_vertical (prm m)) ;;
    let entry := CanvasEntry.fillRects entry (x1 - leftOffset) y1 (x2 - x1)
                   (y2 - y1) radius in
    Ok (set_canvases m (replace_nth (Z.to_nat i) entry (canvases m)))
  else Ok m.

Fixpoint foldM (A S : Type) (f : S -> A -> result S) (xs : list A) (s : S)
  : result S :=
  match xs with
  | [] => Ok s
  | x :: rest => s' <- f s x ;; foldM f rest s'
  end.

(** [fillRect]: the rectangle, clipped, on every canvas it meets. *)
Definition fillRect (m : t) (x y width height radius : Q) (channelIndex : Z)
  : result t :=
  let startCanvas := JS.floor (x / maxCanvasWidth m) in
  let endCanvas :=
    Z.min (JS.ceil ((x + width) / maxCanvasWidth m) + 1)
      (Z.of_nat (length (canvases m))) in
  foldM (fillRect_at x y width height radius channelIndex)
    (CanvasEntry.zrange startCanvas endCanvas) m.

(** Browser layout: the bounding rectangle of a canvas inside the scrolled
    wrapper, as (left, right). *)
Definition canvas_rect (m : t) (c : canvas) : Q * Q :=
  let left := wr_left (wrapper m) - wr_scrollLeft (wrapper m) + cv_left c in
  let w := match cv_style_width c with Some v => v | None => cv_width c end in
  (left, left + w).

(** The redraw priority of a canvas: how many viewport widths it lies
    outside the wrapper. *)
Definition priority (m : t) (c : canvas) : Q :=
  let '(cleft, cright) := canvas_rect m c in
  let wleft := wr_left (wrapper m) in
  let wright := wr_left (wrapper m) + wr_width (wrapper m) in
  if (JS.floor cleft >? JS.ceil wright)%Z then
    inject_Z (JS.ceil ((cleft - wright) / wr_width (wrapper m)))
  else if (JS.ceil cright <? JS.floor wleft)%Z then
    inject_Z (JS.ceil ((wleft - cright) / wr_width (wrapper m)))
  else 0.

(** The callback of [drawLine] for one entry: styles, clear, and the
    staggered redraw left pending in [drawTimeout]. *)
Definition drawLine_entry (m : t) (peaks : list Q) (absmax halfH offsetY : Q)
  (start : Q) (end_ : option Q) (channelIndex : Z) (entry : CanvasEntry.t)
  : result CanvasEntry.t :=
  let cc := channel_colors m channelIndex in
  entry <- setFillStyles m entry (cc_waveColor cc) (cc_progressColor cc) ;;
  entry <- applyCanvasTransforms entry (p_vertical (prm m)) ;;
  w <- deref (CanvasEntry.wave entry) ;;
  let priority := priority m w in
  entry <- CanvasEntry.clearWave entry ;;
  Ok (CanvasEntry.set_drawTimeout entry
        (Some {| d_peaks := peaks; d_absmax := absmax; d_halfH := halfH;
                 d_offsetY := offsetY; d_start := start; d_end := end_;
                 d_delay := 50 * priority |})).

Definition drawLine (m : t) (peaks : list Q) (absmax halfH offsetY : Q)
  (start : Q) (end_ : option Q) (channelIndex : Z) : result t :=
  es <- forEach (drawLine_entry m peaks absmax halfH offsetY start end_
                   channelIndex) (canvases m) ;;
  Ok (set_canvases m es).

(** The function [drawLine] hands to [setTimeout], run for an entry whose
    timer fires. *)
Definition timeout_callback (entry : CanvasEntry.t) : result CanvasEntry.t :=
  match CanvasEntry.drawTimeout entry with
  | None => Ok entry
  | Some d =>
      entry <- CanvasEntry.drawLines entry (d_peaks d) (d_absmax d)
                 (d_halfH d) (d_offsetY d) (d_start d) (d_end d) ;;
      img <- CanvasEntry.getImage entry (Some "image/png"%string) (Some 1)
               "dataURL" ;;
      prog <- CanvasEntry.getProgressImage entry (Some "image/png"%string)
                (Some 1) "dataURL" ;;
      entry <- (match img, prog with
                | CanvasEntry.SnapURL u, CanvasEntry.SnapURL pu =>
                    CanvasEntry.setBackimage entry u (Some pu)
                | _, _ => Ok entry
                end) ;;
      Ok (CanvasEntry.set_drawTimeout entry None)
  end.

(** The timer of the entry of index [i] fires. *)
Definition fire_timeout (m : t) (i : nat) : result t :=
  match nth_error (canvases m) i with
  | None => Ok m
  | Some entry =>
      entry <- timeout_callback entry ;;
      Ok (set_canvases m (replace_nth i entry (canvases m)))
  end.

(** [updateProgress]. *)
Definition updateProgress (m : t) (position : Q) : result t :=
  pw <- deref (progressWave m) ;;
  Ok (set_progressWave m
        (Some {| pw_display := pw_display pw; pw_width := position;
                 pw_borderRightWidth := pw_borderRightWidth pw;
                 pw_borderRightColor := pw_borderRightColor pw |})).

(** What [getImage] returns. *)
Inductive images : Type :=
| ImgOne (u : dataURL)
| ImgMany (us : list dataURL)
| ImgBlobs (p : CanvasEntry.promise (list CanvasEntry.blob))
| ImgUndefined.

(** [Promise.all] on the snapshots of the entries. *)
Fixpoint promise_all (ss : list CanvasEntry.snapshot)
  : CanvasEntry.promise (list CanvasEntry.blob) :=
  match ss with
  | [] => CanvasEntry.Resolved []
  | CanvasEntry.SnapBlob (CanvasEntry.Resolved b) :: rest =>
      match promise_all rest with
      | CanvasEntry.Resolved bs => CanvasEntry.Resolved (b :: bs)
      | CanvasEntry.Rejected => CanvasEntry.Rejected
      end
  | _ :: _ => CanvasEntry.Rejected
  end.

(** [arr.map(f)] where [f] may raise. *)
Fixpoint mapM (A B : Type) (f : A -> result B) (xs : list A) : result (list B) :=
  match xs with
  | [] => Ok []
  | x :: rest => y <- f x ;; ys <- mapM f rest ;; Ok (y :: ys)
  end.

Definition snapshot_url (s : CanvasEntry.snapshot) : dataURL :=
  match s with CanvasEntry.SnapURL u => u | _ => EmptyURL end.

Definition getImage (m : t) (format : option string) (quality : option Q)
  (type : string) : result images :=
  if String.eqb type "blob" then
    ss <- mapM (fun entry => CanvasEntry.getImage entry format quality type)
            (canvases m) ;;
    Ok (ImgBlobs (promise_all ss))
  else if String.eqb type "dataURL" then
    ss <- mapM (fun entry => CanvasEntry.getImage entry format quality type)
            (canvases m) ;;
    let images := map snapshot_url ss in
    if (1 <? length images)%nat then Ok (ImgMany images)
    else match images with
         | u :: _ => Ok (ImgOne u)
         | [] => Ok ImgUndefined
         end
  else Ok ImgUndefined.

(** The loop of [setBackupImage] that collects one data URL per canvas;
    [None] when one of them is empty and the function gives up for now. *)
Fixpoint collect_dataURLs (es : list CanvasEntry.t)
  : result (option (list dataURL)) :=
  match es with
  | [] => Ok (Some [])
  | entry :: rest =>
      s <- CanvasEntry.getImage entry (Some "image/png"%string) (Some 1)
             "dataURL" ;;
      match snapshot_url s with
      | EmptyURL => Ok None
      | u =>
          r <- collect_dataURLs rest ;;
          Ok (option_map (cons u) r)
      end
  end.

(** [setBackupImage]; a retry scheduled for later leaves the drawer as it
    is. *)
Definition setBackupImage (m : t) : result t :=
  match backupImage m with
  | Some _ => Ok m
  | None =>
      let ready := forallb CanvasEntry.drawn (canvases m) in
      if negb ready || (length (canvases m) <? 1)%nat then Ok m
      else
        r <- collect_dataURLs (canvases m) ;;
        match r with
        | None => Ok m
        | Some dataURLS =>
            Ok (set_backupImage m
                  (Some (map (fun u => {| img_src := u |}) dataURLS)))
        end
  end.

(** *** Rendering *)

(** Peak data: one array of samples, or one array per channel.  A channel
    array carries its identity, which [indexOf] compares. *)
Record channel : Type := { ch_ref : nat; ch_samples : list Q }.

Inductive peaksArg : Type :=
| Samples (l : list Q)
| Channels (chs : list channel).

(** What [prepareDraw] hands to the render function. *)
Record geometry : Type := {
  g_absmax : Q;
  g_hasMinVals : bool;
  g_height : Q;
  g_offsetY : Q;
  g_halfH : Q;
  g_peaks : list Q;
  g_channelIndex : Z
}.

(** The calls a render makes on the drawer, in order. *)
Inductive action : Type :=
| ASetHeight (h : Q)
| AFillRect (x y w h radius : Q) (channelIndex : Z)
| ADrawLine (peaks : list Q) (absmax halfH offsetY : Q) (start : Q)
    (end_ : option Q) (channelIndex : Z).

(** [channels.filter((c, i) => !this.hideChannel(i))], from index [i] on. *)
Fixpoint filter_visible (m : t) (i : Z) (chs : list channel) : list channel :=
  match chs with
  | [] => []
  | c :: rest =>
      if hideChannel m i then filter_visible m (i + 1) rest
      else c :: filter_visible m (i + 1) rest
  end.

(** [arr.indexOf(c)], counting from [i]. *)
Fixpoint indexOf (c : channel) (chs : list channel) (i : Z) : Z :=
  match chs with
  | [] => (-1)%Z
  | c' :: rest =>
      if Nat.eqb (ch_ref c') (ch_ref c) then i else indexOf c rest (i + 1)
  end.

(** [channels.forEach((channelPeaks, i) => ...)], gathering the calls. *)
Fixpoint each_channel (f : channel -> Z -> result (list action)) (i : Z)
  (chs : list channel) : result (list action) :=
  match chs with
  | [] => Ok []
  | c :: rest =>
      a <- f c i ;;
      b <- each_channel f (i + 1) rest ;;
      Ok (a ++ b)
  end.

(** The inner [do ... while] of [drawBars]: the highest absolute peak from
    [peakIndexRange] up to [peakIndexEnd], with the indices it read. *)
Fixpoint scan_peaks (fuel : nat) (peaks : list Q)
  (peakIndexScale peakIndexEnd : Z) (peak : Q) (peakIndexRange : Z)
  : result (Q * list Z) :=
  match fuel with
  | O => OutOfFuel
  | S fuel' =>
      let peak :=
        match JS.index peaks peakIndexRange with
        | Some v => if JS.gtb (JS.abs v) peak then JS.abs v else peak
        | None => peak
        end in
      let next := (peakIndexRange + peakIndexScale)%Z in
      if (next <? peakIndexEnd)%Z then
        '(p, visited) <- scan_peaks fuel' peaks peakIndexScale peakIndexEnd
                           peak next ;;
        Ok (p, peakIndexRange :: visited)
      else Ok (peak, [peakIndexRange])
  end.

Section Rendering.

(** The helpers of [util] and of the Drawer base class that the renderer
    calls and that are not among the sources. *)
Variable absMax : list Q -> Q.
Variable arrayMax : list Q -> Q.
Variable recenterOnPosition : wrapperEl -> Q -> wrapperEl.

(** [prepareDraw] on a flat array of samples. *)
Definition prepareFlat (m : t) (peaks : list Q) (channelIndex : Z)
  (fn : geometry -> result (list action)) (drawIndex : option Z)
  (normalizedMax : option Q) : result (list action) :=
  if hideChannel m channelIndex then Ok []
  else
    let absmax :=
      if normalize (prm m) then
        match normalizedMax with None => absMax peaks | Some v => v end
      else 1 / barHeight (prm m) in
    let hasMinVals := existsb (fun val => JS.ltb val 0) peaks in
    let height := p_height (prm m) * pixelRatio (prm m) in
    let halfH := height / 2 in
    let offsetY :=
      match drawIndex with Some d => height * inject_Z d | None => 0 end in
    let offsetY :=
      if overlay (splitChannelsOpts (prm m)) then 0 else offsetY in
    fn {| g_absmax := absmax; g_hasMinVals := hasMinVals; g_height := height;
          g_offsetY := offsetY; g_halfH := halfH; g_peaks := peaks;
          g_channelIndex := channelIndex |}.

(** [prepareDraw], the frame callbacks run in the order they are queued. *)
Definition prepareDraw (m : t) (peaks : peaksArg) (channelIndex : Z)
  (fn : geometry -> result (list action)) (drawIndex : option Z)
  (normalizedMax : option Q) : result (list action) :=
  match peaks with
  | Samples l => prepareFlat m l channelIndex fn drawIndex normalizedMax
  | Channels [] => prepareFlat m [] channelIndex fn drawIndex normalizedMax
  | Channels ((c0 :: _) as channels) =>
      if splitChannels (prm m) then
        let filteredChannels := filter_visible m 0 channels in
        let resize :=
          if negb (overlay (splitChannelsOpts (prm m))) then
            [ASetHeight
               (inject_Z (Z.max (Z.of_nat (length filteredChannels)) 1)
                * p_height (prm m) * pixelRatio (prm m))]
          else [] in
        let overallAbsMax :=
          if relativeNormalization (splitChannelsOpts (prm m))
          then Some (arrayMax (map (fun c => absMax (ch_samples c)) channels))
          else None in
        acts <- each_channel
                  (fun channelPeaks i =>
                     prepareFlat m (ch_samples channelPeaks) i fn
                       (Some (indexOf channelPeaks filteredChannels 0))
                       overallAbsMax)
                  0 channels ;;
        Ok (resize ++ acts)
      else prepareFlat m (ch_samples c0) channelIndex fn drawIndex
             normalizedMax
  end.

(** The gap between two bars and the step from one bar to the next. *)
Definition bar_size (m : t) : Q := barWidth (prm m) * pixelRatio (prm m).

Definition bar_gap (m : t) : Q :=
  match barGap (prm m) with
  | None => JS.max (pixelRatio (prm m)) (inject_Z (JS.to_int32 (bar_size m / 2)))
  | Some g => JS.max (pixelRatio (prm m)) (g * pixelRatio (prm m))
  end.

Definition bar_step (m : t) : Q := bar_size m + bar_gap m.

(** The [for] loop of [drawBars] from [peakIndex] on; [inner] is the fuel
    of each peak scan. *)
Fixpoint bars_loop (fuel inner : nat) (m : t) (g : geometry) (last : Q)
  (peakIndex : Q) : result (list action) :=
  let continue := JS.ltb peakIndex last in
  match fuel with
  | O => if continue then OutOfFuel else Ok []
  | S fuel' =>
      if continue then
        let peakIndexScale := if g_hasMinVals g then 2%Z else 1%Z in
        let length := inject_Z (Z.of_nat (length (g_peaks g)))
                      / inject_Z peakIndexScale in
        let bar := bar_size m in
        let step := bar_step m in
        let scale := length / width m in
        let peakIndexRange :=
          (JS.floor (peakIndex * scale) * peakIndexScale)%Z in
        let peakIndexEnd :=
          (JS.floor ((peakIndex + step) * scale) * peakIndexScale)%Z in
        '(peak, _) <- scan_peaks inner (g_peaks g) peakIndexScale peakIndexEnd
                        0 peakIndexRange ;;
        let h := inject_Z (JS.round (peak / g_absmax g * g_halfH g)) in
        let h := if JS.truthy (barMinHeight (prm m))
                 then JS.max h (barMinHeight (prm m)) else h in
        rest <- bars_loop fuel' inner m g last (peakIndex + step) ;;
        Ok (AFillRect (peakIndex + halfPixel m) (g_halfH g - h + g_offsetY g)
              (bar + halfPixel m) (h * 2) (barRadius m) (g_channelIndex g)
            :: rest)
      else Ok []
  end.

(** The render function of [drawBars]. *)
Definition drawBars_fn (fuel : nat) (m : t) (start end_ : option Q)
  (g : geometry) : result (list action) :=
  match start with
  | None => Ok []
  | Some first =>
      match end_ with
      | None => Ok []            (* [peakIndex < undefined] is false *)
      | Some last => bars_loop fuel fuel m g last first
      end
  end.

Definition drawBars (fuel : nat) (m : t) (peaks : peaksArg) (channelIndex : Z)
  (start end_ : option Q) : result (list action) :=
  prepareDraw m peaks channelIndex (drawBars_fn fuel m start end_) None None.

(** [reflectedPeaks]: every sample followed by its opposite. *)
Definition reflect (peaks : list Q) : list Q :=
  flat_map (fun v => [v; - v]) peaks.

(** The flat line [drawWave] always draws. *)
Definition median_line (m : t) (g : geometry) : action :=
  AFillRect 0 (g_halfH g + g_offsetY g - halfPixel m) (width m) (halfPixel m)
    (barRadius m) (g_channelIndex g).

(** The render function of [drawWave]. *)
Definition drawWave_fn (m : t) (start end_ : option Q) (g : geometry)
  : result (list action) :=
  let peaks := if g_hasMinVals g then g_peaks g else reflect (g_peaks g) in
  let line :=
    match start with
    | Some s =>
        [ADrawLine peaks (g_absmax g) (g_halfH g) (g_offsetY g) s end_
           (g_channelIndex g)]
    | None => []
    end in
  Ok (line ++ [median_line m g]).

Definition drawWave (m : t) (peaks : peaksArg) (channelIndex : Z)
  (start end_ : option Q) : result (list action) :=
  prepareDraw m peaks channelIndex (drawWave_fn m start end_) None None.

(** Modelled from the spec: [setHeight] belongs to the Drawer base class,
    which is not among the sources.  As the spec's [resize] does, it stores
    the new height and calls [updateSize]. *)
Definition setHeight (fuel : nat) (m : t) (h : Q) : result t :=
  resize fuel (width m) h m.

(** Carrying out the calls of a render on the drawer. *)
Definition perform (fuel : nat) (m : t) (a : action) : result t :=
  match a with
  | ASetHeight h => setHeight fuel m h
  | AFillRect x y w h radius ch => fillRect m x y w h radius ch
  | ADrawLine peaks absmax halfH offsetY start end_ ch =>
      drawLine m peaks absmax halfH offsetY start end_ ch
  end.

Definition renderBars (fuel : nat) (m : t) (peaks : peaksArg)
  (channelIndex : Z) (start end_ : option Q) : result t :=
  acts <- drawBars fuel m peaks channelIndex start end_ ;;
  foldM (perform fuel) acts m.

Definition renderLine (fuel : nat) (m : t) (peaks : peaksArg)
  (channelIndex : Z) (start end_ : option Q) : result t :=
  acts <- drawWave m peaks channelIndex start end_ ;;
  foldM (perform fuel) acts m.

(** The [forEach] of [stretchBackimage]: [start] runs from one entry to the
    next. *)
Fixpoint stretch_entries (totalWidth pixelRatio : Q) (view : Q * Q)
  (backupImg : CanvasEntry.backup) (start : Q) (es : list CanvasEntry.t)
  : result (list CanvasEntry.t) :=
  match es with
  | [] => Ok []
  | entry :: rest =>
      let entry := CanvasEntry.set_drawTimeout entry None in
      '(entry, start) <- CanvasEntry.stretchBackimage entry start totalWidth
                           pixelRatio view backupImg ;;
      rest <- stretch_entries totalWidth pixelRatio view backupImg start rest ;;
      Ok (entry :: rest)
  end.

Definition stretchBackimage (m : t) (desiredWidth progress : Q) : result t :=
  let totalCanvasWidth :=
    inject_Z (JS.round (desiredWidth / pixelRatio (prm m))) in
  let progressPos := progress * totalCanvasWidth in
  let m := set_dims m desiredWidth (height m) in
  let view :=
    (JS.max (progressPos - wr_clientWidth (wrapper m)) 0,
     progressPos + wr_clientWidth (wrapper m)) in
  let backupImg :=
    match backupImage m with
    | None => CanvasEntry.BackupNull
    | Some imgs => CanvasEntry.BackupMany imgs
    end in
  es <- stretch_entries totalCanvasWidth (pixelRatio (prm m)) view backupImg
          0 (canvases m) ;;
  m <- updateProgress (set_canvases m es) progressPos ;;
  Ok {| prm := prm m; width := width m; height := height m;
        wrapper := recenterOnPosition (wrapper m) progressPos;
        maxCanvasWidth := maxCanvasWidth m;
        maxCanvasElementWidth := maxCanvasElementWidth m;
        hasProgressCanvas := hasProgressCanvas m; halfPixel := halfPixel m;
        canvases := canvases m; progressWave := progressWave m;
        overlap := overlap m; barRadius := barRadius m;
        vertical := vertical m; backupImage := backupImage m |}.

(** The operations of the drawer, and the firing of a pending timer. *)
Inductive op : Type :=
| OInit
| OAddCanvas
| ORemoveCanvas
| OUpdateCursor
| OUpdateSize
| OResize (w h : Q)
| OClearWave
| ODrawBars (peaks : peaksArg) (channelIndex : Z) (start end_ : option Q)
| ODrawWave (peaks : peaksArg) (channelIndex : Z) (start end_ : option Q)
| ODrawLine (peaks : list Q) (absmax halfH offsetY : Q) (start : Q)
    (end_ : option Q) (channelIndex : Z)
| OFillRect (x y w h radius : Q) (channelIndex : Z)
| OTimeout (i : nat)
| OStretchBackimage (desiredWidth progress : Q)
| OUpdateProgress (position : Q)
| OSetBackupImage.

Definition step (fuel : nat) (m : t) (o : op) : result t :=
  match o with
  | OInit => init m
  | OAddCanvas => addCanvas m
  | ORemoveCanvas => removeCanvas m
  | OUpdateCursor => updateCursor m
  | OUpdateSize => updateSize fuel m
  | OResize w h => resize fuel w h m
  | OClearWave => clearWave m
  | ODrawBars peaks ch start end_ => renderBars fuel m peaks ch start end_
  | ODrawWave peaks ch start end_ => renderLine fuel m peaks ch start end_
  | ODrawLine peaks absmax halfH offsetY start end_ ch =>
      drawLine m peaks absmax halfH offsetY start end_ ch
  | OFillRect x y w h radius ch => fillRect m x y w h radius ch
  | OTimeout i => fire_timeout m i
  | OStretchBackimage desiredWidth progress =>
      stretchBackimage m desiredWidth progress
  | OUpdateProgress position => updateProgress m position
  | OSetBackupImage => setBackupImage m
  end.

(** A sequence of operations, stopping at the first that raises. *)
Definition run (fuel : nat) (ops : list op) (m : t) : result t :=
  foldM (step fuel) ops m.

End Rendering.

End MultiCanvas.

(** ** Sample values used by the examples *)

Module Sample.

(** [util.absMax] and [util.max] on a non-empty array. *)
Definition absMax (xs : list Q) : Q :=
  fold_left (fun acc v => JS.max acc (JS.abs v)) xs 0.

Definition arrayMax (xs : list Q) : Q :=
  match xs with
  | [] => 0
  | x :: rest => fold_left JS.max rest x
  end.

Definition recenter (w : wrapperEl) (position : Q) : wrapperEl :=
  {| wr_clientWidth := wr_clientWidth w; wr_left := wr_left w;
     wr_width := wr_width w;
     wr_scrollLeft := JS.max 0 (position - wr_clientWidth w / 2) |}.

Definition options : splitChannelsOptions :=
  {| overlay := false; relativeNormalization := false;
     filterChannels := []; channelColors := [] |}.

Definition prms : params :=
  {| pixelRatio := 1; p_maxCanvasWidth := 4000;
     waveColor := Flat "#999"; progressColor := Flat "#555";
     p_barRadius := 0; p_vertical := false;
     barWidth := 2; barGap := Some 0; barMinHeight := 0; barHeight := 1;
     p_height := 128; normalize := false;
     splitChannels := false; splitChannelsOpts := options;
     cursorWidth := 1; cursorColor := "#333" |}.

(** The same options with one colour for the wave and its progress. *)
Definition prms_plain : params :=
  {| pixelRatio := 1; p_maxCanvasWidth := 4000;
     waveColor := Flat "#999"; progressColor := Flat "#999";
     p_barRadius := 0; p_vertical := false;
     barWidth := 2; barGap := Some 0; barMinHeight := 0; barHeight := 1;
     p_height := 128; normalize := false;
     splitChannels := false; splitChannelsOpts := options;
     cursorWidth := 1; cursorColor := "#333" |}.

Definition wrap : wrapperEl :=
  {| wr_clientWidth := 800; wr_left := 0; wr_width := 800;
     wr_scrollLeft := 0 |}.

Definition drawer0 : MultiCanvas.t := MultiCanvas.new prms 0 128 wrap.

Definition drawer0_plain : MultiCanvas.t :=
  MultiCanvas.new prms_plain 0 128 wrap.

(** The last of two surfaces: it owns the second half of the waveform. *)
Definition last_entry : CanvasEntry.t :=
  CanvasEntry.set_flags
    (CanvasEntry.set_range
       (CanvasEntry.initWave CanvasEntry.new (new_canvas 0)) (1 # 2) 1)
    false (1 # 2).

(** The first of two surfaces: it owns the first half of the waveform. *)
Definition first_entry : CanvasEntry.t :=
  CanvasEntry.set_flags
    (CanvasEntry.set_range
       (CanvasEntry.initWave CanvasEntry.new (new_canvas 0)) 0 (1 # 2))
    false (1 # 2).

(** A surface with a wave canvas and a progress canvas, as [addCanvas]
    makes it when the two colours differ. *)
Definition both_entry : CanvasEntry.t :=
  CanvasEntry.initProgress
    (CanvasEntry.initWave
       (CanvasEntry.set_flags CanvasEntry.new true (1 # 2)) (new_canvas 0))
    (new_canvas 0).

(** Two pairs of peaks. *)
Definition two_pairs : list Q := [1; -1; 1 # 2; -(1 # 2)].

(** Split channels with channel 1 filtered out, and a filter that is set
    while channels are not split. *)
Definition prms_split : params :=
  {| pixelRatio := 1; p_maxCanvasWidth := 4000;
     waveColor := Flat "#999"; progressColor := Flat "#555";
     p_barRadius := 0; p_vertical := false;
     barWidth := 2; barGap := Some 0; barMinHeight := 0; barHeight := 1;
     p_height := 128; normalize := false;
     splitChannels := true;
     splitChannelsOpts :=
       {| overlay := false; relativeNormalization := false;
          filterChannels := [1%Z]; channelColors := [] |};
     cursorWidth := 1; cursorColor := "#333" |}.

Definition prms_unsplit_filter : params :=
  {| pixelRatio := 1; p_maxCanvasWidth := 4000;
     waveColor := Flat "#999"; progressColor := Flat "#555";
     p_barRadius := 0; p_vertical := false;
     barWidth := 2; barGap := Some 0; barMinHeight := 0; barHeight := 1;
     p_height := 128; normalize := false;
     splitChannels := false;
     splitChannelsOpts :=
       {| overlay := false; relativeNormalization := false;
          filterChannels := [0%Z]; channelColors := [] |};
     cursorWidth := 1; cursorColor := "#333" |}.

Definition drawer_split : MultiCanvas.t := MultiCanvas.new prms_split 100 128 wrap.

Definition drawer_unsplit_filter : MultiCanvas.t :=
  MultiCanvas.new prms_unsplit_filter 100 128 wrap.

(** The drawer after [init], and after a resize to no width at all. *)
Definition drawer_ready : MultiCanvas.t :=
  match MultiCanvas.init drawer0 with Ok m => m | _ => drawer0 end.

Definition drawer_empty : MultiCanvas.t :=
  match MultiCanvas.resize 1 0 128 drawer_ready with
  | Ok m => m
  | _ => drawer_ready
  end.

(** The drawer after a resize to a width that takes three surfaces. *)
Definition drawer_resized : MultiCanvas.t :=
  match MultiCanvas.resize 10 10000 128 drawer_ready with
  | Ok m => m
  | _ => drawer_ready
  end.

(** The resized drawer after a rectangle near its left edge. *)
Definition drawer_filled : MultiCanvas.t :=
  match MultiCanvas.fillRect drawer_resized 10 10 30 (-5) 0 0 with
  | Ok m => m
  | _ => drawer_resized
  end.

(** The drawer with its rectangle wiped again. *)
Definition drawer_cleared : MultiCanvas.t :=
  match MultiCanvas.clearWave drawer_filled with
  | Ok m => m
  | _ => drawer_filled
  end.

(** The resized drawer after [drawLine], and after the timers of its three
    surfaces have fired. *)
Definition drawer_lined : MultiCanvas.t :=
  match MultiCanvas.drawLine drawer_resized two_pairs 1 64 0 0 (Some 100) 0
  with
  | Ok m => m
  | _ => drawer_resized
  end.

Definition drawer_drawn : MultiCanvas.t :=
  match MultiCanvas.run absMax arrayMax recenter 0
          [MultiCanvas.OTimeout 0; MultiCanvas.OTimeout 1;
           MultiCanvas.OTimeout 2] drawer_lined with
  | Ok m => m
  | _ => drawer_lined
  end.

(** The drawn drawer with its backup images taken, and after a zoom to
    twice its width with the cursor at the middle. *)
Definition drawer_backed : MultiCanvas.t :=
  match MultiCanvas.setBackupImage drawer_drawn with
  | Ok m => m
  | _ => drawer_drawn
  end.

Definition drawer_zoomed : MultiCanvas.t :=
  match MultiCanvas.stretchBackimage recenter drawer_backed 20000 (1 # 2) with
  | Ok m => m
  | _ => drawer_backed
  end.

(** Three backup images, 4000, 4000 and 2000 pixels wide. *)
Definition backups : list image :=
  [ {| img_src := Encoded "image/png" 1 4000 128 [] |};
    {| img_src := Encoded "image/png" 1 4000 128 [] |};
    {| img_src := Encoded "image/png" 1 2000 128 [] |} ].

(** A surface with both canvases and a redraw pending. *)
Definition pending_entry : CanvasEntry.t :=
  CanvasEntry.set_drawTimeout both_entry
    (Some {| d_peaks := two_pairs; d_absmax := 1; d_halfH := 64;
             d_offsetY := 0; d_start := 0; d_end := Some 100;
             d_delay := 0 |}).

(** A session on the drawer whose two colours are the same: initialise,
    resize to three surfaces, draw bars, fill a rectangle, clear. *)
Definition session_plain : list MultiCanvas.op :=
  [MultiCanvas.OInit;
   MultiCanvas.OResize 10000 128;
   MultiCanvas.ODrawBars (MultiCanvas.Samples [1 # 2; 1; 1 # 4; 0; 1 # 3]) 0
     (Some 0) (Some 20);
   MultiCanvas.OFillRect 3990 10 30 (-5) 0 0;
   MultiCanvas.OClearWave].

Definition drawer_session_plain : MultiCanvas.t :=
  match MultiCanvas.run absMax arrayMax recenter 20 session_plain
          drawer0_plain with
  | Ok m => m
  | _ => drawer0_plain
  end.

Definition stereo : MultiCanvas.peaksArg :=
  MultiCanvas.Channels
    [ {| MultiCanvas.ch_ref := 0; MultiCanvas.ch_samples := [1 # 2; 1 # 4] |};
      {| MultiCanvas.ch_ref := 1; MultiCanvas.ch_samples := [1 # 3; 1] |} ].

End Sample.

(** ** Predicates of the properties *)

Module Pred.

(** An entry as [addCanvas] leaves it when the drawer has no progress
    wave: a wave canvas and no progress canvas. *)
Definition plain (e : CanvasEntry.t) : Prop :=
  CanvasEntry.hasProgressCanvas e = false
  /\ CanvasEntry.progress e = None
  /\ CanvasEntry.wave e <> None.

(** The data URL and the blob [getImage] takes from the wave canvas of an
    entry. *)
Definition wave_url (format : option string) (quality : option Q)
  (e : CanvasEntry.t) : dataURL :=
  match CanvasEntry.wave e with
  | Some c => toDataURL c (CanvasEntry.format_or_default format)
                (CanvasEntry.quality_or_default quality)
  | None => EmptyURL
  end.

Definition wave_blob (format : option string) (quality : option Q)
  (e : CanvasEntry.t) : CanvasEntry.blob :=
  match CanvasEntry.wave e with
  | Some c => CanvasEntry.Blob format quality (cv_width c) (cv_height c)
                (cv_calls c)
  | None => CanvasEntry.Blob format quality 0 0 []
  end.

Definition has_wave (e : CanvasEntry.t) : Prop := CanvasEntry.wave e <> None.

(** The channel a call of a render draws for. *)
Definition action_channel (a : MultiCanvas.action) : option Z :=
  match a with
  | MultiCanvas.ASetHeight _ => None
  | MultiCanvas.AFillRect _ _ _ _ _ ch => Some ch
  | MultiCanvas.ADrawLine _ _ _ _ _ _ ch => Some ch
  end.



(** A surface the drawer can lay out: it has the flag of the drawer, a wave
    canvas, and a progress canvas when the flag is set. *)
Definition entry_ok (flag : bool) (e : CanvasEntry.t) : Prop :=
  CanvasEntry.hasProgressCanvas e = flag
  /\ CanvasEntry.wave e <> None
  /\ (flag = true -> CanvasEntry.progress e <> None).

(** A drawer after [init]: the progress wave exists and every surface can
    be laid out. *)
Definition ready (m : MultiCanvas.t) : Prop :=
  MultiCanvas.progressWave m <> None
  /\ Forall (entry_ok (MultiCanvas.hasProgressCanvas m)) (MultiCanvas.canvases m).

(** The fields of the drawer that no operation on the surfaces changes. *)
Definition config (m : MultiCanvas.t)
  : params * Q * Q * Q * Q * bool * Q * Q :=
  (MultiCanvas.prm m, MultiCanvas.width m, MultiCanvas.height m,
   MultiCanvas.maxCanvasWidth m, MultiCanvas.maxCanvasElementWidth m,
   MultiCanvas.hasProgressCanvas m, MultiCanvas.halfPixel m,
   MultiCanvas.overlap m).

(** The layout of a surface: for each of its canvases the left offset, the
    bitmap size and the element width, and the fractions it owns. *)
Definition canvas_layout (c : canvas) : Q * Q * Q * option Q :=
  (cv_left c, cv_width c, cv_height c, cv_style_width c).

Definition entry_layout (e : CanvasEntry.t)
  : option (Q * Q * Q * option Q) * option (Q * Q * Q * option Q) * Q * Q :=
  (option_map canvas_layout (CanvasEntry.wave e),
   option_map canvas_layout (CanvasEntry.progress e),
   CanvasEntry.start e, CanvasEntry.end_ e).

Definition layout (m : MultiCanvas.t) :=
  map entry_layout (MultiCanvas.canvases m).

(** A surface keeps the flag of its drawer, and has a progress canvas
    exactly when the flag is set. *)
Definition flag_kept (flag : bool) (e : CanvasEntry.t) : Prop :=
  CanvasEntry.hasProgressCanvas e = flag
  /\ (CanvasEntry.progress e <> None <-> flag = true).

(** Two states of a surface with the same flag and the same presence of a
    progress canvas. *)
Definition same_progress (e e' : CanvasEntry.t) : Prop :=
  CanvasEntry.hasProgressCanvas e' = CanvasEntry.hasProgressCanvas e
  /\ (CanvasEntry.progress e' = None <-> CanvasEntry.progress e = None).

(** The flag of the drawer is the inequality of the two colours of its
    parameters [p], and every surface keeps it. *)
Definition progress_inv (p : params) (m : MultiCanvas.t) : Prop :=
  MultiCanvas.prm m = p
  /\ MultiCanvas.hasProgressCanvas m
     = color_neq (waveColor p) (progressColor p)
  /\ Forall (flag_kept (MultiCanvas.hasProgressCanvas m))
       (MultiCanvas.canvases m).

End Pred.

(** * Properties *)

(** ** Facts about numbers and loops *)

Module JSFacts.

Import JS.

Lemma ltb_lt x y : ltb x y = true <-> x < y.
Proof.
  unfold ltb. rewrite negb_true_iff, <- not_true_iff_false, Qle_bool_iff.
  split; intro H; [apply Qnot_le_lt | apply Qlt_not_le]; exact H.
Qed.

Lemma ltb_ge x y : ltb x y = false <-> y <= x.
Proof.
  unfold ltb. rewrite negb_false_iff. apply Qle_bool_iff.
Qed.

Lemma ceil_nonneg x : 0 <= x -> (0 <= ceil x)%Z.
Proof.
  intro H. unfold ceil.
  change 0%Z with (Qceiling 0). apply Qceiling_resp_le. exact H.
Qed.

End JSFacts.

(** ** Rectangles (CanvasEntry.fillRectToContext, drawRoundedRect) *)

Module RectFacts.

Import CanvasEntry.









End RectFacts.

(** ** The slice of peaks a surface draws (CanvasEntry.drawLineToContext) *)

Module SliceFacts.

Import CanvasEntry.

Lemma round_Z (z : Z) : JS.round (inject_Z z) = z.
Proof.
  unfold JS.round.
  pose proof (Qfloor_le (inject_Z z + (1 # 2))) as Hle.
  pose proof (Qlt_floor (inject_Z z + (1 # 2))) as Hlt.
  set (f := Qfloor (inject_Z z + (1 # 2))) in *.
  assert (H1 : inject_Z f < inject_Z (z + 1)).
  { rewrite inject_Z_plus. change (inject_Z 1) with 1. lra. }
  assert (H2 : inject_Z z < inject_Z (f + 1)) by lra.
  rewrite <- Zlt_Qlt in H1, H2. lia.
Qed.

Lemma round_comp (x y : Q) : x == y -> JS.round x = JS.round y.
Proof.
  intro H. unfold JS.round. apply Qfloor_comp. rewrite H. reflexivity.
Qed.

Lemma In_zrange (lo hi k : Z) : (lo <= k < hi)%Z -> In k (zrange lo hi).
Proof.
  intros [H1 H2]. unfold zrange. apply in_map_iff.
  exists (Z.to_nat (k - lo)). split; [lia |].
  apply in_seq. lia.
Qed.

Lemma zrange_In (lo hi k : Z) : In k (zrange lo hi) -> (lo <= k < hi)%Z.
Proof.
  unfold zrange. intro H. apply in_map_iff in H.
  destruct H as [j [E Hj]]. apply in_seq in Hj. lia.
Qed.

(** The path of a surface visits the pairs of index [first] to [last - 1]
    forwards for its top edge, then the same pairs backwards for its bottom
    edge. *)
Lemma line_path_shape (e : t) (waveWidth : Q) (peaks : list Q)
  (absmax halfH offsetY : Q) :
  exists top bottom opening closing,
    line_path e waveWidth peaks absmax halfH offsetY
    = opening ++ top ++ bottom ++ closing
    /\ length opening = 3%nat /\ length closing = 3%nat
    /\ length top = length (zrange (slice_first e peaks) (slice_last e peaks))
    /\ length bottom = length top.
Proof.
  unfold line_path.
  eexists _, _, [_; _; _], [_; _; _].
  split; [reflexivity |].
  repeat split.
  - rewrite length_map. reflexivity.
  - rewrite !length_map, length_rev. reflexivity.
Qed.

(** C2 on the last surface.  A surface whose owned range ends at 1 still
    takes the [+ 1]: for [n] pairs of peaks its slice ends at [n + 1], so
    the path visits the pair of index [n], of which the array holds
    nothing. *)
Theorem terminal_slice_reads_past_end (e : t) (peaks : list Q) (n : nat) :
  end_ e == 1 ->
  length peaks = (2 * n)%nat ->
  slice_last e peaks = (Z.of_nat n + 1)%Z
  /\ JS.index peaks (2 * Z.of_nat n) = None
  /\ JS.index peaks (2 * Z.of_nat n + 1) = None
  /\ ((slice_first e peaks <= Z.of_nat n)%Z ->
      In (Z.of_nat n) (zrange (slice_first e peaks) (slice_last e peaks))).
Proof.
  intros Hend Hlen.
  assert (Hlast : slice_last e peaks = (Z.of_nat n + 1)%Z).
  { unfold slice_last. f_equal.
    rewrite <- (round_Z (Z.of_nat n)). apply round_comp.
    rewrite Hlen, Hend. rewrite Nat2Z.inj_mul. rewrite inject_Z_mult.
    simpl (Z.of_nat 2). field. }
  split; [exact Hlast |].
  assert (Hnone : forall k, (2 * Z.of_nat n <= k)%Z -> JS.index peaks k = None).
  { intros k Hk. unfold JS.index.
    destruct (k <? 0)%Z eqn:E; [reflexivity |].
    apply nth_error_None. lia. }
  split; [apply Hnone; lia |].
  split; [apply Hnone; lia |].
  intro Hfirst. apply In_zrange. lia.
Qed.

Lemma terminal_slice_reads_past_end_witness :
  slice_last Sample.last_entry Sample.two_pairs = 3%Z
  /\ JS.index Sample.two_pairs 4 = None
  /\ JS.index Sample.two_pairs 5 = None
  /\ In 2%Z (zrange (slice_first Sample.last_entry Sample.two_pairs)
               (slice_last Sample.last_entry Sample.two_pairs)).
Proof.
  pose proof (@terminal_slice_reads_past_end Sample.last_entry
                Sample.two_pairs 2 ltac:(reflexivity) eq_refl)
    as [A [B [C D]]].
  split; [exact A |]. split; [exact B |]. split; [exact C |].
  apply D. vm_compute. discriminate.
Defined.

(** The calls the last of two surfaces makes for two pairs of peaks: after
    pair 1, its first, it draws a pair 2 that the array does not have, and
    so ends on the midline. *)
Example last_entry_path :
  line_path Sample.last_entry 100 Sample.two_pairs 1 64 0
  = [BeginPath; MoveTo 0 64; LineTo 0 32;
     LineTo (1 # 2) 32; LineTo (201 # 2) 64;
     LineTo (201 # 2) 64; LineTo (1 # 2) 96;
     LineTo 0 96; ClosePath; Fill].
Proof. vm_compute. reflexivity. Qed.

End SliceFacts.

(** ** Surfaces without a progress canvas *)

Module ProgressFacts.

Import CanvasEntry.

Ltac plain_entry e H :=
  destruct e as [w p s f hp half dt dr];
  destruct H as [Hhp [Hp Hw]]; simpl in Hhp, Hp, Hw; subst hp p;
  destruct w as [w|]; [| contradiction Hw; reflexivity].

(** The operations that test [hasProgressCanvas] leave the missing progress
    canvas alone and do not raise. *)
Lemma guarded_operations_skip_progress (e : t) :
  Pred.plain e ->
  (exists e', clearWave e = Ok e' /\ progress e' = None)
  /\ (forall wc pc, exists e', setFillStyles e wc pc = Ok e' /\ progress e' = None)
  /\ (forall v, exists e', applyCanvasTransforms e v = Ok e' /\ progress e' = None)
  /\ (forall x y w h r, progress (fillRects e x y w h r) = None)
  /\ (forall pk a hh oy s f,
        exists e', drawLines e pk a hh oy s f = Ok e' /\ progress e' = None)
  /\ (forall pos, exists e', setLeft e pos = Ok e' /\ progress e' = None)
  /\ (forall ew tw w h,
        exists e', updateDimensions e ew tw w h = Ok e' /\ progress e' = None).
Proof.
  intro H. plain_entry e H.
  split; [eexists; split; reflexivity |].
  split; [intros; eexists; split; reflexivity |].
  split; [intros []; eexists; split; reflexivity |].
  split; [intros; reflexivity |].
  split; [intros; eexists; split; reflexivity |].
  split; intros; eexists; split; reflexivity.
Qed.

(** C4 for the stretch-restore.  On an entry without a progress canvas
    [stretchBackimage] always raises: both its paths reach for the progress
    canvas without testing [hasProgressCanvas]. *)
Theorem stretchBackimage_without_progress_raises (e : t)
  (start totalWidth pixelRatio : Q) (viewBounds : Q * Q) (backupImg : backup) :
  progress e = None ->
  stretchBackimage e start totalWidth pixelRatio viewBounds backupImg
  = TypeError.
Proof.
  intro Hp. destruct e as [w p s f hp half dt dr]. simpl in Hp. subst p.
  unfold stretchBackimage. simpl.
  destruct (JS.gtb start (snd viewBounds) || JS.ltb (f * totalWidth) (fst viewBounds)).
  - destruct w; reflexivity.
  - destruct w as [w|]; [| reflexivity]. simpl.
    destruct hp; simpl; [reflexivity |].
    destruct (cv_backimage w) as [image|]; simpl; [| reflexivity].
    destruct (src_is_empty image); [destruct backupImg |]; reflexivity.
Qed.

Lemma stretchBackimage_without_progress_raises_witness :
  stretchBackimage Sample.last_entry 60 100 1 (0, 50) BackupNull = TypeError.
Proof.
  apply stretchBackimage_without_progress_raises. reflexivity.
Defined.

(** The snapshot of the progress canvas raises as well, and with it the
    redraw callback of [drawLine]. *)
Lemma getProgressImage_without_progress_raises (e : t) format quality :
  progress e = None ->
  getProgressImage e format quality "dataURL" = TypeError.
Proof.
  intro Hp. unfold getProgressImage. rewrite Hp. reflexivity.
Qed.

Lemma redraw_without_progress_raises (e : t) (d : deferred) :
  Pred.plain e -> drawTimeout e = Some d ->
  MultiCanvas.timeout_callback e = TypeError.
Proof.
  intros H Hd. plain_entry e H. simpl in Hd. subst dt. reflexivity.
Qed.

End ProgressFacts.

(** ** Snapshots (MultiCanvas.getImage) *)

Module ImageFacts.

Import MultiCanvas.

Lemma mapM_getImage_dataURL (es : list CanvasEntry.t) format quality :
  Forall Pred.has_wave es ->
  mapM (fun e => CanvasEntry.getImage e format quality "dataURL") es
  = Ok (map (fun e => CanvasEntry.SnapURL (Pred.wave_url format quality e)) es).
Proof.
  induction 1 as [|e rest He _ IH]; simpl; [reflexivity |].
  unfold CanvasEntry.getImage at 1, CanvasEntry.canvas_image, Pred.wave_url.
  unfold Pred.has_wave in He.
  destruct (CanvasEntry.wave e) as [c|]; [| contradiction He; reflexivity].
  simpl. rewrite IH. reflexivity.
Qed.

Lemma mapM_getImage_blob (es : list CanvasEntry.t) format quality :
  Forall Pred.has_wave es ->
  exists ss,
    mapM (fun e => CanvasEntry.getImage e format quality "blob") es = Ok ss
    /\ promise_all ss
       = CanvasEntry.Resolved (map (Pred.wave_blob format quality) es).
Proof.
  induction 1 as [|e rest He _ [ss [IH1 IH2]]]; simpl.
  - exists []. split; reflexivity.
  - unfold CanvasEntry.getImage at 1, CanvasEntry.canvas_image, Pred.wave_blob.
    unfold Pred.has_wave in He.
    destruct (CanvasEntry.wave e) as [c|]; [| contradiction He; reflexivity].
    simpl. rewrite IH1. simpl. eexists. split; [reflexivity |].
    simpl. rewrite IH2. reflexivity.
Qed.

(** C8, as the code has it.  A type other than 'blob' and 'dataURL' gives no
    result and does not raise.  For 'dataURL' the drawer returns the one data
    URL when it has exactly one surface, the data URLs of its surfaces from
    left to right when it has two or more, and no result when it has none.
    For 'blob' it returns a promise of one blob per surface. *)
Theorem getImage_results (m : t) (format : option string)
  (quality : option Q) (type : string) :
  (type <> "blob"%string -> type <> "dataURL"%string ->
   getImage m format quality type = Ok ImgUndefined)
  /\ (Forall Pred.has_wave (canvases m) ->
      (getImage m format quality "dataURL"
       = Ok (match map (Pred.wave_url format quality) (canvases m) with
             | [] => ImgUndefined
             | [u] => ImgOne u
             | us => ImgMany us
             end))
      /\ getImage m format quality "blob"
         = Ok (ImgBlobs (CanvasEntry.Resolved
                 (map (Pred.wave_blob format quality) (canvases m))))).
Proof.
  split.
  - intros Hb Hd. unfold getImage.
    apply String.eqb_neq in Hb, Hd. rewrite Hb, Hd. reflexivity.
  - intro Hw. split.
    + unfold getImage. simpl (String.eqb _ _).
      rewrite (mapM_getImage_dataURL format quality Hw). simpl.
      rewrite map_map. simpl.
      destruct (canvases m) as [|e1 [|e2 rest]]; reflexivity.
    + unfold getImage. simpl (String.eqb _ _).
      destruct (mapM_getImage_blob format quality Hw) as [ss [E1 E2]].
      rewrite E1. simpl. rewrite E2. reflexivity.
Qed.

Lemma getImage_results_witness :
  getImage Sample.drawer_ready None None "svg" = Ok ImgUndefined
  /\ getImage Sample.drawer_ready None None "dataURL"
     = Ok (match map (Pred.wave_url None None) (canvases Sample.drawer_ready)
           with
           | [] => ImgUndefined
           | [u] => ImgOne u
           | us => ImgMany us
           end)
  /\ getImage Sample.drawer_ready None None "blob"
     = Ok (ImgBlobs (CanvasEntry.Resolved
             (map (Pred.wave_blob None None) (canvases Sample.drawer_ready)))).
Proof.
  pose proof (getImage_results Sample.drawer_ready None None "svg") as [A _].
  pose proof (getImage_results Sample.drawer_ready None None "dataURL")
    as [_ B].
  assert (Hw : Forall Pred.has_wave (canvases Sample.drawer_ready)).
  { vm_compute. repeat constructor. discriminate. }
  split; [apply A; discriminate |]. exact (B Hw).
Defined.

(** A drawer resized to no width has no surface left; asked for a data URL
    it returns nothing, and not an empty list. *)
Lemma getImage_without_surfaces :
  resize 1 0 128 Sample.drawer_ready = Ok Sample.drawer_empty
  /\ length (canvases Sample.drawer_empty) = 0%nat
  /\ getImage Sample.drawer_empty None None "dataURL" = Ok ImgUndefined
  /\ getImage Sample.drawer_empty None None "dataURL" <> Ok (ImgMany []).
Proof.
  split; [vm_compute; reflexivity |].
  split; [vm_compute; reflexivity |].
  split; [vm_compute; reflexivity |].
  vm_compute. discriminate.
Qed.

End ImageFacts.

(** ** What a render draws (prepareDraw, drawBars, drawWave) *)

Module RenderFacts.

Import MultiCanvas.

Section Render.

Variable absMax : list Q -> Q.
Variable arrayMax : list Q -> Q.

Lemma each_channel_Forall (P : action -> Prop)
  (f : channel -> Z -> result (list action)) :
  (forall c i a, f c i = Ok a -> Forall P a) ->
  forall chs i acts, each_channel f i chs = Ok acts -> Forall P acts.
Proof.
  intros Hf chs. induction chs as [|c rest IH]; simpl; intros i acts H.
  - inversion H. constructor.
  - destruct (f c i) as [a| |] eqn:Ea; simpl in H; try discriminate.
    destruct (each_channel f (i + 1) rest) as [b| |] eqn:Eb; simpl in H;
      try discriminate.
    inversion H; subst. apply Forall_app. split; [eapply Hf | eapply IH]; eassumption.
Qed.


(** What the render function draws for visible channels is all a render
    draws, apart from setting the height. *)
Lemma prepareFlat_Forall (P : action -> Prop) (m : t)
  (fn : geometry -> result (list action)) :
  (forall g acts, hideChannel m (g_channelIndex g) = false ->
                  fn g = Ok acts -> Forall P acts) ->
  forall l ch di nm acts,
    prepareFlat absMax m l ch fn di nm = Ok acts -> Forall P acts.
Proof.
  intros Hfn l ch di nm acts H. unfold prepareFlat in H.
  destruct (hideChannel m ch) eqn:Eh.
  - inversion H. constructor.
  - eapply Hfn; [| exact H]. exact Eh.
Qed.

Lemma prepareDraw_Forall (P : action -> Prop) (m : t)
  (fn : geometry -> result (list action)) :
  (forall g acts, hideChannel m (g_channelIndex g) = false ->
                  fn g = Ok acts -> Forall P acts) ->
  (forall h, P (ASetHeight h)) ->
  forall peaks ch di nm acts,
    prepareDraw absMax arrayMax m peaks ch fn di nm = Ok acts ->
    Forall P acts.
Proof.
  intros Hfn Hset peaks ch di nm acts H. unfold prepareDraw in H.
  destruct peaks as [l | [|c0 rest]];
    try (eapply prepareFlat_Forall; eassumption).
  destruct (splitChannels (prm m));
    [| eapply prepareFlat_Forall; eassumption].
  match type of H with
  | bind (each_channel ?f ?i ?chs) _ = _ =>
      destruct (each_channel f i chs) as [a| |] eqn:Ea; simpl in H;
        try discriminate
  end.
  inversion H; subst. apply Forall_app. split.
  - destruct (negb (overlay (splitChannelsOpts (prm m))));
      repeat constructor. apply Hset.
  - eapply each_channel_Forall; [| exact Ea].
    intros c i b Hb. cbv beta in Hb. eapply prepareFlat_Forall; eassumption.
Qed.


(** The bars of a channel carry the index of that channel. *)
Lemma bars_loop_channel (m : t) (g : geometry) (last : Q) (inner : nat) :
  forall fuel peakIndex acts,
    bars_loop fuel inner m g last peakIndex = Ok acts ->
    Forall (fun a => Pred.action_channel a = Some (g_channelIndex g)) acts.
Proof.
  induction fuel as [|fuel IH]; intros peakIndex acts H; simpl in H.
  - destruct (JS.ltb peakIndex last); [discriminate |].
    inversion H. constructor.
  - destruct (JS.ltb peakIndex last); [| inversion H; constructor].
    match type of H with
    | bind ?scan _ = _ => destruct scan as [[peak visited]| |]; simpl in H;
                            try discriminate
    end.
    match type of H with
    | bind ?r _ = _ => destruct r as [rest| |] eqn:Er; simpl in H;
                         try discriminate
    end.
    inversion H; subst. constructor; [reflexivity |].
    eapply IH. exact Er.
Qed.

Lemma drawBars_fn_channel (fuel : nat) (m : t) (start end_ : option Q)
  (g : geometry) (acts : list action) :
  drawBars_fn fuel m start end_ g = Ok acts ->
  Forall (fun a => Pred.action_channel a = Some (g_channelIndex g)) acts.
Proof.
  unfold drawBars_fn. intro H.
  destruct start as [first|]; [| inversion H; constructor].
  destruct end_ as [last|]; [| inversion H; constructor].
  eapply bars_loop_channel. exact H.
Qed.

Lemma drawWave_fn_channel (m : t) (start end_ : option Q) (g : geometry)
  (acts : list action) :
  drawWave_fn m start end_ g = Ok acts ->
  Forall (fun a => Pred.action_channel a = Some (g_channelIndex g)) acts.
Proof.
  unfold drawWave_fn. intro H. inversion H; subst.
  destruct start; repeat constructor.
Qed.

(** No call of a render is made for a channel that [hideChannel] hides. *)
Lemma render_channels_visible (fuel : nat) (m : t) (peaks : peaksArg)
  (ch : Z) (start end_ : option Q) (acts : list action) :
  drawBars absMax arrayMax fuel m peaks ch start end_ = Ok acts
  \/ drawWave absMax arrayMax m peaks ch start end_ = Ok acts ->
  Forall (fun a => forall i, Pred.action_channel a = Some i ->
                             hideChannel m i = false) acts.
Proof.
  intros [H | H].
  - unfold drawBars in H. eapply prepareDraw_Forall; [| | exact H].
    + intros g a Hvis Hfn.
      eapply Forall_impl; [| eapply drawBars_fn_channel; exact Hfn].
      simpl. intros x Hx i Hi. congruence.
    + intros h i Hi. discriminate.
  - unfold drawWave in H. eapply prepareDraw_Forall; [| | exact H].
    + intros g a Hvis Hfn.
      eapply Forall_impl; [| eapply drawWave_fn_channel; exact Hfn].
      simpl. intros x Hx i Hi. congruence.
    + intros h i Hi. discriminate.
Qed.

(** C7, as the code has it.  When channels are split, a render of bars or
    of a line makes no call, neither a rectangle nor a line, for a channel
    whose index is in [filterChannels]. *)
Theorem filtered_channel_not_rasterized (fuel : nat) (m : t)
  (peaks : peaksArg) (ch : Z) (start end_ : option Q) (acts : list action)
  (i : Z) :
  splitChannels (prm m) = true ->
  In i (filterChannels (splitChannelsOpts (prm m))) ->
  drawBars absMax arrayMax fuel m peaks ch start end_ = Ok acts
  \/ drawWave absMax arrayMax m peaks ch start end_ = Ok acts ->
  forall a, In a acts -> Pred.action_channel a <> Some i.
Proof.
  intros Hsplit Hin H a Ha Hch.
  pose proof (render_channels_visible fuel m peaks ch start end_ H) as Hvis.
  rewrite Forall_forall in Hvis. specialize (Hvis a Ha i Hch).
  unfold hideChannel in Hvis. rewrite Hsplit in Hvis. simpl in Hvis.
  assert (E : existsb (Z.eqb i) (filterChannels (splitChannelsOpts (prm m)))
              = true).
  { apply existsb_exists. exists i. split; [exact Hin | apply Z.eqb_refl]. }
  congruence.
Qed.


End Render.

(** Two channels drawn with channel 1 filtered out: every call is for
    channel 0. *)
Lemma filtered_channel_not_rasterized_witness :
  Forall (fun a => Pred.action_channel a <> Some 1%Z)
    [ASetHeight (inject_Z 1 * 128 * 1);
     ADrawLine [1 # 2; -(1 # 2); 1 # 4; -(1 # 4)] (1 / 1) (128 * 1 / 2)
       (128 * 1 * inject_Z 0) 0 (Some 10) 0;
     AFillRect 0 (128 * 1 / 2 + 128 * 1 * inject_Z 0 - (1 # 2) / 1) 100
       ((1 # 2) / 1) 0 0].
Proof.
  apply Forall_forall.
  apply (@filtered_channel_not_rasterized Sample.absMax Sample.arrayMax 0
           Sample.drawer_split Sample.stereo 0 (Some 0) (Some 10)).
  - reflexivity.
  - simpl. left. reflexivity.
  - right. reflexivity.
Defined.

(** With channels not split the filter is not consulted: channel 0, though
    listed in [filterChannels], is drawn. *)
Lemma filter_ignored_when_not_split :
  In 0%Z (filterChannels (splitChannelsOpts (prm Sample.drawer_unsplit_filter)))
  /\ drawWave Sample.absMax Sample.arrayMax Sample.drawer_unsplit_filter
       Sample.stereo 0 (Some 0) (Some 10)
     = Ok [ADrawLine [1 # 2; -(1 # 2); 1 # 4; -(1 # 4)] (1 / 1) (128 * 1 / 2)
             0 0 (Some 10) 0;
           AFillRect 0 (128 * 1 / 2 + 0 - (1 # 2) / 1) 100 ((1 # 2) / 1) 0 0]
  /\ exists acts a,
       drawBars Sample.absMax Sample.arrayMax 10 Sample.drawer_unsplit_filter
         Sample.stereo 0 (Some 0) (Some 10) = Ok acts
       /\ In a acts /\ Pred.action_channel a = Some 0%Z.
Proof.
  split; [left; reflexivity |].
  split; [reflexivity |].
  eexists. eexists. split; [vm_compute; reflexivity |].
  split; [left; reflexivity | reflexivity].
Qed.


End RenderFacts.

(** ** The loops of drawBars *)

Module BarFacts.

Import MultiCanvas.

Lemma ceil_pos (x : Q) : 0 < x -> (1 <= Qceiling x)%Z.
Proof.
  intro H. pose proof (Qle_ceiling x) as Hc.
  assert (Hz : inject_Z 0 < inject_Z (Qceiling x))
    by (change (inject_Z 0) with 0; lra).
  rewrite <- Zlt_Qlt in Hz. lia.
Qed.






Section Bars.

Variable absMax : list Q -> Q.
Variable arrayMax : list Q -> Q.

Lemma bars_loop_S (fuel inner : nat) (m : t) (g : geometry)
  (last peakIndex : Q) :
  bars_loop (S fuel) inner m g last peakIndex
  = if JS.ltb peakIndex last then
      let pis := if g_hasMinVals g then 2%Z else 1%Z in
      let scale := inject_Z (Z.of_nat (length (g_peaks g))) / inject_Z pis
                   / width m in
      '(peak, _) <- scan_peaks inner (g_peaks g) pis
                      (JS.floor ((peakIndex + bar_step m) * scale) * pis)%Z
                      0 (JS.floor (peakIndex * scale) * pis)%Z ;;
      let h := inject_Z (JS.round (peak / g_absmax g * g_halfH g)) in
      let h := if JS.truthy (barMinHeight (prm m))
               then JS.max h (barMinHeight (prm m)) else h in
      rest <- bars_loop fuel inner m g last (peakIndex + bar_step m) ;;
      Ok (AFillRect (peakIndex + halfPixel m) (g_halfH g - h + g_offsetY g)
            (bar_size m + halfPixel m) (h * 2) (barRadius m)
            (g_channelIndex g)
          :: rest)
    else Ok [].
Proof. reflexivity. Qed.







End Bars.


End BarFacts.

(** ** The surfaces after a resize (updateSize) *)

Module SizeFacts.

Import MultiCanvas.

Lemma while_false (S : Type) (fuel : nat) (cond : S -> bool)
  (body : S -> result S) (s : S) :
  cond s = false -> while fuel cond body s = Ok s.
Proof. intro H. destruct fuel; simpl; rewrite H; reflexivity. Qed.

Lemma while_exit (S : Type) (cond : S -> bool) (body : S -> result S) :
  forall fuel s s', while fuel cond body s = Ok s' -> cond s' = false.
Proof.
  induction fuel as [|fuel IH]; intros s s' H; simpl in H.
  - destruct (cond s) eqn:E; [discriminate | inversion H; subst; exact E].
  - destruct (cond s) eqn:E; [| inversion H; subst; exact E].
    destruct (body s) as [s1| |]; simpl in H; try discriminate.
    eapply IH. exact H.
Qed.

Lemma while_invariant (S : Type) (P : S -> Prop) (cond : S -> bool)
  (body : S -> result S) :
  (forall s s', P s -> cond s = true -> body s = Ok s' -> P s') ->
  forall fuel s s', P s -> while fuel cond body s = Ok s' -> P s'.
Proof.
  intro Hbody. induction fuel as [|fuel IH]; intros s s' Hs H; simpl in H.
  - destruct (cond s); [discriminate | inversion H; subst; exact Hs].
  - destruct (cond s) eqn:Ec; [| inversion H; subst; exact Hs].
    destruct (body s) as [s1| |] eqn:E; simpl in H; try discriminate.
    eapply IH; [| exact H]. eapply Hbody; eassumption.
Qed.

Lemma removelast_length (A : Type) (l : list A) :
  length (removelast l) = pred (length l).
Proof.
  induction l as [|a [|b rest] IH]; simpl in *; try reflexivity.
  rewrite IH. reflexivity.
Qed.

Lemma removeCanvas_length (m m' : t) :
  removeCanvas m = Ok m' -> length (canvases m') = pred (length (canvases m)).
Proof.
  unfold removeCanvas. intro H.
  destruct (last (map Some (canvases m)) None) as [e|]; simpl in H;
    [| discriminate].
  destruct (CanvasEntry.wave e); simpl in H; [| discriminate].
  destruct (hasProgressCanvas m); simpl in H.
  - destruct (CanvasEntry.progress e); simpl in H; [| discriminate].
    inversion H. simpl. apply removelast_length.
  - inversion H. simpl. apply removelast_length.
Qed.

Lemma addCanvas_config (m m' : t) :
  addCanvas m = Ok m' -> Pred.config m' = Pred.config m.
Proof.
  unfold addCanvas. intro H.
  destruct (hasProgressCanvas m); simpl in H.
  - destruct (progressWave m); simpl in H; [| discriminate].
    inversion H. reflexivity.
  - inversion H. reflexivity.
Qed.

Lemma removeCanvas_config (m m' : t) :
  removeCanvas m = Ok m' -> Pred.config m' = Pred.config m.
Proof.
  unfold removeCanvas. intro H.
  destruct (last (map Some (canvases m)) None) as [e|]; simpl in H;
    [| discriminate].
  destruct (CanvasEntry.wave e); simpl in H; [| discriminate].
  destruct (hasProgressCanvas m); simpl in H.
  - destruct (CanvasEntry.progress e); simpl in H; [| discriminate].
    inversion H. reflexivity.
  - inversion H. reflexivity.
Qed.












(** *** A second resize *)

Lemma config_fields (a b : t) :
  Pred.config a = Pred.config b ->
  prm a = prm b /\ width a = width b /\ height a = height b
  /\ maxCanvasWidth a = maxCanvasWidth b
  /\ maxCanvasElementWidth a = maxCanvasElementWidth b
  /\ hasProgressCanvas a = hasProgressCanvas b
  /\ overlap a = overlap b
  /\ halfPixel a = halfPixel b.
Proof.
  unfold Pred.config. intro H. inversion H. repeat split; reflexivity || assumption.
Qed.

Lemma requiredCanvases_config (a b : t) :
  Pred.config a = Pred.config b -> requiredCanvases a = requiredCanvases b.
Proof.
  intro H. apply config_fields in H.
  destruct H as [Hp [Hw [_ [_ [He [_ [Ho _]]]]]]].
  unfold requiredCanvases. rewrite Hp, Hw, He, Ho. reflexivity.
Qed.

(** Unfolding of the entry operations, the arithmetic left as it is. *)
Ltac entry_steps :=
  cbv beta iota zeta delta
      [bind deref fst snd
       CanvasEntry.wave CanvasEntry.progress CanvasEntry.start
       CanvasEntry.end_ CanvasEntry.hasProgressCanvas CanvasEntry.halfPixel
       CanvasEntry.drawTimeout CanvasEntry.drawn
       CanvasEntry.set_wave CanvasEntry.set_progress CanvasEntry.set_range
       CanvasEntry.set_drawn CanvasEntry.set_flags CanvasEntry.set_drawTimeout
       option_map Pred.entry_layout Pred.canvas_layout
       set_style_left set_style_width set_size set_backimage_src call
       cv_left cv_width cv_height cv_style_width cv_backimage cv_calls
       offsetLeft CanvasEntry.clear_ops] in *.

(** Laying out again a surface that has just been laid out, at the same
    place, succeeds and gives the same layout. *)
Lemma layout_entry_again (m m2 : t) (lastCanvas i : Z) (cw lo : Q)
  (e : CanvasEntry.t) (m' : t) (e' : CanvasEntry.t) (cw' lo' : Q) :
  layout_entry m lastCanvas i cw lo e = Ok (m', e', cw', lo') ->
  Pred.config m2 = Pred.config m ->
  progressWave m2 <> None ->
  Pred.config m' = Pred.config m
  /\ progressWave m' <> None
  /\ exists m2' e'',
      layout_entry m2 lastCanvas i cw lo e' = Ok (m2', e'', cw', lo')
      /\ Pred.entry_layout e'' = Pred.entry_layout e'
      /\ Pred.config m2' = Pred.config m2
      /\ progressWave m2' <> None.
Proof.
  intros H Hcfg Hpw2.
  apply config_fields in Hcfg.
  destruct Hcfg as [Hp [Hw [Hh [Hmw _]]]].
  destruct (progressWave m2) as [pw2|] eqn:Epw2; [| contradiction Hpw2; reflexivity].
  unfold layout_entry, updateDimensions, CanvasEntry.setLeft,
    CanvasEntry.updateDimensions, CanvasEntry.clearWave,
    CanvasEntry.setBackimage in *.
  rewrite Hp, Hw, Hh, Hmw, Epw2.
  destruct e as [w p s f hp half dt dr].
  destruct w as [w|]; entry_steps; [| discriminate].
  destruct hp; entry_steps.
  - destruct p as [p|]; entry_steps; [| discriminate].
    destruct (progressWave m) as [pw|] eqn:Epw; entry_steps; [| discriminate].
    inversion H; subst; clear H. entry_steps.
    split; [reflexivity |]. split; [simpl; discriminate |].
    eexists _, _. split; [reflexivity |]. entry_steps.
    split; [reflexivity |]. split; [reflexivity | simpl; discriminate].
  - destruct (progressWave m) as [pw|] eqn:Epw; entry_steps; [| discriminate].
    inversion H; subst; clear H. entry_steps.
    split; [reflexivity |]. split; [simpl; discriminate |].
    eexists _, _. split; [reflexivity |]. entry_steps.
    split; [reflexivity |]. split; [reflexivity | simpl; discriminate].
Qed.

Lemma layout_entries_again (lastCanvas : Z) :
  forall es m m2 i cw lo m' es',
    layout_entries m lastCanvas i cw lo es = Ok (m', es') ->
    Pred.config m2 = Pred.config m ->
    (es <> [] -> progressWave m2 <> None) ->
    Pred.config m' = Pred.config m
    /\ length es' = length es
    /\ (es <> [] -> progressWave m' <> None)
    /\ exists m2' es'',
        layout_entries m2 lastCanvas i cw lo es' = Ok (m2', es'')
        /\ map Pred.entry_layout es'' = map Pred.entry_layout es'.
Proof.
  induction es as [|e rest IH]; intros m m2 i cw lo m' es' H Hcfg Hpw2;
    simpl in H.
  - inversion H; subst. repeat split; try reflexivity.
    + intro A. contradiction A. reflexivity.
    + exists m2, []. split; reflexivity.
  - destruct (layout_entry m lastCanvas i cw lo e)
      as [[[[m1 e1] cw1] lo1]| |] eqn:E1; simpl in H; try discriminate.
    destruct (layout_entries m1 lastCanvas (i + 1) cw1 lo1 rest)
      as [[m3 rest']| |] eqn:E3; simpl in H; try discriminate.
    inversion H; subst. clear H.
    assert (Hne : e :: rest <> []) by discriminate.
    destruct (layout_entry_again _ _ _ _ _ E1 Hcfg (Hpw2 Hne))
      as [Hc1 [Hpw1 [m2a [e2 [E2 [Hlay [Hc2a Hpw2a]]]]]]].
    assert (Hcfg' : Pred.config m2a = Pred.config m1) by congruence.
    destruct (IH m1 m2a (i + 1)%Z cw1 lo1 m' rest' E3 Hcfg' (fun _ => Hpw2a))
      as [Hc3 [Hlen [Hpw3 [m2' [es'' [E4 Hmap]]]]]].
    split; [congruence |]. split; [simpl; congruence |].
    split.
    + intros _. destruct rest as [|r rest0].
      * simpl in E3. inversion E3; subst. exact Hpw1.
      * apply Hpw3. discriminate.
    + exists m2', (e2 :: es''). simpl. rewrite E2. simpl. rewrite E4. simpl.
      split; [reflexivity |]. rewrite Hlay, Hmap. reflexivity.
Qed.

(** C6.  A resize that succeeds can be repeated with the same width and
    height: the second resize succeeds too and leaves the same number of
    surfaces with the same left offsets, the same widths and the same owned
    fractions. *)
Theorem resize_idempotent (fuel : nat) (m : t) (w h : Q) (m1 : t) :
  resize fuel w h m = Ok m1 ->
  exists m2,
    resize fuel w h m1 = Ok m2
    /\ length (canvases m2) = length (canvases m1)
    /\ Pred.layout m2 = Pred.layout m1.
Proof.
  unfold resize. set (m0 := set_dims m w h). unfold updateSize.
  set (req := requiredCanvases m0).
  intro H.
  destruct (while fuel (fun m => (Z.of_nat (length (canvases m)) <? req)%Z)
              addCanvas m0) as [ma| |] eqn:Ea; simpl in H; try discriminate.
  destruct (while fuel (fun m => (Z.of_nat (length (canvases m)) >? req)%Z)
              removeCanvas ma) as [mb| |] eqn:Eb; simpl in H; try discriminate.
  destruct (layout_entries mb (Z.of_nat (length (canvases mb)) - 1) 0
              (maxCanvasWidth mb + overlap mb) 0 (canvases mb))
    as [[m' es]| |] eqn:El; simpl in H; try discriminate.
  inversion H; subst m1. clear H.
  (* the configuration is that of the resized drawer all along *)
  assert (Hca : Pred.config ma = Pred.config m0).
  { eapply (while_invariant (fun s => Pred.config s = Pred.config m0));
      [| reflexivity | exact Ea].
    intros s s' Hs _ Hb. rewrite <- Hs. apply addCanvas_config. exact Hb. }
  assert (Hcb : Pred.config mb = Pred.config m0).
  { eapply (while_invariant (fun s => Pred.config s = Pred.config m0));
      [| exact Hca | exact Eb].
    intros s s' Hs _ Hb. rewrite <- Hs. apply removeCanvas_config. exact Hb. }
  (* the count is the required one *)
  pose proof (while_exit _ _ _ _ Ea) as Xa. simpl in Xa. apply Z.ltb_ge in Xa.
  assert (Hge : (req <= Z.of_nat (length (canvases mb)))%Z).
  { eapply (while_invariant
              (fun s => (req <= Z.of_nat (length (canvases s)))%Z));
      [| exact Xa | exact Eb].
    intros s s' Hs Hc Hb. simpl in Hc.
    rewrite Z.gtb_ltb in Hc. apply Z.ltb_lt in Hc.
    rewrite (removeCanvas_length _ Hb). lia. }
  pose proof (while_exit _ _ _ _ Eb) as Xb. simpl in Xb.
  rewrite Z.gtb_ltb in Xb. apply Z.ltb_ge in Xb.
  assert (Hcount : Z.of_nat (length (canvases mb)) = req) by lia.
  (* what the first layout left *)
  set (pw0 := {| pw_display := false; pw_width := 0; pw_borderRightWidth := 0;
                 pw_borderRightColor := EmptyString |}).
  destruct (@layout_entries_again _ (canvases mb) mb
              (set_progressWave mb (Some pw0)) _ _ _ m' es El eq_refl)
    as [Hc' [Hlen [Hpw' _]]].
  { intros _. simpl. discriminate. }
  (* the second resize *)
  set (m1 := set_canvases m' es).
  set (m1x := set_dims m1 w h).
  assert (Hc1 : Pred.config m1x = Pred.config mb).
  { destruct (config_fields Hc') as [A1 [_ [_ [A4 [A5 [A6 [A7 A8]]]]]]].
    destruct (config_fields Hcb) as [_ [B2 [B3 _]]].
    change (width m0) with w in B2. change (height m0) with h in B3.
    unfold Pred.config. simpl.
    rewrite A1, A4, A5, A6, A7, A8, B2, B3. reflexivity. }
  assert (Hreq1 : requiredCanvases m1x = req).
  { unfold req. rewrite <- (requiredCanvases_config Hcb).
    apply requiredCanvases_config. exact Hc1. }
  assert (Hlen1 : Z.of_nat (length (canvases m1x)) = req)
    by (simpl; rewrite Hlen; exact Hcount).
  destruct (@layout_entries_again _ (canvases mb) mb m1x _ _ _ m' es El Hc1)
    as [_ [_ [_ [m2' [es'' [E2 Hmap]]]]]].
  { intro Hne. simpl. apply Hpw'. exact Hne. }
  rewrite Hreq1.
  rewrite while_false by (simpl; apply Z.ltb_ge; simpl in Hlen1; lia).
  cbn [bind].
  rewrite while_false
    by (rewrite Z.gtb_ltb; apply Z.ltb_ge; simpl in Hlen1; simpl; lia).
  cbn [bind].
  apply config_fields in Hc1.
  destruct Hc1 as [_ [_ [_ [Hmw [_ [_ [Hov _]]]]]]].
  rewrite Hmw, Hov.
  change (canvases m1x) with es.
  replace (Z.of_nat (length es) - 1)%Z
    with (Z.of_nat (length (canvases mb)) - 1)%Z by (rewrite Hlen; reflexivity).
  rewrite E2. cbn [bind].
  eexists. split; [reflexivity |].
  split.
  - simpl. apply (f_equal (@length _)) in Hmap.
    rewrite !length_map in Hmap. exact Hmap.
  - unfold Pred.layout. simpl. exact Hmap.
Qed.

Lemma resize_idempotent_witness :
  exists m2,
    resize 10 10000 128 Sample.drawer_resized = Ok m2
    /\ length (canvases m2) = length (canvases Sample.drawer_resized)
    /\ Pred.layout m2 = Pred.layout Sample.drawer_resized.
Proof.
  apply (@resize_idempotent 10 Sample.drawer_ready 10000 128
           Sample.drawer_resized).
  vm_compute. reflexivity.
Defined.

End SizeFacts.

(** ** The progress flag (hasProgressCanvas) *)

Module FlagFacts.

Import MultiCanvas.

Lemma same_progress_refl (e : CanvasEntry.t) : Pred.same_progress e e.
Proof. split; [reflexivity | tauto]. Qed.

Lemma same_progress_trans (a b c : CanvasEntry.t) :
  Pred.same_progress a b -> Pred.same_progress b c -> Pred.same_progress a c.
Proof.
  intros [H1 H2] [H3 H4]. split; [congruence | tauto].
Qed.

Lemma flag_kept_same (flag : bool) (e e' : CanvasEntry.t) :
  Pred.flag_kept flag e -> Pred.same_progress e e' -> Pred.flag_kept flag e'.
Proof.
  intros [H1 H2] [H3 H4]. split; [congruence |].
  split.
  - intro A. apply H2. intro B. apply A. apply H4. exact B.
  - intro A. intro B. apply H4 in B. apply H2 in A. contradiction.
Qed.

(** Unfolding of the entry operations on an entry given field by field. *)
Ltac entry_ops :=
  cbv beta iota zeta delta
      [bind deref fst snd
       CanvasEntry.wave CanvasEntry.progress CanvasEntry.start
       CanvasEntry.end_ CanvasEntry.hasProgressCanvas CanvasEntry.halfPixel
       CanvasEntry.drawTimeout CanvasEntry.drawn
       CanvasEntry.set_wave CanvasEntry.set_progress CanvasEntry.set_range
       CanvasEntry.set_drawn CanvasEntry.set_flags CanvasEntry.set_drawTimeout
       CanvasEntry.setLeft CanvasEntry.updateDimensions CanvasEntry.clearWave
       CanvasEntry.setBackimage CanvasEntry.setFillStyles
       CanvasEntry.applyCanvasTransforms CanvasEntry.fillRects
       CanvasEntry.fillRectToContext CanvasEntry.drawLines
       CanvasEntry.drawLineToContext CanvasEntry.stretchBackimage
       CanvasEntry.getImage CanvasEntry.getProgressImage
       CanvasEntry.canvas_image
       Pred.same_progress] in *.

(** Case analysis on every test an equation [H] still goes through. *)
Ltac split_cases H :=
  repeat match type of H with
         | context [match ?x with _ => _ end] =>
             destruct x; try discriminate H
         end.

Ltac same_progress_by_cases e H :=
  destruct e as [[w|] [p|] s f [|] half dt dr];
  entry_ops; try discriminate H; split_cases H;
  inversion H; subst; clear H;
  (split; [reflexivity | split; intro; congruence]).

Lemma setLeft_same e lo e' :
  CanvasEntry.setLeft e lo = Ok e' -> Pred.same_progress e e'.
Proof. intro H. same_progress_by_cases e H. Qed.

Lemma updateDimensions_same e ew tw w0 h0 e' :
  CanvasEntry.updateDimensions e ew tw w0 h0 = Ok e' ->
  Pred.same_progress e e'.
Proof. intro H. same_progress_by_cases e H. Qed.

Lemma clearWave_same e e' :
  CanvasEntry.clearWave e = Ok e' -> Pred.same_progress e e'.
Proof. intro H. same_progress_by_cases e H. Qed.

Lemma setFillStyles_same e wc pc e' :
  CanvasEntry.setFillStyles e wc pc = Ok e' -> Pred.same_progress e e'.
Proof. intro H. same_progress_by_cases e H. Qed.

Lemma applyCanvasTransforms_same e v e' :
  CanvasEntry.applyCanvasTransforms e v = Ok e' -> Pred.same_progress e e'.
Proof. intro H. same_progress_by_cases e H. Qed.

Lemma fillRects_same e x y w0 h0 r :
  Pred.same_progress e (CanvasEntry.fillRects e x y w0 h0 r).
Proof.
  destruct e as [w p s f hp half dt dr]. entry_ops.
  destruct hp; [destruct p |]; (split; [reflexivity |]);
    try destruct (JS.truthy r); split; intro; congruence.
Qed.

Lemma drawLines_same e pk a hh oy st en e' :
  CanvasEntry.drawLines e pk a hh oy st en = Ok e' -> Pred.same_progress e e'.
Proof. intro H. same_progress_by_cases e H. Qed.

Lemma setBackimage_same e u pu e' :
  CanvasEntry.setBackimage e u pu = Ok e' -> Pred.same_progress e e'.
Proof. intro H. same_progress_by_cases e H. Qed.

Lemma stretchBackimage_same e st tw pr vb bk e' r :
  CanvasEntry.stretchBackimage e st tw pr vb bk = Ok (e', r) ->
  Pred.same_progress e e'.
Proof. intro H. same_progress_by_cases e H. Qed.

Lemma timeout_callback_same e e' :
  timeout_callback e = Ok e' -> Pred.same_progress e e'.
Proof.
  unfold timeout_callback. intro H.
  destruct (CanvasEntry.drawTimeout e) as [d|];
    [| inversion H; apply same_progress_refl].
  destruct (CanvasEntry.drawLines e (d_peaks d) (d_absmax d) (d_halfH d)
              (d_offsetY d) (d_start d) (d_end d)) as [e1| |] eqn:E1;
    simpl in H; try discriminate.
  apply drawLines_same in E1.
  destruct (CanvasEntry.getImage e1 (Some "image/png"%string) (Some 1)
              "dataURL") as [img| |]; simpl in H; try discriminate.
  destruct (CanvasEntry.getProgressImage e1 (Some "image/png"%string)
              (Some 1) "dataURL") as [prog| |]; simpl in H; try discriminate.
  assert (Hdone : forall e2,
             Pred.same_progress e1 e2 ->
             Pred.same_progress e (CanvasEntry.set_drawTimeout e2 None)).
  { intros e2 S2. eapply same_progress_trans; [exact E1 |].
    eapply same_progress_trans; [exact S2 |].
    destruct e2; split; [reflexivity | simpl; tauto]. }
  destruct img as [u | pb |]; [destruct prog as [pu | pb |] | |];
    simpl in H;
    try (inversion H; subst; apply Hdone; apply same_progress_refl).
  destruct (CanvasEntry.setBackimage e1 u (Some pu)) as [e2| |] eqn:E2;
    simpl in H; try discriminate.
  inversion H; subst. apply Hdone. eapply setBackimage_same. exact E2.
Qed.

Lemma drawLine_entry_same m pk a hh oy st en ch e e' :
  drawLine_entry m pk a hh oy st en ch e = Ok e' -> Pred.same_progress e e'.
Proof.
  unfold drawLine_entry, setFillStyles, applyCanvasTransforms. intro H.
  match type of H with
  | bind ?r _ = _ => destruct r as [e1| |] eqn:E1; simpl in H; try discriminate
  end.
  apply setFillStyles_same in E1.
  destruct (CanvasEntry.applyCanvasTransforms e1 (p_vertical (prm m)))
    as [e2| |] eqn:E2; simpl in H; try discriminate.
  apply applyCanvasTransforms_same in E2.
  destruct (CanvasEntry.wave e2) as [w|]; simpl in H; try discriminate.
  destruct (CanvasEntry.clearWave e2) as [e3| |] eqn:E3; simpl in H;
    try discriminate.
  apply clearWave_same in E3.
  inversion H; subst.
  eapply same_progress_trans; [exact E1 |].
  eapply same_progress_trans; [exact E2 |].
  eapply same_progress_trans; [exact E3 |].
  destruct e3; split; [reflexivity | simpl; tauto].
Qed.

Lemma forEach_kept (flag : bool) (f : CanvasEntry.t -> result CanvasEntry.t) :
  (forall x x', f x = Ok x' -> Pred.same_progress x x') ->
  forall xs ys,
    Forall (Pred.flag_kept flag) xs -> forEach f xs = Ok ys ->
    Forall (Pred.flag_kept flag) ys.
Proof.
  intro Hf. induction xs as [|x rest IH]; simpl; intros ys Hxs H.
  - inversion H. constructor.
  - inversion Hxs; subst.
    destruct (f x) as [x'| |] eqn:Ex; simpl in H; try discriminate.
    destruct (forEach f rest) as [rest'| |]; simpl in H; try discriminate.
    inversion H; subst. constructor.
    + eapply flag_kept_same; [eassumption | apply Hf; exact Ex].
    + apply IH; [assumption | reflexivity].
Qed.

Lemma Forall_replace_nth (A : Type) (P : A -> Prop) (x : A) :
  P x -> forall n xs, Forall P xs -> Forall P (replace_nth n x xs).
Proof.
  intros Hx n xs. revert n.
  induction xs as [|y rest IH]; intros n H; destruct n; simpl;
    try constructor; inversion H; subst; auto.
Qed.

Lemma Forall_removelast (A : Type) (P : A -> Prop) (xs : list A) :
  Forall P xs -> Forall P (removelast xs).
Proof.
  induction 1 as [|x rest Hx Hrest IH]; simpl; [constructor |].
  destruct rest; [constructor | constructor; assumption].
Qed.

Lemma foldM_invariant (A S : Type) (P : S -> Prop) (f : S -> A -> result S) :
  (forall s x s', P s -> f s x = Ok s' -> P s') ->
  forall xs s s', P s -> foldM f xs s = Ok s' -> P s'.
Proof.
  intro Hf. induction xs as [|x rest IH]; simpl; intros s s' Hs H.
  - inversion H; subst. exact Hs.
  - destruct (f s x) as [s1| |] eqn:E; simpl in H; try discriminate.
    eapply IH; [| exact H]. eapply Hf; eassumption.
Qed.

Section Invariant.

Variable p : params.

Lemma inv_set_canvases (m : t) (cs : list CanvasEntry.t) :
  Pred.progress_inv p m ->
  Forall (Pred.flag_kept (hasProgressCanvas m)) cs ->
  Pred.progress_inv p (set_canvases m cs).
Proof. intros [H1 [H2 _]] H. split; [| split]; assumption. Qed.

Lemma addCanvas_inv (m m' : t) :
  Pred.progress_inv p m -> addCanvas m = Ok m' -> Pred.progress_inv p m'.
Proof.
  intros Hinv H. unfold addCanvas in H.
  assert (Hes := proj2 (proj2 Hinv)).
  destruct (hasProgressCanvas m) eqn:Ehp; simpl in H.
  - destruct (progressWave m); simpl in H; [| discriminate].
    inversion H; subst. apply inv_set_canvases; [exact Hinv |].
    rewrite Ehp. apply Forall_app. split; [exact Hes |].
    constructor; [| constructor].
    split; [reflexivity |]. simpl.
    split; [intros _; reflexivity | intros _; discriminate].
  - inversion H; subst. apply inv_set_canvases; [exact Hinv |].
    rewrite Ehp. apply Forall_app. split; [exact Hes |].
    constructor; [| constructor].
    split; [reflexivity |]. simpl.
    split; [intro A; contradiction A; reflexivity | discriminate].
Qed.

Lemma removeCanvas_inv (m m' : t) :
  Pred.progress_inv p m -> removeCanvas m = Ok m' -> Pred.progress_inv p m'.
Proof.
  intros Hinv H. unfold removeCanvas in H.
  destruct (last (map Some (canvases m)) None) as [e|]; simpl in H;
    [| discriminate].
  destruct (CanvasEntry.wave e); simpl in H; [| discriminate].
  assert (E : m' = set_canvases m (removelast (canvases m))).
  { destruct (hasProgressCanvas m); simpl in H.
    - destruct (CanvasEntry.progress e); simpl in H; [| discriminate].
      inversion H. reflexivity.
    - inversion H. reflexivity. }
  subst m'. apply inv_set_canvases; [exact Hinv |].
  apply Forall_removelast. apply Hinv.
Qed.

Lemma updateCursor_inv (m m' : t) :
  Pred.progress_inv p m -> updateCursor m = Ok m' -> Pred.progress_inv p m'.
Proof.
  intros Hinv H. unfold updateCursor in H.
  destruct (progressWave m); simpl in H; [| discriminate].
  inversion H; subst. exact Hinv.
Qed.

Lemma updateProgress_inv (m m' : t) (pos : Q) :
  Pred.progress_inv p m -> updateProgress m pos = Ok m' ->
  Pred.progress_inv p m'.
Proof.
  intros Hinv H. unfold updateProgress in H.
  destruct (progressWave m); simpl in H; [| discriminate].
  inversion H; subst. exact Hinv.
Qed.

Lemma init_inv (m m' : t) :
  Pred.progress_inv p m -> init m = Ok m' -> Pred.progress_inv p m'.
Proof.
  intros Hinv H. unfold init, createElements in H.
  match type of H with
  | bind (addCanvas ?m0) _ = _ =>
      destruct (addCanvas m0) as [m1| |] eqn:E1; simpl in H; try discriminate;
      assert (H1 : Pred.progress_inv p m1)
        by (eapply addCanvas_inv; [| exact E1]; exact Hinv)
  end.
  eapply updateCursor_inv; eassumption.
Qed.

Lemma layout_entry_inv (m : t) lastCanvas i cw lo e m' e' cw' lo' :
  layout_entry m lastCanvas i cw lo e = Ok (m', e', cw', lo') ->
  Pred.same_progress e e'
  /\ prm m' = prm m /\ hasProgressCanvas m' = hasProgressCanvas m
  /\ canvases m' = canvases m.
Proof.
  unfold layout_entry, updateDimensions. intro H.
  destruct (CanvasEntry.setLeft e lo) as [e1| |] eqn:E1; simpl in H;
    try discriminate.
  apply setLeft_same in E1.
  match type of H with
  | context [CanvasEntry.updateDimensions ?a ?b ?c ?d ?f] =>
      destruct (CanvasEntry.updateDimensions a b c d f) as [e2| |] eqn:E2;
        simpl in H; try discriminate
  end.
  apply updateDimensions_same in E2.
  destruct (progressWave m); simpl in H; try discriminate.
  destruct (CanvasEntry.clearWave e2) as [e3| |] eqn:E3; simpl in H;
    try discriminate.
  apply clearWave_same in E3.
  inversion H; subst.
  split; [| repeat split].
  eapply same_progress_trans; [exact E1 |].
  eapply same_progress_trans; [exact E2 | exact E3].
Qed.

Lemma layout_entries_inv (flag : bool) lastCanvas :
  forall es m i cw lo m' es',
    Forall (Pred.flag_kept flag) es ->
    layout_entries m lastCanvas i cw lo es = Ok (m', es') ->
    Forall (Pred.flag_kept flag) es'
    /\ prm m' = prm m /\ hasProgressCanvas m' = hasProgressCanvas m.
Proof.
  induction es as [|e rest IH]; intros m i cw lo m' es' Hes H; simpl in H.
  - inversion H; subst. repeat split. constructor.
  - inversion Hes; subst.
    destruct (layout_entry m lastCanvas i cw lo e)
      as [[[[m1 e1] cw1] lo1]| |] eqn:E1; simpl in H; try discriminate.
    destruct (layout_entries m1 lastCanvas (i + 1) cw1 lo1 rest)
      as [[m3 rest']| |] eqn:E3; simpl in H; try discriminate.
    inversion H; subst.
    apply layout_entry_inv in E1. destruct E1 as [S1 [P1 [F1 _]]].
    destruct (IH _ _ _ _ _ _ H3 E3) as [Hr [P3 F3]].
    split; [| split; congruence].
    constructor; [eapply flag_kept_same; eassumption | exact Hr].
Qed.

Lemma updateSize_inv (fuel : nat) (m m' : t) :
  Pred.progress_inv p m -> updateSize fuel m = Ok m' ->
  Pred.progress_inv p m'.
Proof.
  intros Hinv H. unfold updateSize in H.
  match type of H with
  | bind (while fuel ?c addCanvas m) _ = _ =>
      destruct (while fuel c addCanvas m) as [ma| |] eqn:Ea; simpl in H;
        try discriminate;
      assert (Ha : Pred.progress_inv p ma)
        by (eapply (SizeFacts.while_invariant (Pred.progress_inv p));
            [| exact Hinv | exact Ea];
            intros s s' Hs _ Hb; eapply addCanvas_inv; eassumption)
  end.
  match type of H with
  | bind (while fuel ?c removeCanvas ma) _ = _ =>
      destruct (while fuel c removeCanvas ma) as [mb| |] eqn:Eb; simpl in H;
        try discriminate;
      assert (Hb : Pred.progress_inv p mb)
        by (eapply (SizeFacts.while_invariant (Pred.progress_inv p));
            [| exact Ha | exact Eb];
            intros s s' Hs _ Hr; eapply removeCanvas_inv; eassumption)
  end.
  match type of H with
  | bind ?r _ = _ => destruct r as [[m3 es]| |] eqn:El; simpl in H;
                       try discriminate
  end.
  inversion H; subst.
  destruct Hb as [B1 [B2 B3]].
  destruct (@layout_entries_inv _ _ _ _ _ _ _ _ _ B3 El) as [Hes [P3 F3]].
  split; [simpl; congruence |]. split; [simpl; congruence |].
  simpl. rewrite F3. exact Hes.
Qed.

Lemma resize_inv (fuel : nat) (m m' : t) (w h : Q) :
  Pred.progress_inv p m -> resize fuel w h m = Ok m' ->
  Pred.progress_inv p m'.
Proof.
  intros Hinv H. unfold resize in H.
  eapply updateSize_inv; [| exact H]. exact Hinv.
Qed.

Lemma clearWave_inv (m m' : t) :
  Pred.progress_inv p m -> clearWave m = Ok m' -> Pred.progress_inv p m'.
Proof.
  intros Hinv H. unfold clearWave in H.
  destruct (forEach CanvasEntry.clearWave (canvases m)) as [es| |] eqn:E;
    simpl in H; try discriminate.
  inversion H; subst. apply inv_set_canvases; [exact Hinv |].
  eapply forEach_kept; [| apply Hinv | exact E].
  intros x x'. apply clearWave_same.
Qed.

Lemma drawLine_inv (m m' : t) pk a hh oy st en ch :
  Pred.progress_inv p m -> drawLine m pk a hh oy st en ch = Ok m' ->
  Pred.progress_inv p m'.
Proof.
  intros Hinv H. unfold drawLine in H.
  match type of H with
  | bind ?r _ = _ => destruct r as [es| |] eqn:E; simpl in H; try discriminate
  end.
  inversion H; subst. apply inv_set_canvases; [exact Hinv |].
  eapply forEach_kept; [| apply Hinv | exact E].
  intros x x'. apply drawLine_entry_same.
Qed.

Lemma fillRect_at_inv x y w h r ch (m : t) (i : Z) (m' : t) :
  Pred.progress_inv p m -> fillRect_at x y w h r ch m i = Ok m' ->
  Pred.progress_inv p m'.
Proof.
  intros Hinv H. unfold fillRect_at, setFillStyles, applyCanvasTransforms in H.
  destruct (entry_at m i) as [e|] eqn:Ee; simpl in H; try discriminate.
  destruct (CanvasEntry.wave e) as [wv|]; simpl in H; try discriminate.
  match type of H with
  | (if ?b then _ else _) = _ => destruct b; [| inversion H; subst; exact Hinv]
  end.
  match type of H with
  | bind ?r _ = _ => destruct r as [e1| |] eqn:E1; simpl in H; try discriminate
  end.
  apply setFillStyles_same in E1.
  destruct (CanvasEntry.applyCanvasTransforms e1 (p_vertical (prm m)))
    as [e2| |] eqn:E2; simpl in H; try discriminate.
  apply applyCanvasTransforms_same in E2.
  inversion H; subst. apply inv_set_canvases; [exact Hinv |].
  destruct Hinv as [_ [_ Hes]].
  apply Forall_replace_nth; [| exact Hes].
  assert (He : Pred.flag_kept (hasProgressCanvas m) e).
  { unfold entry_at in Ee. destruct (i <? 0)%Z; [discriminate |].
    rewrite Forall_forall in Hes. apply Hes.
    eapply nth_error_In. exact Ee. }
  eapply flag_kept_same; [exact He |].
  eapply same_progress_trans; [exact E1 |].
  eapply same_progress_trans; [exact E2 |].
  apply fillRects_same.
Qed.

Lemma fillRect_inv (m m' : t) x y w h r ch :
  Pred.progress_inv p m -> fillRect m x y w h r ch = Ok m' ->
  Pred.progress_inv p m'.
Proof.
  intros Hinv H. unfold fillRect in H.
  eapply (foldM_invariant (Pred.progress_inv p)); [| exact Hinv | exact H].
  intros s i s' Hs Hf. eapply fillRect_at_inv; eassumption.
Qed.

Lemma fire_timeout_inv (m m' : t) (i : nat) :
  Pred.progress_inv p m -> fire_timeout m i = Ok m' -> Pred.progress_inv p m'.
Proof.
  intros Hinv H. unfold fire_timeout in H.
  destruct (nth_error (canvases m) i) as [e|] eqn:Ee;
    [| inversion H; subst; exact Hinv].
  destruct (timeout_callback e) as [e1| |] eqn:E1; simpl in H;
    try discriminate.
  inversion H; subst. apply inv_set_canvases; [exact Hinv |].
  destruct Hinv as [_ [_ Hes]].
  apply Forall_replace_nth; [| exact Hes].
  eapply flag_kept_same; [| apply timeout_callback_same; exact E1].
  rewrite Forall_forall in Hes. apply Hes. eapply nth_error_In. exact Ee.
Qed.

Lemma stretch_entries_kept (flag : bool) tw pr vb bk :
  forall es st es',
    Forall (Pred.flag_kept flag) es ->
    stretch_entries tw pr vb bk st es = Ok es' ->
    Forall (Pred.flag_kept flag) es'.
Proof.
  induction es as [|e rest IH]; intros st es' Hes H; simpl in H.
  - inversion H. constructor.
  - inversion Hes; subst.
    match type of H with
    | bind ?r _ = _ => destruct r as [[e1 st1]| |] eqn:E1; simpl in H;
                         try discriminate
    end.
    destruct (stretch_entries tw pr vb bk st1 rest) as [rest'| |] eqn:E2;
      simpl in H; try discriminate.
    inversion H; subst. constructor; [| eapply IH; eassumption].
    apply stretchBackimage_same in E1.
    eapply flag_kept_same; [| exact E1].
    destruct e; destruct H2 as [A B]; split; assumption.
Qed.

Lemma setBackupImage_inv (m m' : t) :
  Pred.progress_inv p m -> setBackupImage m = Ok m' -> Pred.progress_inv p m'.
Proof.
  intros Hinv H. unfold setBackupImage in H.
  destruct (backupImage m); [inversion H; subst; exact Hinv |].
  match type of H with
  | (if ?b then _ else _) = _ => destruct b; [inversion H; subst; exact Hinv |]
  end.
  destruct (collect_dataURLs (canvases m)) as [[us|]| |]; simpl in H;
    try discriminate; inversion H; subst; exact Hinv.
Qed.

Variable absMax : list Q -> Q.
Variable arrayMax : list Q -> Q.
Variable recenterOnPosition : wrapperEl -> Q -> wrapperEl.

Lemma perform_inv (fuel : nat) (m : t) (a : action) (m' : t) :
  Pred.progress_inv p m -> perform fuel m a = Ok m' -> Pred.progress_inv p m'.
Proof.
  intros Hinv H. destruct a; simpl in H.
  - eapply resize_inv; eassumption.
  - eapply fillRect_inv; eassumption.
  - eapply drawLine_inv; eassumption.
Qed.

Lemma renderBars_inv (fuel : nat) (m m' : t) peaks ch st en :
  Pred.progress_inv p m ->
  renderBars absMax arrayMax fuel m peaks ch st en = Ok m' ->
  Pred.progress_inv p m'.
Proof.
  intros Hinv H. unfold renderBars in H.
  destruct (drawBars absMax arrayMax fuel m peaks ch st en) as [acts| |];
    simpl in H; try discriminate.
  eapply (foldM_invariant (Pred.progress_inv p)); [| exact Hinv | exact H].
  intros s a s'. apply perform_inv.
Qed.

Lemma renderLine_inv (fuel : nat) (m m' : t) peaks ch st en :
  Pred.progress_inv p m ->
  renderLine absMax arrayMax fuel m peaks ch st en = Ok m' ->
  Pred.progress_inv p m'.
Proof.
  intros Hinv H. unfold renderLine in H.
  destruct (drawWave absMax arrayMax m peaks ch st en) as [acts| |];
    simpl in H; try discriminate.
  eapply (foldM_invariant (Pred.progress_inv p)); [| exact Hinv | exact H].
  intros s a s'. apply perform_inv.
Qed.

Lemma stretchBackimage_inv (m m' : t) (desiredWidth progress : Q) :
  Pred.progress_inv p m ->
  stretchBackimage recenterOnPosition m desiredWidth progress = Ok m' ->
  Pred.progress_inv p m'.
Proof.
  intros Hinv H. unfold stretchBackimage in H.
  match type of H with
  | bind ?r _ = _ => destruct r as [es| |] eqn:E; simpl in H; try discriminate
  end.
  match type of H with
  | bind (updateProgress ?m0 ?pos) _ = _ =>
      destruct (updateProgress m0 pos) as [m1| |] eqn:E1; simpl in H;
        try discriminate;
      assert (H1 : Pred.progress_inv p m1)
  end.
  { eapply updateProgress_inv; [| exact E1].
    destruct Hinv as [A [B C]]. split; [exact A |]. split; [exact B |].
    simpl. eapply stretch_entries_kept; [exact C | exact E]. }
  inversion H; subst. exact H1.
Qed.

Lemma step_inv (fuel : nat) (m : t) (o : op) (m' : t) :
  Pred.progress_inv p m ->
  step absMax arrayMax recenterOnPosition fuel m o = Ok m' ->
  Pred.progress_inv p m'.
Proof.
  intros Hinv H. destruct o; simpl in H.
  - eapply init_inv; eassumption.
  - eapply addCanvas_inv; eassumption.
  - eapply removeCanvas_inv; eassumption.
  - eapply updateCursor_inv; eassumption.
  - eapply updateSize_inv; eassumption.
  - eapply resize_inv; eassumption.
  - eapply clearWave_inv; eassumption.
  - eapply renderBars_inv; eassumption.
  - eapply renderLine_inv; eassumption.
  - eapply drawLine_inv; eassumption.
  - eapply fillRect_inv; eassumption.
  - eapply fire_timeout_inv; eassumption.
  - eapply stretchBackimage_inv; eassumption.
  - eapply updateProgress_inv; eassumption.
  - eapply setBackupImage_inv; eassumption.
Qed.

(** Two colour strings are unequal exactly when they differ. *)
Lemma color_neq_flat (a b : string) :
  color_neq (Flat a) (Flat b) = true <-> a <> b.
Proof.
  simpl. rewrite negb_true_iff. apply String.eqb_neq.
Qed.

(** C9.  The drawer built from the parameters [p] has the flag
    [waveColor != progressColor] and no surface; after any sequence of its
    operations that runs through, the parameters and the flag are what they
    were, every surface carries the flag, and a surface has a progress
    canvas exactly when the flag is set.  With one colour string for both,
    the flag is off and no surface has a progress canvas. *)
Theorem hasProgressCanvas_invariant (width0 height0 : Q) (wr : wrapperEl)
  (fuel : nat) (ops : list op) (m : t) :
  run absMax arrayMax recenterOnPosition fuel ops (new p width0 height0 wr)
  = Ok m ->
  prm m = p
  /\ hasProgressCanvas m = color_neq (waveColor p) (progressColor p)
  /\ Forall (fun e =>
               CanvasEntry.hasProgressCanvas e = hasProgressCanvas m
               /\ (CanvasEntry.progress e <> None
                   <-> hasProgressCanvas m = true))
       (canvases m)
  /\ (forall c, waveColor p = Flat c -> progressColor p = Flat c ->
                hasProgressCanvas m = false
                /\ Forall (fun e => CanvasEntry.progress e = None)
                     (canvases m)).
Proof.
  intro H.
  assert (Hinv : Pred.progress_inv p m).
  { unfold run in H.
    eapply (foldM_invariant (Pred.progress_inv p)); [| | exact H].
    - intros s o s'. apply step_inv.
    - split; [reflexivity |]. split; [reflexivity | constructor]. }
  destruct Hinv as [A [B C]].
  split; [exact A |]. split; [exact B |]. split; [exact C |].
  intros c Hw Hp.
  assert (Hoff : hasProgressCanvas m = false).
  { rewrite B, Hw, Hp. simpl. rewrite String.eqb_refl. reflexivity. }
  split; [exact Hoff |].
  eapply Forall_impl; [| exact C].
  intros e [_ He]. rewrite Hoff in He.
  destruct (CanvasEntry.progress e) as [pc|]; [| reflexivity].
  assert (X : false = true) by (apply He; discriminate).
  discriminate X.
Qed.

End Invariant.

Lemma hasProgressCanvas_invariant_witness :
  hasProgressCanvas Sample.drawer_session_plain = false
  /\ Forall (fun e => CanvasEntry.progress e = None)
       (canvases Sample.drawer_session_plain).
Proof.
  assert (Hrun : run Sample.absMax Sample.arrayMax Sample.recenter 20
                   Sample.session_plain (new Sample.prms_plain 0 128 Sample.wrap)
                 = Ok Sample.drawer_session_plain)
    by (vm_compute; reflexivity).
  destruct (@hasProgressCanvas_invariant _ _ _ _ _ _ _ _ _ _ Hrun)
    as [_ [_ [_ H]]].
  apply (H "#999"%string); reflexivity.
Defined.

End FlagFacts.

(** ** Peaks and bars (scan of drawBars, reflectedPeaks of drawWave) *)

Module PeakFacts.

Import MultiCanvas.

(** The peak scan of [drawBars] returns the largest absolute value among
    the samples it read and the value it started from: it is at least the
    starting value, at least every sample read, and it is one of them. *)
Theorem scan_peaks_is_maximum (peaks : list Q) (pis pend : Z) :
  forall fuel peak range p visited,
    scan_peaks fuel peaks pis pend peak range = Ok (p, visited) ->
    peak <= p
    /\ (forall i v, In i visited -> JS.index peaks i = Some v ->
                    JS.abs v <= p)
    /\ (p = peak
        \/ exists i v, In i visited /\ JS.index peaks i = Some v
                       /\ p = JS.abs v).
Proof.
  induction fuel as [|fuel IH]; intros peak range p visited H; simpl in H;
    [discriminate |].
  set (peak1 := match JS.index peaks range with
                | Some v => if JS.gtb (JS.abs v) peak then JS.abs v else peak
                | None => peak
                end) in *.
  assert (Hstep : peak <= peak1
                  /\ (forall v, JS.index peaks range = Some v ->
                                JS.abs v <= peak1)
                  /\ (peak1 = peak
                      \/ exists v, JS.index peaks range = Some v
                                   /\ peak1 = JS.abs v)).
  { unfold peak1. destruct (JS.index peaks range) as [v|].
    - destruct (JS.gtb (JS.abs v) peak) eqn:E.
      + apply JSFacts.ltb_lt in E. split; [lra |].
        split; [intros v' Hv; inversion Hv; subst; lra |].
        right. exists v. split; reflexivity.
      + apply JSFacts.ltb_ge in E. split; [lra |].
        split; [intros v' Hv; inversion Hv; subst; exact E |].
        left. reflexivity.
    - split; [lra |]. split; [discriminate | left; reflexivity]. }
  destruct Hstep as [S1 [S2 S3]].
  destruct (range + pis <? pend)%Z.
  - destruct (scan_peaks fuel peaks pis pend peak1 (range + pis))
      as [[p' visited']| |] eqn:E; simpl in H; try discriminate.
    inversion H; subst. clear H.
    destruct (IH _ _ _ _ E) as [I1 [I2 I3]].
    split; [lra |]. split.
    + intros i v [Hi | Hi] Hv.
      * subst i. specialize (S2 v Hv). lra.
      * eapply I2; eassumption.
    + destruct I3 as [I3 | [i [v [Hi [Hv Hp]]]]].
      * destruct S3 as [S3 | [v [Hv Hp]]].
        -- left. congruence.
        -- right. exists range, v. split; [left; reflexivity |].
           split; [exact Hv | congruence].
      * right. exists i, v. split; [right; exact Hi |]. split; assumption.
  - inversion H; subst. clear H.
    split; [exact S1 |]. split.
    + intros i v [Hi | []] Hv. subst i. apply S2. exact Hv.
    + destruct S3 as [S3 | [v [Hv Hp]]].
      * left. exact S3.
      * right. exists range, v. split; [left; reflexivity |].
        split; assumption.
Qed.

Lemma scan_peaks_is_maximum_witness :
  JS.abs (-1) <= 1 /\ 0 <= 1.
Proof.
  assert (Hrun : scan_peaks 5 [1 # 2; -1; 1 # 4] 1 3 0 0 = Ok (1, [0; 1; 2]%Z))
    by (vm_compute; reflexivity).
  destruct (@scan_peaks_is_maximum _ _ _ _ _ _ _ _ Hrun) as [A [B _]].
  split; [| exact A].
  apply (B 1%Z (-1)); [right; left; reflexivity | reflexivity].
Defined.

(** [reflectedPeaks] holds, for every sample of index [i], the sample at
    [2 * i] and its opposite at [2 * i + 1], and nothing else. *)
Theorem reflect_pairs (l : list Q) (i : nat) :
  JS.index (reflect l) (2 * Z.of_nat i) = nth_error l i
  /\ JS.index (reflect l) (2 * Z.of_nat i + 1)
     = option_map Qopp (nth_error l i)
  /\ length (reflect l) = (2 * length l)%nat.
Proof.
  assert (Hidx : forall k, JS.index (reflect l) (Z.of_nat k)
                           = nth_error (reflect l) k).
  { intro k. unfold JS.index.
    destruct (Z.of_nat k <? 0)%Z eqn:E; [apply Z.ltb_lt in E; lia |].
    rewrite Nat2Z.id. reflexivity. }
  replace (2 * Z.of_nat i)%Z with (Z.of_nat (2 * i)) by lia.
  replace (Z.of_nat (2 * i) + 1)%Z with (Z.of_nat (2 * i + 1)) by lia.
  rewrite !Hidx. clear Hidx.
  revert i. induction l as [|v rest IH]; intro i.
  - destruct i; simpl; repeat split; reflexivity.
  - destruct i as [|i].
    + simpl. repeat split. f_equal. destruct (IH 0%nat) as [_ [_ E]].
      simpl in E. lia.
    + destruct (IH i) as [A [B C]].
      replace (2 * S i)%nat with (S (S (2 * i))) by lia.
      replace (S (S (2 * i)) + 1)%nat with (S (S (2 * i + 1))) by lia.
      simpl nth_error. simpl reflect.
      split; [exact A |]. split; [exact B |].
      simpl length. simpl in C. lia.
Qed.

Lemma bars_loop_bars (m : t) (g : geometry) (last : Q) (inner : nat) :
  forall fuel peakIndex acts,
    bars_loop fuel inner m g last peakIndex = Ok acts ->
    forall k a,
      nth_error acts k = Some a ->
      exists x y h,
        a = AFillRect x y (bar_size m + halfPixel m) h (barRadius m)
              (g_channelIndex g)
        /\ x == peakIndex + inject_Z (Z.of_nat k) * bar_step m + halfPixel m
        /\ peakIndex + inject_Z (Z.of_nat k) * bar_step m < last
        /\ y + h / 2 == g_halfH g + g_offsetY g
        /\ (JS.truthy (barMinHeight (prm m)) = true ->
            2 * barMinHeight (prm m) <= h).
Proof.
  induction fuel as [|fuel IH]; intros peakIndex acts H k a Hk.
  - simpl in H. destruct (JS.ltb peakIndex last); [discriminate |].
    inversion H; subst. destruct k; discriminate Hk.
  - rewrite BarFacts.bars_loop_S in H.
    destruct (JS.ltb peakIndex last) eqn:Elt;
      [| inversion H; subst; destruct k; discriminate Hk].
    apply JSFacts.ltb_lt in Elt. cbv zeta in H.
    match type of H with
    | bind ?scan _ = _ => destruct scan as [[peak visited]| |];
                            try discriminate H
    end.
    cbn [bind] in H.
    destruct (bars_loop fuel inner m g last (peakIndex + bar_step m))
      as [rest| |] eqn:Er; try discriminate H.
    cbn [bind] in H. inversion H; subst. clear H.
    destruct k as [|k].
    + simpl in Hk. inversion Hk; subst. clear Hk.
      eexists _, _, _. split; [reflexivity |].
      change (inject_Z (Z.of_nat 0)) with 0.
      split; [ring |]. split; [lra |].
      split; [field |].
      intro Hmin. rewrite Hmin.
      pose proof (Q.le_max_r
                    (inject_Z (JS.round (peak / g_absmax g * g_halfH g)))
                    (barMinHeight (prm m))) as Hle.
      unfold JS.max. lra.
    + simpl in Hk.
      destruct (IH _ _ Er k a Hk) as [x [y [h [E [Hx [Hlt [Hc Hm]]]]]]].
      exists x, y, h. split; [exact E |].
      rewrite Nat2Z.inj_succ. unfold Z.succ. rewrite inject_Z_plus.
      change (inject_Z 1) with 1.
      split; [rewrite Hx; ring |]. split; [| split; assumption].
      eapply Qle_lt_trans; [| exact Hlt]. ring_simplify. apply Qle_refl.
Qed.

(** Every bar [drawBars] draws is a rectangle of width
    [bar + halfPixel], centred vertically on the midline
    [halfH + offsetY] of its channel, and at least twice the configured
    minimum bar height tall; the [k]-th bar starts at
    [start + k * step + halfPixel], and [start + k * step] is below the end of
    the range. *)
Theorem drawBars_bars (fuel : nat) (m : t) (first last : Q) (g : geometry)
  (acts : list action) :
  drawBars_fn fuel m (Some first) (Some last) g = Ok acts ->
  forall k a,
    nth_error acts k = Some a ->
    exists x y h,
      a = AFillRect x y (barWidth (prm m) * pixelRatio (prm m) + halfPixel m)
            h (barRadius m) (g_channelIndex g)
      /\ x == first + inject_Z (Z.of_nat k) * bar_step m + halfPixel m
      /\ first + inject_Z (Z.of_nat k) * bar_step m < last
      /\ y + h / 2 == g_halfH g + g_offsetY g
      /\ (JS.truthy (barMinHeight (prm m)) = true ->
          2 * barMinHeight (prm m) <= h).
Proof.
  unfold drawBars_fn. intros H k a Hk.
  eapply bars_loop_bars; eassumption.
Qed.

Lemma drawBars_bars_witness :
  exists x y h,
    AFillRect (7 # 2) (64 # 2) (5 # 2) 64 0 0
    = AFillRect x y
        (barWidth (prm Sample.drawer_resized)
         * pixelRatio (prm Sample.drawer_resized)
         + halfPixel Sample.drawer_resized)
        h (barRadius Sample.drawer_resized) 0
    /\ x == 0 + inject_Z (Z.of_nat 1) * bar_step Sample.drawer_resized
            + halfPixel Sample.drawer_resized
    /\ y + h / 2 == 128 / 2 + 0.
Proof.
  pose (g := {| g_absmax := 1; g_hasMinVals := false; g_height := 128;
                g_offsetY := 0; g_halfH := 128 / 2;
                g_peaks := [1 # 2; 1; 1 # 4; 0; 1 # 3]; g_channelIndex := 0 |}).
  assert (Hrun : drawBars_fn 10 Sample.drawer_resized (Some 0) (Some 6) g
                 = Ok [AFillRect (1 # 2) (64 # 2) (5 # 2) 64 0 0;
                       AFillRect (7 # 2) (64 # 2) (5 # 2) 64 0 0])
    by (vm_compute; reflexivity).
  destruct (@drawBars_bars _ _ _ _ _ _ Hrun 1%nat _ eq_refl)
    as [x [y [h [E [Hx [_ [Hc _]]]]]]].
  exists x, y, h. split; [exact E |]. split; [exact Hx | exact Hc].
Defined.

End PeakFacts.

(** ** Fill styles and the two canvases of a surface *)

Module StyleFacts.

Import CanvasEntry.

Lemma map_snd_combine (A B : Type) (xs : list A) (ys : list B) :
  length xs = length ys -> map snd (combine xs ys) = ys.
Proof.
  revert ys. induction xs as [|x xs IH]; intros [|y ys] H; simpl in *;
    try discriminate; [reflexivity |].
  f_equal. apply IH. lia.
Qed.

(** A gradient built from an array of colours has one stop per colour, in
    the order of the array, at offsets that start at 0 and stay below 1:
    the last colour of the array is reached before the bottom of the
    canvas. *)
Theorem gradient_stops_offsets (stops : list string) :
  map snd (gradient_stops stops) = stops
  /\ Forall (fun oc => 0 <= fst oc /\ fst oc < 1) (gradient_stops stops)
  /\ match gradient_stops stops with
     | [] => stops = []
     | (o, _) :: _ => o == 0
     end.
Proof.
  unfold gradient_stops. split; [| split].
  - apply map_snd_combine. rewrite length_map, length_seq. reflexivity.
  - apply Forall_forall. intros [o c] Hin. simpl.
    apply in_combine_l in Hin. apply in_map_iff in Hin.
    destruct Hin as [i [Ho Hi]]. apply in_seq in Hi. subst o.
    assert (Hn : 0 < inject_Z (Z.of_nat (length stops))).
    { change 0 with (inject_Z 0). rewrite <- Zlt_Qlt. lia. }
    split.
    + apply Qle_shift_div_l; [exact Hn |]. rewrite Qmult_0_l.
      change 0 with (inject_Z 0). rewrite <- Zle_Qle. lia.
    + apply Qlt_shift_div_r; [exact Hn |]. rewrite Qmult_1_l.
      rewrite <- Zlt_Qlt. lia.
  - destruct stops as [|c rest]; [reflexivity |].
    cbn [length seq map combine]. reflexivity.
Qed.

(** On a surface that has both canvases, a rectangle and a waveform line
    reach the progress canvas as the very calls that reach the wave canvas:
    the progress wave is the same geometry under another fill style. *)
Theorem progress_mirrors_wave (e : t) (w p : canvas) :
  wave e = Some w -> progress e = Some p -> hasProgressCanvas e = true ->
  (forall x y width height radius,
      exists ops,
        wave (fillRects e x y width height radius) = Some (call w ops)
        /\ progress (fillRects e x y width height radius)
           = Some (call p ops))
  /\ (forall peaks absmax halfH offsetY start end_,
        exists e' ops,
          drawLines e peaks absmax halfH offsetY start end_ = Ok e'
          /\ wave e' = Some (call w ops)
          /\ progress e' = Some (call p ops)
          /\ drawn e' = true).
Proof.
  intros Hw Hp Hhp.
  destruct e as [w0 p0 s f hp half dt dr]. simpl in Hw, Hp, Hhp. subst.
  split.
  - intros. unfold fillRects, fillRectToContext. simpl.
    destruct (JS.truthy radius); eexists; split; reflexivity.
  - intros. eexists _, _. split; [reflexivity |].
    split; [reflexivity |]. split; reflexivity.
Qed.

Lemma progress_mirrors_wave_witness :
  exists ops,
    wave (fillRects Sample.both_entry 1 2 3 4 0)
    = Some (call (new_canvas 0) ops)
    /\ progress (fillRects Sample.both_entry 1 2 3 4 0)
       = Some (call (new_canvas 0) ops).
Proof.
  destruct (@progress_mirrors_wave Sample.both_entry (new_canvas 0)
              (new_canvas 0) eq_refl eq_refl eq_refl) as [A _].
  exact (A 1 2 3 4 0).
Defined.

End StyleFacts.

(** ** The path of a surface (drawLineToContext) *)

Module PathFacts.

Import CanvasEntry.

(** Where the owned range of a surface ends at the start of the next one,
    the slice of the first ends one pair after the first pair of the second:
    the two paths share that boundary pair. *)
Theorem adjacent_slices_share_pair (a b : t) (peaks : list Q) :
  end_ a == start b ->
  (slice_first a peaks <= slice_first b peaks)%Z ->
  slice_last a peaks = (slice_first b peaks + 1)%Z
  /\ In (slice_first b peaks)
       (zrange (slice_first a peaks) (slice_last a peaks)).
Proof.
  intros Hadj Hle.
  assert (E : slice_last a peaks = (slice_first b peaks + 1)%Z).
  { unfold slice_last, slice_first. f_equal.
    apply SliceFacts.round_comp. rewrite Hadj. reflexivity. }
  split; [exact E |]. apply SliceFacts.In_zrange. lia.
Qed.

Lemma adjacent_slices_share_pair_witness :
  slice_last Sample.first_entry Sample.two_pairs = 2%Z
  /\ In 1%Z (zrange (slice_first Sample.first_entry Sample.two_pairs)
               (slice_last Sample.first_entry Sample.two_pairs)).
Proof.
  apply (@adjacent_slices_share_pair Sample.first_entry Sample.last_entry
           Sample.two_pairs).
  - reflexivity.
  - vm_compute. discriminate.
Defined.

Lemma scaled_within (W : Q) (a n : Z) :
  0 <= W -> (0 < n)%Z -> (0 <= a <= n)%Z ->
  0 <= inject_Z a * (W / inject_Z n) /\ inject_Z a * (W / inject_Z n) <= W.
Proof.
  intros HW Hn [Ha1 Ha2].
  assert (Hn' : 0 < inject_Z n)
    by (change 0 with (inject_Z 0); rewrite <- Zlt_Qlt; exact Hn).
  assert (Ha : 0 <= inject_Z a)
    by (change 0 with (inject_Z 0); rewrite <- Zle_Qle; exact Ha1).
  assert (Hq : 0 <= W / inject_Z n)
    by (apply Qle_shift_div_l; [exact Hn' | lra]).
  split; [apply Qmult_le_0_compat; assumption |].
  apply Qle_trans with (inject_Z n * (W / inject_Z n)).
  - apply Qmult_le_compat_r; [| exact Hq]. rewrite <- Zle_Qle. exact Ha2.
  - assert (E : inject_Z n * (W / inject_Z n) == W) by (field; lra).
    rewrite E. apply Qle_refl.
Qed.

(** When a surface owns more than one pair of peaks, every vertex of its
    path lies between the left edge of the canvas and its right edge plus
    half a pixel: the owned slice is stretched over the canvas width. *)
Theorem line_path_within_canvas (e : t) (waveWidth : Q) (peaks : list Q)
  (absmax halfH offsetY : Q) :
  0 <= waveWidth ->
  0 <= halfPixel e ->
  (slice_first e peaks + 1 < slice_last e peaks)%Z ->
  Forall (fun op =>
            match op with
            | MoveTo x _ | LineTo x _ =>
                0 <= x /\ x <= waveWidth + halfPixel e
            | _ => True
            end)
    (line_path e waveWidth peaks absmax halfH offsetY).
Proof.
  intros HW Hhp Hn. unfold line_path.
  set (first := slice_first e peaks) in *.
  set (last := slice_last e peaks) in *.
  assert (Hx : forall i, (first <= i < last)%Z ->
               0 <= inject_Z (i - first)
                    * (waveWidth / inject_Z (last - first - 1))
               /\ inject_Z (i - first)
                  * (waveWidth / inject_Z (last - first - 1)) <= waveWidth).
  { intros i Hi. apply scaled_within; [exact HW | lia | lia]. }
  assert (H0 : (first <= first < last)%Z) by lia.
  pose proof (Hx first H0) as [A B].
  assert (Hedge : 0 <= inject_Z (first - first)
                       * (waveWidth / inject_Z (last - first - 1))
                  /\ inject_Z (first - first)
                     * (waveWidth / inject_Z (last - first - 1))
                     <= waveWidth + halfPixel e)
    by (split; [exact A | lra]).
  apply Forall_app. split.
  { constructor; [exact I |].
    constructor; [exact Hedge |].
    constructor; [exact Hedge | constructor]. }
  apply Forall_app. split.
  { apply Forall_forall. intros op Hop. apply in_map_iff in Hop.
    destruct Hop as [i [E Hi]]. subst op.
    apply SliceFacts.zrange_In in Hi. destruct (Hx i Hi). split; lra. }
  apply Forall_app. split.
  { apply Forall_forall. intros op Hop. apply in_map_iff in Hop.
    destruct Hop as [i [E Hi]]. subst op.
    apply in_rev in Hi.
    apply SliceFacts.zrange_In in Hi. destruct (Hx i Hi). split; lra. }
  constructor; [exact Hedge |].
  constructor; [exact I |].
  constructor; [exact I | constructor].
Qed.

Lemma line_path_within_canvas_witness :
  Forall (fun op =>
            match op with
            | MoveTo x _ | LineTo x _ => 0 <= x /\ x <= 100 + (1 # 2)
            | _ => True
            end)
    (line_path Sample.last_entry 100 Sample.two_pairs 1 64 0).
Proof.
  apply (@line_path_within_canvas Sample.last_entry 100 Sample.two_pairs
           1 64 0).
  - vm_compute. discriminate.
  - vm_compute. discriminate.
  - vm_compute. reflexivity.
Defined.

End PathFacts.

(** ** Rectangles across surfaces (MultiCanvas.fillRect) *)

Module FillFacts.

Import MultiCanvas.

Lemma replace_nth_length (A : Type) (x : A) :
  forall n xs, length (replace_nth n x xs) = length xs.
Proof.
  intros n xs. revert n.
  induction xs as [|y rest IH]; intros [|n]; simpl; try reflexivity.
  rewrite IH. reflexivity.
Qed.

Lemma replace_nth_other (A : Type) (x : A) :
  forall n xs k, k <> n -> nth_error (replace_nth n x xs) k = nth_error xs k.
Proof.
  intros n xs. revert n.
  induction xs as [|y rest IH]; intros [|n] [|k] H; simpl; try reflexivity.
  - contradiction H; reflexivity.
  - apply IH. intro E. apply H. f_equal. exact E.
Qed.

Lemma setFillStyles_wave_width e wc pc e' w :
  CanvasEntry.setFillStyles e wc pc = Ok e' ->
  CanvasEntry.wave e = Some w ->
  exists w', CanvasEntry.wave e' = Some w' /\ cv_width w' = cv_width w.
Proof.
  intros H Hw. destruct e as [w0 p s f hp half dt dr]. simpl in Hw. subst w0.
  unfold CanvasEntry.setFillStyles in H. simpl in H.
  destruct hp; [destruct p as [p|]; cbn [bind deref] in H; [| discriminate] |];
    inversion H; subst; eexists; split; reflexivity.
Qed.

Lemma applyCanvasTransforms_wave_width e v e' w :
  CanvasEntry.applyCanvasTransforms e v = Ok e' ->
  CanvasEntry.wave e = Some w ->
  exists w', CanvasEntry.wave e' = Some w' /\ cv_width w' = cv_width w.
Proof.
  intros H Hw. destruct e as [w0 p s f hp half dt dr]. simpl in Hw. subst w0.
  unfold CanvasEntry.applyCanvasTransforms in H. simpl in H.
  destruct v; [| inversion H; subst; eexists; split; reflexivity].
  destruct hp; [destruct p as [p|]; cbn [bind deref] in H; [| discriminate] |];
    inversion H; subst; eexists; split; reflexivity.
Qed.

Lemma fillRect_at_result (x y width height radius : Q) (ch : Z) (m : t)
  (i : Z) (m' : t) :
  fillRect_at x y width height radius ch m i = Ok m' ->
  m' = m
  \/ exists e w lx lw lh,
      CanvasEntry.wave e = Some w
      /\ canvases m'
         = replace_nth (Z.to_nat i)
             (CanvasEntry.fillRects e lx y lw lh radius) (canvases m)
      /\ 0 <= lx /\ 0 < lw /\ lx + lw <= cv_width w /\ lh == height.
Proof.
  unfold fillRect_at, setFillStyles, applyCanvasTransforms. intro H.
  destruct (entry_at m i) as [e0|]; cbn [bind deref] in H; [| discriminate].
  destruct (CanvasEntry.wave e0) as [w|] eqn:Ew; cbn [bind deref] in H; [| discriminate].
  match type of H with
  | (if JS.ltb ?a ?b then _ else _) = _ =>
      destruct (JS.ltb a b) eqn:Elt; [| inversion H; left; reflexivity];
      set (x1 := a) in *; set (x2 := b) in *
  end.
  apply JSFacts.ltb_lt in Elt.
  match type of H with
  | bind ?r _ = _ => destruct r as [e1| |] eqn:E1; cbn [bind deref] in H; try discriminate
  end.
  destruct (setFillStyles_wave_width _ _ _ E1 Ew) as [w1 [Ew1 Hw1]].
  destruct (CanvasEntry.applyCanvasTransforms e1 (p_vertical (prm m)))
    as [e2| |] eqn:E2; cbn [bind deref] in H; try discriminate.
  destruct (applyCanvasTransforms_wave_width _ _ E2 Ew1) as [w2 [Ew2 Hw2]].
  inversion H; subst m'. clear H.
  right. exists e2, w2. eexists _, _, _.
  split; [exact Ew2 |]. split; [reflexivity |].
  assert (Hmax : inject_Z i * maxCanvasWidth m <= x1)
    by (unfold x1, JS.max; apply Q.le_max_r).
  assert (Hmin : x2 <= inject_Z i * maxCanvasWidth m + cv_width w)
    by (unfold x2, JS.min; apply Q.le_min_r).
  rewrite Hw2, Hw1.
  split; [lra |]. split; [lra |]. split; [lra | ring].
Qed.

Lemma fillRect_at_frame (x y width height radius : Q) (ch : Z) (m : t)
  (i : Z) (m' : t) :
  fillRect_at x y width height radius ch m i = Ok m' ->
  Pred.config m' = Pred.config m
  /\ progressWave m' = progressWave m
  /\ backupImage m' = backupImage m
  /\ length (canvases m') = length (canvases m)
  /\ (0 <= i)%Z
  /\ forall k, k <> Z.to_nat i ->
               nth_error (canvases m') k = nth_error (canvases m) k.
Proof.
  intro H.
  assert (Hi : (0 <= i)%Z).
  { unfold fillRect_at, entry_at in H.
    destruct (i <? 0)%Z eqn:E; [cbn [bind deref] in H; discriminate |].
    apply Z.ltb_ge in E. exact E. }
  destruct (fillRect_at_result _ _ _ _ _ _ _ _ H)
    as [E | [e [w [lx [lw [lh [_ [E _]]]]]]]].
  - subst m'. repeat split; try reflexivity. exact Hi.
  - assert (Hm : exists cs, m' = set_canvases m cs).
    { unfold fillRect_at, setFillStyles, applyCanvasTransforms in H.
      destruct (entry_at m i); cbn [bind deref] in H; [| discriminate].
      destruct (CanvasEntry.wave t0); cbn [bind deref] in H; [| discriminate].
      match type of H with
      | (if ?b then _ else _) = _ => destruct b
      end.
      - match type of H with
        | bind ?r _ = _ => destruct r; cbn [bind deref] in H; try discriminate
        end.
        match type of H with
        | bind ?r _ = _ => destruct r; cbn [bind deref] in H; try discriminate
        end.
        inversion H. eexists. reflexivity.
      - inversion H; subst.
        match goal with
        | |- exists cs, _ = set_canvases ?b cs =>
            exists (canvases b); destruct b; reflexivity
        end. }
    destruct Hm as [cs Hm]. subst m'. simpl in E. subst cs. simpl.
    repeat split; try reflexivity.
    + apply replace_nth_length.
    + exact Hi.
    + intros k Hk. apply replace_nth_other. exact Hk.
Qed.

(** The part of a rectangle that [fillRect] hands to the surface of index
    [i] is clipped to that surface: either nothing is drawn and the drawer is
    unchanged, or the surface receives a rectangle of positive width that
    starts at or after its left edge and ends at or before its bitmap width,
    with the height it was given. *)
Theorem fillRect_at_clips (x y width height radius : Q) (ch : Z) (m : t)
  (i : Z) (m' : t) :
  fillRect_at x y width height radius ch m i = Ok m' ->
  m' = m
  \/ exists e w lx lw lh,
      CanvasEntry.wave e = Some w
      /\ canvases m'
         = replace_nth (Z.to_nat i)
             (CanvasEntry.fillRects e lx y lw lh radius) (canvases m)
      /\ 0 <= lx /\ 0 < lw /\ lx + lw <= cv_width w /\ lh == height.
Proof.
  apply fillRect_at_result.
Qed.

(** [fillRect] changes nothing but surfaces whose index lies between
    [floor(x / maxCanvasWidth)] and
    [min(ceil((x + width) / maxCanvasWidth) + 1, count)]: the number of
    surfaces, every other surface, the progress wave and the backup image
    are as before. *)
Theorem fillRect_frame (m : t) (x y width height radius : Q) (ch : Z)
  (m' : t) :
  fillRect m x y width height radius ch = Ok m' ->
  length (canvases m') = length (canvases m)
  /\ progressWave m' = progressWave m
  /\ backupImage m' = backupImage m
  /\ Pred.config m' = Pred.config m
  /\ forall k,
       (Z.of_nat k < JS.floor (x / maxCanvasWidth m)
        \/ Z.min (JS.ceil ((x + width) / maxCanvasWidth m) + 1)
             (Z.of_nat (length (canvases m))) <= Z.of_nat k)%Z ->
       nth_error (canvases m') k = nth_error (canvases m) k.
Proof.
  unfold fillRect.
  set (lo := JS.floor (x / maxCanvasWidth m)).
  set (hi := Z.min (JS.ceil ((x + width) / maxCanvasWidth m) + 1)
               (Z.of_nat (length (canvases m)))).
  intro H.
  assert (Hgen : forall idx s s',
             (forall i, In i idx -> (lo <= i < hi)%Z) ->
             foldM (fillRect_at x y width height radius ch) idx s = Ok s' ->
             length (canvases s') = length (canvases s)
             /\ progressWave s' = progressWave s
             /\ backupImage s' = backupImage s
             /\ Pred.config s' = Pred.config s
             /\ forall k, (Z.of_nat k < lo \/ hi <= Z.of_nat k)%Z ->
                          nth_error (canvases s') k = nth_error (canvases s) k).
  { induction idx as [|i rest IH]; intros s s' Hin Hf; simpl in Hf.
    - inversion Hf; subst. repeat split; reflexivity.
    - destruct (fillRect_at x y width height radius ch s i) as [s1| |] eqn:E1;
        cbn [bind] in Hf; try discriminate.
      destruct (fillRect_at_frame _ _ _ _ _ _ _ _ E1)
        as [C1 [P1 [B1 [L1 [Hi N1]]]]].
      destruct (IH s1 s' (fun j Hj => Hin j (or_intror Hj)) Hf)
        as [L2 [P2 [B2 [C2 N2]]]].
      split; [congruence |]. split; [congruence |]. split; [congruence |].
      split; [congruence |].
      intros k Hk. rewrite (N2 k Hk). apply N1.
      specialize (Hin i (or_introl eq_refl)). lia. }
  apply (Hgen _ _ _ (fun i Hi => SliceFacts.zrange_In _ _ _ Hi) H).
Qed.

(** A rectangle that starts left of the origin and reaches it makes
    [fillRect] raise: the loop starts at a negative index, where the array of
    surfaces has no entry. *)
Theorem fillRect_left_of_origin_raises (m : t) (x y width height radius : Q)
  (ch : Z) :
  0 < maxCanvasWidth m -> x < 0 -> 0 <= x + width ->
  fillRect m x y width height radius ch = TypeError.
Proof.
  intros Hmax Hx Hxw. unfold fillRect.
  set (lo := JS.floor (x / maxCanvasWidth m)).
  set (hi := Z.min (JS.ceil ((x + width) / maxCanvasWidth m) + 1)
               (Z.of_nat (length (canvases m)))).
  assert (Hlo : (lo < 0)%Z).
  { unfold lo, JS.floor.
    pose proof (Qfloor_le (x / maxCanvasWidth m)) as Hf.
    assert (Hq : x / maxCanvasWidth m < 0).
    { apply Qlt_shift_div_r; [exact Hmax | lra]. }
    assert (Hz : inject_Z (Qfloor (x / maxCanvasWidth m)) < inject_Z 0)
      by (change (inject_Z 0) with 0; lra).
    rewrite <- Zlt_Qlt in Hz. exact Hz. }
  assert (Hhi : (0 <= hi)%Z).
  { unfold hi. apply Z.min_glb; [| lia].
    assert (0 <= JS.ceil ((x + width) / maxCanvasWidth m))%Z; [| lia].
    apply JSFacts.ceil_nonneg.
    apply Qle_shift_div_l; [exact Hmax | lra]. }
  unfold CanvasEntry.zrange.
  destruct (Z.to_nat (hi - lo)) as [|n] eqn:En; [lia |].
  simpl. replace (lo + 0)%Z with lo by lia.
  unfold fillRect_at at 1, entry_at.
  apply Z.ltb_lt in Hlo. rewrite Hlo. reflexivity.
Qed.

Lemma fillRect_at_clips_witness :
  Sample.drawer_filled = Sample.drawer_resized
  \/ exists e w lx lw lh,
      CanvasEntry.wave e = Some w
      /\ canvases Sample.drawer_filled
         = replace_nth (Z.to_nat 0)
             (CanvasEntry.fillRects e lx 10 lw lh 0)
             (canvases Sample.drawer_resized)
      /\ 0 <= lx /\ 0 < lw /\ lx + lw <= cv_width w /\ lh == -5.
Proof.
  apply (@fillRect_at_clips 10 10 30 (-5) 0 0 Sample.drawer_resized 0
           Sample.drawer_filled).
  vm_compute. reflexivity.
Defined.

Lemma fillRect_frame_witness :
  length (canvases Sample.drawer_filled)
  = length (canvases Sample.drawer_resized)
  /\ nth_error (canvases Sample.drawer_filled) 2
     = nth_error (canvases Sample.drawer_resized) 2.
Proof.
  assert (Hrun : fillRect Sample.drawer_resized 10 10 30 (-5) 0 0
                 = Ok Sample.drawer_filled) by (vm_compute; reflexivity).
  destruct (@fillRect_frame _ _ _ _ _ _ _ _ Hrun) as [A [_ [_ [_ B]]]].
  split; [exact A |]. apply B. right. vm_compute. discriminate.
Defined.

Lemma fillRect_left_of_origin_raises_witness :
  fillRect Sample.drawer_resized (-1) 10 30 5 0 0 = TypeError.
Proof.
  apply fillRect_left_of_origin_raises.
  - vm_compute. reflexivity.
  - vm_compute. reflexivity.
  - vm_compute. discriminate.
Defined.

End FillFacts.

(** ** Staggered redraws (drawLine and its timers) *)

Module TimerFacts.

Import MultiCanvas.

Lemma forEach_post (A : Type) (P : A -> Prop) (f : A -> result A) :
  (forall x x', f x = Ok x' -> P x') ->
  forall xs ys,
    forEach f xs = Ok ys -> Forall P ys /\ length ys = length xs.
Proof.
  intro Hf. induction xs as [|x rest IH]; simpl; intros ys H.
  - inversion H. split; [constructor | reflexivity].
  - destruct (f x) as [x'| |] eqn:Ex; cbn [bind] in H; try discriminate.
    destruct (forEach f rest) as [rest'| |]; cbn [bind] in H;
      try discriminate.
    inversion H; subst. destruct (IH rest' eq_refl) as [A1 A2].
    split; [constructor; [eapply Hf; exact Ex | exact A1] |].
    simpl. f_equal. exact A2.
Qed.

(** The redraw priority of a canvas is 0 when it meets the viewport and at
    least 1 when it lies wholly to the right or to the left of it, so that a
    surface out of view is redrawn at least 50 ms later. *)
Theorem priority_off_screen (m : t) (c : canvas) :
  0 < wr_width (wrapper m) ->
  ((JS.floor (fst (canvas_rect m c))
    >? JS.ceil (wr_left (wrapper m) + wr_width (wrapper m)))%Z = true ->
   1 <= priority m c)
  /\ ((JS.floor (fst (canvas_rect m c))
       >? JS.ceil (wr_left (wrapper m) + wr_width (wrapper m)))%Z = false ->
      (JS.ceil (snd (canvas_rect m c)) <? JS.floor (wr_left (wrapper m)))%Z
      = true ->
      1 <= priority m c)
  /\ ((JS.floor (fst (canvas_rect m c))
       >? JS.ceil (wr_left (wrapper m) + wr_width (wrapper m)))%Z = false ->
      (JS.ceil (snd (canvas_rect m c)) <? JS.floor (wr_left (wrapper m)))%Z
      = false ->
      priority m c = 0)
  /\ 0 <= priority m c.
Proof.
  intro Hw. unfold priority.
  destruct (canvas_rect m c) as [cleft cright]. cbn [fst snd].
  set (wright := wr_left (wrapper m) + wr_width (wrapper m)).
  set (wleft := wr_left (wrapper m)).
  assert (Hone : forall d, 0 < d ->
                 1 <= inject_Z (JS.ceil (d / wr_width (wrapper m)))).
  { intros d Hd.
    assert (Hq : 0 < d / wr_width (wrapper m))
      by (apply Qlt_shift_div_l; [exact Hw | lra]).
    pose proof (BarFacts.ceil_pos Hq) as Hc.
    change 1 with (inject_Z 1). rewrite <- Zle_Qle. exact Hc. }
  destruct (JS.floor cleft >? JS.ceil wright)%Z eqn:E1.
  - assert (Hd : 0 < cleft - wright).
    { rewrite Z.gtb_ltb in E1. apply Z.ltb_lt in E1.
      pose proof (Qfloor_le cleft). pose proof (Qle_ceiling wright).
      rewrite Zlt_Qlt in E1. unfold JS.floor, JS.ceil in E1. lra. }
    pose proof (Hone _ Hd).
    repeat split; try discriminate; try (intros; assumption); lra.
  - destruct (JS.ceil cright <? JS.floor wleft)%Z eqn:E2.
    + assert (Hd : 0 < wleft - cright).
      { apply Z.ltb_lt in E2.
        pose proof (Qfloor_le wleft). pose proof (Qle_ceiling cright).
        rewrite Zlt_Qlt in E2. unfold JS.floor, JS.ceil in E2. lra. }
      pose proof (Hone _ Hd).
      repeat split; try discriminate; try (intros; assumption); lra.
    + repeat split; try discriminate; try (intros; reflexivity).
Qed.

Lemma priority_off_screen_witness :
  1 <= priority Sample.drawer_resized (new_canvas 4002).
Proof.
  assert (Hw : 0 < wr_width (wrapper Sample.drawer_resized))
    by (vm_compute; reflexivity).
  destruct (@priority_off_screen Sample.drawer_resized (new_canvas 4002) Hw)
    as [A _].
  apply A. vm_compute. reflexivity.
Defined.

Lemma forEach_Forall2 (A : Type) (R : A -> A -> Prop) (f : A -> result A) :
  (forall x x', f x = Ok x' -> R x x') ->
  forall xs ys, forEach f xs = Ok ys -> Forall2 R xs ys.
Proof.
  intro Hf. induction xs as [|x rest IH]; simpl; intros ys H.
  - inversion H. constructor.
  - destruct (f x) as [x'| |] eqn:Ex; cbn [bind] in H; try discriminate.
    destruct (forEach f rest) as [rest'| |]; cbn [bind] in H;
      try discriminate.
    inversion H; subst. constructor; [apply Hf; exact Ex | apply IH; reflexivity].
Qed.

(** Unfolding of the operations of [drawLine] on an entry given field by
    field. *)
Ltac timer_ops :=
  cbv beta iota zeta delta
      [bind deref fst snd
       CanvasEntry.wave CanvasEntry.progress CanvasEntry.start
       CanvasEntry.end_ CanvasEntry.hasProgressCanvas CanvasEntry.halfPixel
       CanvasEntry.drawTimeout CanvasEntry.drawn
       CanvasEntry.set_wave CanvasEntry.set_progress CanvasEntry.set_range
       CanvasEntry.set_drawn CanvasEntry.set_flags CanvasEntry.set_drawTimeout
       CanvasEntry.clearWave CanvasEntry.setBackimage
       CanvasEntry.setFillStyles CanvasEntry.applyCanvasTransforms
       CanvasEntry.drawLines CanvasEntry.drawLineToContext
       CanvasEntry.getImage CanvasEntry.getProgressImage
       CanvasEntry.canvas_image
       drawLine_entry setFillStyles applyCanvasTransforms timeout_callback
       set_backimage_src call cv_backimage] in *.

Lemma drawLine_entry_schedules (m : t) (peaks : list Q)
  (absmax halfH offsetY start : Q) (end_ : option Q) (ch : Z)
  (e e' : CanvasEntry.t) :
  drawLine_entry m peaks absmax halfH offsetY start end_ ch e = Ok e' ->
  CanvasEntry.drawn e' = false
  /\ (exists w,
        CanvasEntry.wave e = Some w
        /\ CanvasEntry.drawTimeout e'
           = Some {| d_peaks := peaks; d_absmax := absmax; d_halfH := halfH;
                     d_offsetY := offsetY; d_start := start; d_end := end_;
                     d_delay := 50 * priority m w |})
  /\ (exists w',
        CanvasEntry.wave e' = Some w'
        /\ cv_backimage w' = Some {| img_src := EmptyURL |})
  /\ CanvasEntry.start e' = CanvasEntry.start e
  /\ CanvasEntry.end_ e' = CanvasEntry.end_ e.
Proof.
  intro H.
  destruct e as [[w|] [p|] s f [|] half dt dr];
    timer_ops; try discriminate H;
    destruct (p_vertical (prm m)); timer_ops; try discriminate H;
    inversion H; subst; clear H;
    (split; [reflexivity |]);
    (split; [eexists; split; reflexivity |]);
    (split; [eexists; split; reflexivity |]);
    split; reflexivity.
Qed.

(** [drawLine] leaves every surface cleared, not drawn and without a back
    image, with one pending redraw that carries the arguments of this call
    and a delay of 50 ms times the priority of the surface; whatever redraw
    was pending before is replaced.  The surfaces keep their number and the
    fractions they own. *)
Theorem drawLine_schedules (m : t) (peaks : list Q)
  (absmax halfH offsetY start : Q) (end_ : option Q) (ch : Z) (m' : t) :
  drawLine m peaks absmax halfH offsetY start end_ ch = Ok m' ->
  Forall2
    (fun e e' =>
       CanvasEntry.drawn e' = false
       /\ (exists w,
             CanvasEntry.wave e = Some w
             /\ CanvasEntry.drawTimeout e'
                = Some {| d_peaks := peaks; d_absmax := absmax;
                          d_halfH := halfH; d_offsetY := offsetY;
                          d_start := start; d_end := end_;
                          d_delay := 50 * priority m w |})
       /\ (exists w',
             CanvasEntry.wave e' = Some w'
             /\ cv_backimage w' = Some {| img_src := EmptyURL |})
       /\ CanvasEntry.start e' = CanvasEntry.start e
       /\ CanvasEntry.end_ e' = CanvasEntry.end_ e)
    (canvases m) (canvases m').
Proof.
  unfold drawLine. intro H.
  match type of H with
  | bind ?r _ = _ => destruct r as [es| |] eqn:E; cbn [bind] in H;
                       try discriminate
  end.
  inversion H; subst. simpl.
  eapply forEach_Forall2; [| exact E].
  intros x x'. apply drawLine_entry_schedules.
Qed.

Lemma Forall2_right (A : Type) (R : A -> A -> Prop) (P : A -> Prop) :
  (forall x y, R x y -> P y) ->
  forall xs ys, Forall2 R xs ys -> Forall P ys.
Proof.
  intros HR xs ys H. induction H; constructor; eauto.
Qed.

Lemma drawLine_schedules_witness :
  Forall (fun e' => CanvasEntry.drawn e' = false
                    /\ exists d, CanvasEntry.drawTimeout e' = Some d
                                 /\ d_peaks d = Sample.two_pairs)
    (canvases Sample.drawer_lined).
Proof.
  assert (Hrun : drawLine Sample.drawer_resized Sample.two_pairs 1 64 0 0
                   (Some 100) 0 = Ok Sample.drawer_lined)
    by (vm_compute; reflexivity).
  eapply Forall2_right; [| exact (drawLine_schedules _ _ _ _ _ _ _ _ Hrun)].
  intros x y [Hd [[w [_ Ht]] _]]. split; [exact Hd |].
  eexists. split; [exact Ht | reflexivity].
Defined.

(** When the timer of a surface with both canvases fires, the callback
    draws the line on both, stores as back image of each canvas a snapshot
    of that canvas as just drawn, marks the surface drawn and clears the
    timer. *)
Theorem redraw_callback_snapshots (e : CanvasEntry.t) (w p : canvas)
  (d : deferred) :
  CanvasEntry.wave e = Some w ->
  CanvasEntry.progress e = Some p ->
  CanvasEntry.hasProgressCanvas e = true ->
  CanvasEntry.drawTimeout e = Some d ->
  exists e' w' p',
    timeout_callback e = Ok e'
    /\ CanvasEntry.drawn e' = true
    /\ CanvasEntry.drawTimeout e' = None
    /\ CanvasEntry.wave e' = Some w'
    /\ CanvasEntry.progress e' = Some p'
    /\ cv_calls w'
       = cv_calls w ++ CanvasEntry.line_path e (cv_width w) (d_peaks d)
                         (d_absmax d) (d_halfH d) (d_offsetY d)
    /\ cv_backimage w'
       = Some {| img_src := Encoded "image/png" 1 (cv_width w) (cv_height w)
                              (cv_calls w') |}
    /\ cv_backimage p'
       = Some {| img_src := Encoded "image/png" 1 (cv_width p) (cv_height p)
                              (cv_calls p') |}.
Proof.
  intros Hw Hp Hhp Hd.
  destruct e as [w0 p0 s f hp half dt dr]. simpl in Hw, Hp, Hhp, Hd. subst.
  eexists _, _, _. split; [reflexivity |].
  repeat split; reflexivity.
Qed.

Lemma redraw_callback_snapshots_witness :
  exists e',
    timeout_callback Sample.pending_entry = Ok e'
    /\ CanvasEntry.drawn e' = true
    /\ CanvasEntry.drawTimeout e' = None.
Proof.
  destruct (@redraw_callback_snapshots Sample.pending_entry (new_canvas 0)
              (new_canvas 0) _ eq_refl eq_refl eq_refl eq_refl)
    as [e' [w' [p' [A [B [C _]]]]]].
  exists e'. split; [exact A |]. split; [exact B | exact C].
Defined.

End TimerFacts.

(** ** The backup image (setBackupImage) *)

Module BackupFacts.

Import MultiCanvas.

Lemma collect_dataURLs_waves (es : list CanvasEntry.t) :
  Forall Pred.has_wave es ->
  collect_dataURLs es
  = Ok (Some (map (Pred.wave_url (Some "image/png"%string) (Some 1)) es)).
Proof.
  induction 1 as [|e rest He _ IH]; [reflexivity |].
  unfold Pred.has_wave in He.
  destruct e as [[c|] p s f hp half dt dr];
    [| contradiction He; reflexivity].
  cbn [collect_dataURLs]. rewrite IH. reflexivity.
Qed.

(** Once every surface is drawn (and there is at least one), the first
    [setBackupImage] stores one image per surface, in order, each holding
    the snapshot of the wave canvas of its surface; the surfaces themselves
    are not touched. *)
Theorem setBackupImage_stores_snapshots (m : t) :
  backupImage m = None ->
  canvases m <> [] ->
  Forall (fun e => CanvasEntry.drawn e = true) (canvases m) ->
  Forall Pred.has_wave (canvases m) ->
  exists m',
    setBackupImage m = Ok m'
    /\ canvases m' = canvases m
    /\ backupImage m'
       = Some (map (fun e =>
                      {| img_src := Pred.wave_url (Some "image/png"%string)
                                      (Some 1) e |})
                 (canvases m)).
Proof.
  intros Hb Hne Hdr Hw. unfold setBackupImage. rewrite Hb.
  assert (E1 : forallb CanvasEntry.drawn (canvases m) = true)
    by (apply forallb_forall; rewrite Forall_forall in Hdr; exact Hdr).
  assert (E2 : (length (canvases m) <? 1)%nat = false).
  { apply Nat.ltb_ge. destruct (canvases m); [contradiction Hne; reflexivity |].
    simpl. lia. }
  rewrite E1, E2. cbn [negb orb].
  rewrite (collect_dataURLs_waves Hw). cbn [bind].
  eexists. split; [reflexivity |]. split; [reflexivity |].
  cbn [backupImage set_backupImage]. rewrite map_map. reflexivity.
Qed.

(** [setBackupImage] settles: once it has returned, calling it again
    changes nothing, whether it stored the images, found them stored
    already, or gave up for now because some surface is not drawn. *)
Theorem setBackupImage_settles (m m1 : t) :
  setBackupImage m = Ok m1 -> setBackupImage m1 = Ok m1.
Proof.
  unfold setBackupImage at 1. intro H.
  destruct (backupImage m) as [b|] eqn:Eb.
  - inversion H; subst. unfold setBackupImage. rewrite Eb. reflexivity.
  - destruct (negb (forallb CanvasEntry.drawn (canvases m))
              || (length (canvases m) <? 1)%nat) eqn:Er.
    + inversion H; subst. unfold setBackupImage. rewrite Eb, Er. reflexivity.
    + destruct (collect_dataURLs (canvases m)) as [[us|]| |] eqn:Ec;
        cbn [bind] in H; try discriminate; inversion H; subst.
      * unfold setBackupImage. reflexivity.
      * unfold setBackupImage. rewrite Eb, Er, Ec. reflexivity.
Qed.

Lemma setBackupImage_stores_snapshots_witness :
  exists m',
    setBackupImage Sample.drawer_drawn = Ok m'
    /\ option_map (@length image) (backupImage m') = Some 3%nat.
Proof.
  destruct (@setBackupImage_stores_snapshots Sample.drawer_drawn)
    as [m' [A [_ B]]].
  - vm_compute. reflexivity.
  - vm_compute. discriminate.
  - vm_compute. repeat constructor.
  - vm_compute. repeat (constructor; [discriminate |]). constructor.
  - exists m'. split; [exact A |]. rewrite B. vm_compute. reflexivity.
Defined.

Lemma setBackupImage_settles_witness :
  exists m1,
    setBackupImage Sample.drawer_drawn = Ok m1 /\ setBackupImage m1 = Ok m1.
Proof.
  eexists. split; [vm_compute; reflexivity |].
  apply (@setBackupImage_settles Sample.drawer_drawn).
  vm_compute. reflexivity.
Defined.

(** Right after [drawLine] the backup image cannot be taken: every surface
    has been cleared and waits for its redraw, so [setBackupImage] leaves the
    drawer as it is and tries again later. *)
Theorem setBackupImage_waits_for_redraw (m : t) (peaks : list Q)
  (absmax halfH offsetY start : Q) (end_ : option Q) (ch : Z) (m' : t) :
  drawLine m peaks absmax halfH offsetY start end_ ch = Ok m' ->
  setBackupImage m' = Ok m'.
Proof.
  intro H. unfold setBackupImage.
  destruct (backupImage m'); [reflexivity |].
  assert (Hd : Forall (fun e => CanvasEntry.drawn e = false) (canvases m')).
  { unfold drawLine in H.
    match type of H with
    | bind ?r _ = _ => destruct r as [es| |] eqn:E; cbn [bind] in H;
                         try discriminate
    end.
    inversion H; subst. simpl.
    eapply TimerFacts.Forall2_right;
      [| eapply TimerFacts.forEach_Forall2; [| exact E]].
    - intros x y Hxy. exact Hxy.
    - intros x x' Hx.
      exact (proj1 (TimerFacts.drawLine_entry_schedules _ _ _ _ _ _ _ _ _ Hx)). }
  destruct (canvases m') as [|e rest]; [reflexivity |].
  inversion Hd as [|? ? He _]; subst.
  cbn [forallb]. rewrite He. reflexivity.
Qed.

Lemma setBackupImage_waits_for_redraw_witness :
  setBackupImage Sample.drawer_lined = Ok Sample.drawer_lined.
Proof.
  apply (@setBackupImage_waits_for_redraw Sample.drawer_resized
           Sample.two_pairs 1 64 0 0 (Some 100) 0).
  vm_compute. reflexivity.
Defined.

End BackupFacts.

(** ** The layout a resize leaves (updateSize) *)

Module LayoutFacts.

Import MultiCanvas.

(** A canvas as the layout loop leaves it: placed, sized and cleared. *)
Ltac layout_ops :=
  cbv beta iota zeta delta
      [bind deref fst snd
       CanvasEntry.wave CanvasEntry.progress CanvasEntry.start
       CanvasEntry.end_ CanvasEntry.hasProgressCanvas CanvasEntry.halfPixel
       CanvasEntry.drawTimeout CanvasEntry.drawn
       CanvasEntry.set_wave CanvasEntry.set_progress CanvasEntry.set_range
       CanvasEntry.set_drawn CanvasEntry.set_flags CanvasEntry.set_drawTimeout
       set_style_left set_style_width set_size set_backimage_src call
       cv_left cv_width cv_height cv_style_width cv_backimage cv_calls] in *.

Lemma layout_entry_result (m : t) (lastCanvas i : Z) (cw lo : Q)
  (e : CanvasEntry.t) (m' : t) (e' : CanvasEntry.t) (cw' lo' : Q) :
  layout_entry m lastCanvas i cw lo e = Ok (m', e', cw', lo') ->
  cw' = (if (i =? lastCanvas)%Z
         then width m - maxCanvasWidth m * inject_Z lastCanvas else cw)
  /\ lo' = lo + cw' / pixelRatio (prm m)
  /\ Pred.config m' = Pred.config m
  /\ CanvasEntry.drawn e' = false
  /\ CanvasEntry.drawTimeout e' = CanvasEntry.drawTimeout e
  /\ CanvasEntry.hasProgressCanvas e' = CanvasEntry.hasProgressCanvas e
  /\ (exists c,
        CanvasEntry.wave e' = Some c
        /\ cv_left c = lo /\ cv_width c = cw' /\ cv_height c = height m
        /\ cv_style_width c
           = Some (inject_Z (JS.round (cw' / pixelRatio (prm m))))
        /\ cv_backimage c = Some {| img_src := EmptyURL |})
  /\ (CanvasEntry.hasProgressCanvas e = true ->
      exists c,
        CanvasEntry.progress e' = Some c
        /\ cv_left c = lo /\ cv_width c = cw' /\ cv_height c = height m
        /\ cv_style_width c
           = Some (inject_Z (JS.round (cw' / pixelRatio (prm m))))
        /\ cv_backimage c = Some {| img_src := EmptyURL |}).
Proof.
  intro H.
  unfold layout_entry, updateDimensions, CanvasEntry.setLeft,
    CanvasEntry.updateDimensions, CanvasEntry.clearWave,
    CanvasEntry.setBackimage in H.
  destruct e as [[w|] [p|] s f [|] half dt dr];
    layout_ops; try discriminate H;
    destruct (progressWave m) as [pw|]; layout_ops; try discriminate H;
    inversion H; subst; clear H;
    (split; [reflexivity |]); (split; [reflexivity |]);
    (split; [reflexivity |]); (split; [reflexivity |]);
    (split; [reflexivity |]); (split; [reflexivity |]);
    (split; [eexists; repeat split; reflexivity |]);
    intro A; try discriminate A; eexists; repeat split; reflexivity.
Qed.

Lemma layout_entries_result (lastCanvas : Z) :
  forall es m i cw lo m' es',
    layout_entries m lastCanvas i cw lo es = Ok (m', es') ->
    lastCanvas = (i + Z.of_nat (length es) - 1)%Z ->
    length es' = length es
    /\ forall j e',
        nth_error es' j = Some e' ->
        CanvasEntry.drawn e' = false
        /\ (exists c,
              CanvasEntry.wave e' = Some c
              /\ cv_left c
                 == lo + inject_Z (Z.of_nat j) * (cw / pixelRatio (prm m))
              /\ cv_width c
                 = (if (i + Z.of_nat j =? lastCanvas)%Z
                    then width m - maxCanvasWidth m * inject_Z lastCanvas
                    else cw)
              /\ cv_height c = height m
              /\ cv_style_width c
                 = Some (inject_Z (JS.round (cv_width c / pixelRatio (prm m))))
              /\ cv_backimage c = Some {| img_src := EmptyURL |})
        /\ (CanvasEntry.hasProgressCanvas e' = true ->
            exists c,
              CanvasEntry.progress e' = Some c
              /\ cv_backimage c = Some {| img_src := EmptyURL |}).
Proof.
  induction es as [|e rest IH]; intros m i cw lo m' es' H Hlast; simpl in H.
  - inversion H; subst. split; [reflexivity |].
    intros j e' Hj. destruct j; discriminate Hj.
  - destruct (layout_entry m lastCanvas i cw lo e)
      as [[[[m1 e1] cw1] lo1]| |] eqn:E1; cbn [bind] in H; try discriminate.
    destruct (layout_entries m1 lastCanvas (i + 1) cw1 lo1 rest)
      as [[m3 rest']| |] eqn:E3; cbn [bind] in H; try discriminate.
    inversion H; subst m' es'. clear H.
    destruct (@layout_entry_result _ _ _ _ _ _ _ _ _ _ E1)
      as [Hcw [Hlo [Hc [Hd [_ [Hhp [[c [Ec [L1 [L2 [L3 [L4 L5]]]]]] Hp]]]]]]].
    destruct (SizeFacts.config_fields Hc)
      as [Cp [Cw [Ch [Cm _]]]].
    assert (Hlast' : lastCanvas = (i + 1 + Z.of_nat (length rest) - 1)%Z)
      by (simpl length in Hlast; lia).
    destruct (IH m1 (i + 1)%Z cw1 lo1 m3 rest' E3 Hlast') as [Hlen Hrest].
    split; [simpl; f_equal; exact Hlen |].
    intros [|j] e' Hj.
    + simpl in Hj. inversion Hj; subst e'. clear Hj.
      split; [exact Hd |]. split.
      * exists c. split; [exact Ec |].
        split; [rewrite L1; change (inject_Z (Z.of_nat 0)) with 0; ring |].
        replace (i + Z.of_nat 0)%Z with i by lia.
        split; [rewrite L2; exact Hcw |]. split; [exact L3 |].
        split; [rewrite L4, L2; reflexivity | exact L5].
      * intro A. rewrite Hhp in A. destruct (Hp A) as [pc [Epc [_ [_ [_ [_ B]]]]]].
        exists pc. split; assumption.
    + simpl in Hj.
      assert (Hne : (i <> lastCanvas)%Z).
      { assert (length rest' <> 0)%nat
          by (destruct rest'; [destruct j; discriminate Hj | discriminate]).
        simpl length in Hlast. lia. }
      apply Z.eqb_neq in Hne. rewrite Hne in Hcw. subst cw1.
      destruct (Hrest j e' Hj) as [R1 [[c' [Ec' [M1 [M2 [M3 [M4 M5]]]]]] R3]].
      split; [exact R1 |]. split; [| exact R3].
      exists c'. split; [exact Ec' |].
      rewrite Cp, Cw, Ch, Cm in *.
      split.
      * rewrite M1, Hlo. rewrite Nat2Z.inj_succ. unfold Z.succ.
        rewrite inject_Z_plus. change (inject_Z 1) with 1. ring.
      * replace (i + Z.of_nat (S j))%Z with (i + 1 + Z.of_nat j)%Z by lia.
        split; [exact M2 |]. split; [exact M3 |]. split; [exact M4 | exact M5].
Qed.

Lemma resize_inversion (fuel : nat) (m : t) (w h : Q) (m1 : t) :
  resize fuel w h m = Ok m1 ->
  exists mb m',
    Pred.config mb = Pred.config (set_dims m w h)
    /\ layout_entries mb (Z.of_nat (length (canvases mb)) - 1) 0
         (maxCanvasWidth mb + overlap mb) 0 (canvases mb)
       = Ok (m', canvases m1).
Proof.
  unfold resize, updateSize. set (m0 := set_dims m w h). intro H.
  match type of H with
  | bind (while fuel ?c addCanvas m0) _ = _ =>
      destruct (while fuel c addCanvas m0) as [ma| |] eqn:Ea; cbn [bind] in H;
        try discriminate
  end.
  match type of H with
  | bind (while fuel ?c removeCanvas ma) _ = _ =>
      destruct (while fuel c removeCanvas ma) as [mb| |] eqn:Eb;
        cbn [bind] in H; try discriminate
  end.
  match type of H with
  | bind ?r _ = _ => destruct r as [[m' es]| |] eqn:El; cbn [bind] in H;
                       try discriminate
  end.
  inversion H; subst m1. clear H.
  exists mb, m'. split; [| exact El].
  assert (Hca : Pred.config ma = Pred.config m0).
  { eapply (SizeFacts.while_invariant
              (fun s => Pred.config s = Pred.config m0));
      [| reflexivity | exact Ea].
    intros s s' Hs _ Hb. rewrite <- Hs. apply SizeFacts.addCanvas_config.
    exact Hb. }
  eapply (SizeFacts.while_invariant (fun s => Pred.config s = Pred.config m0));
    [| exact Hca | exact Eb].
  intros s s' Hs _ Hb. rewrite <- Hs. apply SizeFacts.removeCanvas_config.
  exact Hb.
Qed.

(** After a resize the surfaces lie side by side with nothing between them:
    the surface of index [j] is placed at [j] times
    [(maxCanvasWidth + overlap) / pixelRatio] element pixels; every surface
    but the last is [maxCanvasWidth + overlap] device pixels wide, the last
    takes [width - maxCanvasWidth * (count - 1)]; all have the height of the
    drawer, and an element width that is the bitmap width over the pixel
    ratio, rounded. *)
Theorem resize_layout (fuel : nat) (m : t) (w h : Q) (m1 : t) :
  resize fuel w h m = Ok m1 ->
  forall j e,
    nth_error (canvases m1) j = Some e ->
    exists c,
      CanvasEntry.wave e = Some c
      /\ cv_left c
         == inject_Z (Z.of_nat j)
            * ((maxCanvasWidth m + overlap m) / pixelRatio (prm m))
      /\ cv_width c
         = (if (Z.of_nat j =? Z.of_nat (length (canvases m1)) - 1)%Z
            then w - maxCanvasWidth m
                     * inject_Z (Z.of_nat (length (canvases m1)) - 1)
            else maxCanvasWidth m + overlap m)
      /\ cv_height c = h
      /\ cv_style_width c
         = Some (inject_Z (JS.round (cv_width c / pixelRatio (prm m)))).
Proof.
  intros H j e Hj.
  destruct (resize_inversion _ _ _ _ H) as [mb [m' [Hc El]]].
  destruct (SizeFacts.config_fields Hc)
    as [Cp [Cw [Ch [Cm [_ [_ [Co _]]]]]]].
  change (width (set_dims m w h)) with w in Cw.
  change (height (set_dims m w h)) with h in Ch.
  change (prm (set_dims m w h)) with (prm m) in Cp.
  change (maxCanvasWidth (set_dims m w h)) with (maxCanvasWidth m) in Cm.
  change (overlap (set_dims m w h)) with (overlap m) in Co.
  destruct (@layout_entries_result _ _ _ _ _ _ _ _ El)
    as [Hlen Hres]; [lia |].
  destruct (Hres j e Hj) as [_ [[c [Ec [L1 [L2 [L3 [L4 _]]]]]] _]].
  exists c. split; [exact Ec |].
  rewrite Cp, Cw, Ch, Cm, Co in *. rewrite Hlen.
  split; [rewrite L1; ring |].
  replace (0 + Z.of_nat j)%Z with (Z.of_nat j) in L2 by lia.
  split; [exact L2 |]. split; [exact L3 | exact L4].
Qed.

(** A resize clears every surface: none is drawn any more, and the back
    images of its wave canvas and of its progress canvas are emptied. *)
Theorem resize_clears (fuel : nat) (m : t) (w h : Q) (m1 : t) :
  resize fuel w h m = Ok m1 ->
  Forall (fun e =>
            CanvasEntry.drawn e = false
            /\ (exists c, CanvasEntry.wave e = Some c
                          /\ cv_backimage c = Some {| img_src := EmptyURL |})
            /\ (CanvasEntry.hasProgressCanvas e = true ->
                exists c, CanvasEntry.progress e = Some c
                          /\ cv_backimage c
                             = Some {| img_src := EmptyURL |}))
    (canvases m1).
Proof.
  intro H.
  destruct (resize_inversion _ _ _ _ H) as [mb [m' [Hc El]]].
  destruct (@layout_entries_result _ _ _ _ _ _ _ _ El)
    as [Hlen Hres]; [lia |].
  apply Forall_forall. intros e He.
  apply In_nth_error in He. destruct He as [j Hj].
  destruct (Hres j e Hj) as [R1 [[c [Ec [_ [_ [_ [_ L5]]]]]] R3]].
  split; [exact R1 |]. split; [exists c; split; assumption | exact R3].
Qed.

Lemma resize_layout_witness :
  exists c,
    CanvasEntry.wave
      (nth 2 (canvases Sample.drawer_resized) CanvasEntry.new) = Some c
    /\ cv_left c == 8004
    /\ cv_width c = 10000 - 4000 * inject_Z (3 - 1).
Proof.
  assert (Hrun : resize 10 10000 128 Sample.drawer_ready
                 = Ok Sample.drawer_resized) by (vm_compute; reflexivity).
  destruct (@resize_layout _ _ _ _ _ Hrun 2%nat
              (nth 2 (canvases Sample.drawer_resized) CanvasEntry.new))
    as [c [A [B [C _]]]].
  - vm_compute. reflexivity.
  - exists c. split; [exact A |]. split.
    + rewrite B. vm_compute. reflexivity.
    + rewrite C. vm_compute. reflexivity.
Defined.

Lemma resize_clears_witness :
  Forall (fun e => CanvasEntry.drawn e = false)
    (canvases Sample.drawer_resized).
Proof.
  assert (Hrun : resize 10 10000 128 Sample.drawer_ready
                 = Ok Sample.drawer_resized) by (vm_compute; reflexivity).
  eapply Forall_impl; [| exact (resize_clears _ _ _ _ Hrun)].
  intros e [A _]. exact A.
Defined.

End LayoutFacts.

(** ** Adding and removing surfaces *)

Module SurfaceFacts.

Import MultiCanvas.

(** [removeCanvas] undoes [addCanvas]: the surface just added is the one
    that is popped, and the drawer is as it was before. *)
Theorem removeCanvas_undoes_addCanvas (m m1 : t) :
  addCanvas m = Ok m1 -> removeCanvas m1 = Ok m.
Proof.
  unfold addCanvas. intro H.
  assert (Hlast : forall (e : CanvasEntry.t),
             last (map Some (canvases m ++ [e])) None = Some e).
  { intro e. rewrite map_app. simpl. apply last_last. }
  destruct (hasProgressCanvas m) eqn:Ehp.
  - destruct (progressWave m) as [pw|] eqn:Epw; cbn [bind deref] in H;
      [| discriminate].
    inversion H; subst m1; clear H.
    unfold removeCanvas.
    replace (hasProgressCanvas (set_canvases m _)) with true
      by (symmetry; exact Ehp).
    cbn [canvases set_canvases]. rewrite Hlast, removelast_last.
    cbn. destruct m; reflexivity.
  - cbn [bind] in H. inversion H; subst m1; clear H.
    unfold removeCanvas.
    replace (hasProgressCanvas (set_canvases m _)) with false
      by (symmetry; exact Ehp).
    cbn [canvases set_canvases]. rewrite Hlast, removelast_last.
    cbn. destruct m; reflexivity.
Qed.

Lemma removeCanvas_undoes_addCanvas_witness :
  removeCanvas
    (match addCanvas Sample.drawer_ready with
     | Ok m => m
     | _ => Sample.drawer_ready
     end)
  = Ok Sample.drawer_ready.
Proof.
  apply removeCanvas_undoes_addCanvas. vm_compute. reflexivity.
Defined.

(** On a drawer without surfaces [removeCanvas] raises: the last entry is
    dereferenced before the test that guards its clean-up. *)
Theorem removeCanvas_without_surfaces_raises (m : t) :
  canvases m = [] -> removeCanvas m = TypeError.
Proof.
  intro H. unfold removeCanvas. rewrite H. reflexivity.
Qed.

Lemma removeCanvas_without_surfaces_raises_witness :
  removeCanvas Sample.drawer_empty = TypeError.
Proof.
  apply removeCanvas_without_surfaces_raises. vm_compute. reflexivity.
Defined.

End SurfaceFacts.

(** ** The number of bars *)

Module CountFacts.

Import MultiCanvas.

Lemma floor_add_Z (x : Q) (z : Z) :
  Qfloor (x + inject_Z z) = (Qfloor x + z)%Z.
Proof.
  pose proof (Qfloor_le (x + inject_Z z)) as A1.
  pose proof (Qlt_floor (x + inject_Z z)) as A2.
  pose proof (Qfloor_le x) as B1.
  pose proof (Qlt_floor x) as B2.
  set (n := Qfloor (x + inject_Z z)) in *. set (f := Qfloor x) in *.
  rewrite inject_Z_plus in A2, B2. change (inject_Z 1) with 1 in *.
  assert (H1 : inject_Z n < inject_Z (f + z + 1)).
  { rewrite !inject_Z_plus. change (inject_Z 1) with 1. lra. }
  assert (H2 : inject_Z (f + z) < inject_Z (n + 1)).
  { rewrite !inject_Z_plus. change (inject_Z 1) with 1. lra. }
  rewrite <- Zlt_Qlt in H1, H2. lia.
Qed.

Lemma ceil_sub_one (x : Q) : Qceiling (x - 1) = (Qceiling x - 1)%Z.
Proof.
  unfold Qceiling.
  assert (E : - (x - 1) == - x + inject_Z 1)
    by (change (inject_Z 1) with 1; ring).
  rewrite (Qfloor_comp _ _ E), floor_add_Z. lia.
Qed.

Lemma bars_loop_count (m : t) (g : geometry) (last : Q) (inner : nat) :
  0 < bar_step m ->
  forall fuel peakIndex acts,
    bars_loop fuel inner m g last peakIndex = Ok acts ->
    length acts = Z.to_nat (Qceiling ((last - peakIndex) / bar_step m)).
Proof.
  intro Hstep.
  assert (Hdone : forall peakIndex,
             JS.ltb peakIndex last = false ->
             Z.to_nat (Qceiling ((last - peakIndex) / bar_step m)) = 0%nat).
  { intros peakIndex E.
    assert (Hle : last <= peakIndex).
    { destruct (Qlt_le_dec peakIndex last) as [Hlt | Hge]; [| exact Hge].
      apply JSFacts.ltb_lt in Hlt. congruence. }
    assert (Hx : (last - peakIndex) / bar_step m <= 0).
    { apply Qle_shift_div_r; [exact Hstep | lra]. }
    apply Qceiling_resp_le in Hx. change (Qceiling 0) with 0%Z in Hx. lia. }
  induction fuel as [|fuel IH]; intros peakIndex acts H.
  - simpl in H. destruct (JS.ltb peakIndex last) eqn:Elt; [discriminate |].
    inversion H; subst. simpl. symmetry. apply Hdone. exact Elt.
  - rewrite BarFacts.bars_loop_S in H.
    destruct (JS.ltb peakIndex last) eqn:Elt;
      [| inversion H; subst; simpl; symmetry; apply Hdone; exact Elt].
    apply JSFacts.ltb_lt in Elt. cbv zeta in H.
    match type of H with
    | bind ?scan _ = _ => destruct scan as [[peak visited]| |];
                            try discriminate H
    end.
    cbn [bind] in H.
    destruct (bars_loop fuel inner m g last (peakIndex + bar_step m))
      as [rest| |] eqn:Er; try discriminate H.
    cbn [bind] in H. inversion H; subst. clear H.
    simpl length. rewrite (IH _ _ Er).
    assert (E : (last - (peakIndex + bar_step m)) / bar_step m
                == (last - peakIndex) / bar_step m - 1) by (field; lra).
    rewrite (Qceiling_comp _ _ E), ceil_sub_one.
    assert (Hpos : 0 < (last - peakIndex) / bar_step m).
    { apply Qlt_shift_div_l; [exact Hstep | lra]. }
    apply BarFacts.ceil_pos in Hpos. lia.
Qed.

(** With a positive step, [drawBars] draws exactly
    [ceil((end - start) / step)] bars, and none when the range is empty. *)
Theorem drawBars_count (fuel : nat) (m : t) (first last : Q) (g : geometry)
  (acts : list action) :
  0 < bar_step m ->
  drawBars_fn fuel m (Some first) (Some last) g = Ok acts ->
  length acts = Z.to_nat (JS.ceil ((last - first) / bar_step m)).
Proof.
  intros Hstep H. unfold drawBars_fn in H.
  eapply bars_loop_count; eassumption.
Qed.

Lemma drawBars_count_witness :
  length [AFillRect (1 # 2) (64 # 2) (5 # 2) 64 0 0;
          AFillRect (7 # 2) (64 # 2) (5 # 2) 64 0 0]
  = Z.to_nat (JS.ceil ((6 - 0) / bar_step Sample.drawer_resized)).
Proof.
  pose (g := {| g_absmax := 1; g_hasMinVals := false; g_height := 128;
                g_offsetY := 0; g_halfH := 128 / 2;
                g_peaks := [1 # 2; 1; 1 # 4; 0; 1 # 3]; g_channelIndex := 0 |}).
  apply (@drawBars_count 10 Sample.drawer_resized 0 6 g).
  - vm_compute. reflexivity.
  - vm_compute. reflexivity.
Defined.

End CountFacts.

(** ** Zooming on the backup images (stretchBackimage) *)

Module ZoomFacts.

Import MultiCanvas.

(** The scaled backup images are drawn edge to edge: each one starts at
    the pixel where the one before it ends, and they are taken from the
    backup array in order. *)
Theorem backup_slices_adjacent (scale left viewOffset : Q) :
  forall imgs i off k
         s1 sx1 sy1 sw1 sh1 dx1 dy1 dw1 dh1
         s2 sx2 sy2 sw2 sh2 dx2 dy2 dw2 dh2,
    nth_error (CanvasEntry.draw_backups imgs i scale off left viewOffset) k
    = Some (DrawImage9 s1 sx1 sy1 sw1 sh1 dx1 dy1 dw1 dh1) ->
    nth_error (CanvasEntry.draw_backups imgs i scale off left viewOffset)
      (S k)
    = Some (DrawImage9 s2 sx2 sy2 sw2 sh2 dx2 dy2 dw2 dh2) ->
    dx2 == dx1 + dw1
    /\ s1 = SrcBackup (i + k) /\ s2 = SrcBackup (i + S k).
Proof.
  induction imgs as [|b rest IH]; intros i off k
    s1 sx1 sy1 sw1 sh1 dx1 dy1 dw1 dh1 s2 sx2 sy2 sw2 sh2 dx2 dy2 dw2 dh2
    H1 H2.
  - destruct k; discriminate H1.
  - destruct k as [|k].
    + cbn [CanvasEntry.draw_backups nth_error] in H1, H2.
      destruct rest as [|b2 rest]; [discriminate H2 |].
      cbn [CanvasEntry.draw_backups nth_error] in H2.
      set (c := JS.ceil (img_width b * scale)) in *.
      assert (Es1 : s1 = SrcBackup i) by congruence.
      assert (Es2 : s2 = SrcBackup (S i)) by congruence.
      assert (Ex1 : dx1 = inject_Z (JS.floor (off - left + viewOffset)))
        by congruence.
      assert (Ew1 : dw1 = inject_Z c) by congruence.
      assert (Ex2 : dx2 = inject_Z (JS.floor (off + inject_Z c - left
                                              + viewOffset)))
        by congruence.
      clear H1 H2. subst s1 s2 dx1 dw1 dx2.
      split; [| split; f_equal; lia].
      assert (E : off + inject_Z c - left + viewOffset
                  == (off - left + viewOffset) + inject_Z c) by ring.
      unfold JS.floor. rewrite (Qfloor_comp _ _ E), CountFacts.floor_add_Z.
      rewrite inject_Z_plus. reflexivity.
    + cbn [CanvasEntry.draw_backups nth_error] in H1, H2.
      destruct (IH _ _ _ _ _ _ _ _ _ _ _ _ _ _ _ _ _ _ _ _ _ H1 H2)
        as [A [B C]].
      split; [exact A |]. split; [rewrite B | rewrite C]; f_equal; lia.
Qed.

Lemma backup_slices_adjacent_witness :
  inject_Z 8000 == inject_Z 0 + inject_Z 8000
  /\ SrcBackup 0 = SrcBackup (0 + 0) /\ SrcBackup 1 = SrcBackup (0 + 1).
Proof.
  apply (@backup_slices_adjacent 2 0 0 Sample.backups 0%nat 0 0%nat
           (SrcBackup 0) 0 0 4000 128 (inject_Z 0) 0 (inject_Z 8000) 128
           (SrcBackup 1) 0 0 4000 128 (inject_Z 8000) 0 (inject_Z 8000) 128).
  - vm_compute. reflexivity.
  - vm_compute. reflexivity.
Defined.

Lemma entry_stretch_keeps_timer e st tw pr vb bk e' r :
  CanvasEntry.stretchBackimage e st tw pr vb bk = Ok (e', r) ->
  CanvasEntry.drawTimeout e' = CanvasEntry.drawTimeout e
  /\ r = CanvasEntry.end_ e * tw.
Proof.
  intro H.
  destruct e as [[w|] [p|] s f [|] half dt dr];
    FlagFacts.entry_ops; try discriminate H; FlagFacts.split_cases H;
    inversion H; subst; clear H; split; reflexivity.
Qed.

Lemma stretch_entries_timers tw pr vb bk :
  forall es st es',
    stretch_entries tw pr vb bk st es = Ok es' ->
    length es' = length es
    /\ Forall (fun e => CanvasEntry.drawTimeout e = None) es'.
Proof.
  induction es as [|e rest IH]; intros st es' H; cbn [stretch_entries] in H.
  - inversion H. split; [reflexivity | constructor].
  - match type of H with
    | bind ?r _ = _ => destruct r as [[e1 st1]| |] eqn:E1; cbn [bind] in H;
                         try discriminate
    end.
    destruct (stretch_entries tw pr vb bk st1 rest) as [rest'| |] eqn:E2;
      cbn [bind] in H; try discriminate.
    inversion H; subst. destruct (IH _ _ E2) as [L F].
    split; [simpl; f_equal; exact L |].
    constructor; [| exact F].
    apply entry_stretch_keeps_timer in E1. destruct E1 as [E1 _].
    rewrite E1. destruct e; reflexivity.
Qed.

Section Zoom.

Variable recenterOnPosition : wrapperEl -> Q -> wrapperEl.

(** A zoom by [stretchBackimage] stores the desired width as the width of
    the drawer, keeps the number of surfaces, leaves no redraw pending on any
    of them, sets the width of the progress wave to
    [progress * round(desiredWidth / pixelRatio)] and recentres the wrapper
    on that position. *)
Theorem stretchBackimage_zoom (m m' : t) (desiredWidth progress : Q) :
  stretchBackimage recenterOnPosition m desiredWidth progress = Ok m' ->
  let progressPos :=
    progress * inject_Z (JS.round (desiredWidth / pixelRatio (prm m))) in
  width m' = desiredWidth
  /\ height m' = height m
  /\ length (canvases m') = length (canvases m)
  /\ Forall (fun e => CanvasEntry.drawTimeout e = None) (canvases m')
  /\ (exists pw, progressWave m' = Some pw /\ pw_width pw = progressPos)
  /\ wrapper m' = recenterOnPosition (wrapper m) progressPos.
Proof.
  intros H progressPos. unfold stretchBackimage in H.
  match type of H with
  | bind ?r _ = _ => destruct r as [es| |] eqn:E; cbn [bind] in H;
                       try discriminate
  end.
  apply stretch_entries_timers in E. destruct E as [L F].
  unfold updateProgress in H.
  match type of H with
  | bind (bind (deref ?o) _) _ = _ =>
      destruct o as [pw|] eqn:Epw; cbn [bind deref] in H; [| discriminate]
  end.
  inversion H; subst m'; clear H. cbn.
  split; [reflexivity |]. split; [reflexivity |].
  split; [exact L |]. split; [exact F |].
  split; [eexists; split; reflexivity | reflexivity].
Qed.

End Zoom.

Lemma stretchBackimage_zoom_witness :
  width Sample.drawer_zoomed = 20000
  /\ length (canvases Sample.drawer_zoomed)
     = length (canvases Sample.drawer_backed)
  /\ Forall (fun e => CanvasEntry.drawTimeout e = None)
       (canvases Sample.drawer_zoomed).
Proof.
  assert (Hrun : stretchBackimage Sample.recenter Sample.drawer_backed 20000
                   (1 # 2) = Ok Sample.drawer_zoomed)
    by (vm_compute; reflexivity).
  destruct (@stretchBackimage_zoom _ _ _ _ _ Hrun) as [A [_ [B [C _]]]].
  split; [exact A |]. split; [exact B | exact C].
Defined.

End ZoomFacts.

(** ** Clearing the waveform (clearWave) *)

Module ClearFacts.

Import MultiCanvas.

Lemma entry_clearWave_result (e e' : CanvasEntry.t) :
  CanvasEntry.clearWave e = Ok e' ->
  Pred.entry_layout e' = Pred.entry_layout e
  /\ CanvasEntry.drawn e' = false
  /\ CanvasEntry.drawTimeout e' = CanvasEntry.drawTimeout e
  /\ exists w w',
       CanvasEntry.wave e = Some w /\ CanvasEntry.wave e' = Some w'
       /\ cv_calls w'
          = cv_calls w
            ++ [Save; SetTransform 1 0 0 1 0 0;
                ClearRect 0 0 (cv_width w) (cv_height w); Restore]
       /\ cv_backimage w' = Some {| img_src := EmptyURL |}.
Proof.
  intro H.
  destruct e as [[w|] [p|] s f [|] half dt dr];
    FlagFacts.entry_ops; try discriminate H;
    inversion H; subst; clear H;
    (split; [reflexivity |]); (split; [reflexivity |]);
    (split; [reflexivity |]); eexists _, _;
    (split; [reflexivity |]); (split; [reflexivity |]);
    split; reflexivity.
Qed.

(** [clearWave] wipes every surface and nothing else: each wave context
    gets, after the calls it already had, the identity transform between a
    save and a restore and a [clearRect] of the whole bitmap; the back image
    is emptied and the surface is marked as not drawn; the position, the
    size and the owned fractions of every surface, its pending redraw and
    the number of surfaces stay as they are. *)
Theorem clearWave_wipes (m m' : t) :
  clearWave m = Ok m' ->
  Pred.config m' = Pred.config m
  /\ Forall2
       (fun e e' =>
          Pred.entry_layout e' = Pred.entry_layout e
          /\ CanvasEntry.drawn e' = false
          /\ CanvasEntry.drawTimeout e' = CanvasEntry.drawTimeout e
          /\ exists w w',
               CanvasEntry.wave e = Some w /\ CanvasEntry.wave e' = Some w'
               /\ cv_calls w'
                  = cv_calls w
                    ++ [Save; SetTransform 1 0 0 1 0 0;
                        ClearRect 0 0 (cv_width w) (cv_height w); Restore]
               /\ cv_backimage w' = Some {| img_src := EmptyURL |})
       (canvases m) (canvases m').
Proof.
  unfold clearWave. intro H.
  destruct (forEach CanvasEntry.clearWave (canvases m)) as [es| |] eqn:E;
    cbn [bind] in H; try discriminate.
  inversion H; subst m'; clear H.
  split; [destruct m; reflexivity |].
  cbn [canvases set_canvases].
  eapply TimerFacts.forEach_Forall2; [| exact E].
  intros x x'. apply entry_clearWave_result.
Qed.

Lemma clearWave_wipes_witness :
  Pred.config Sample.drawer_cleared = Pred.config Sample.drawer_filled
  /\ length (canvases Sample.drawer_cleared)
     = length (canvases Sample.drawer_filled).
Proof.
  assert (Hrun : clearWave Sample.drawer_filled = Ok Sample.drawer_cleared)
    by (vm_compute; reflexivity).
  destruct (@clearWave_wipes _ _ Hrun) as [A B].
  split; [exact A |]. symmetry. eapply Forall2_length. exact B.
Defined.

End ClearFacts.
